(** * A linear equation solver: Gauss-Jordan reduction, rank, classification

    Shallow embedding of [equation_solver.py].  Python lists are Rocq lists,
    indexing that Python would reject is an [IndexError], a division by zero
    is a [ZeroDivisionError].  The arithmetic is kept behind the interface
    [Number], which names the operations the program uses; the program
    computes with IEEE binary64, and what depends on the arithmetic is
    proved on binary64. *)

From Stdlib Require Import String Ascii.
From Stdlib Require Import List Arith Lia Bool ZArith.
From Stdlib Require Import Floats.
From Stdlib Require Import Permutation Sorted OrderedTypeEx.
From Stdlib Require Import Ring.
From Stdlib Require QArith Qcanon Qpower.
Import Init.Datatypes.
Import ListNotations.

Set Implicit Arguments.

(** ** Exceptions and the error monad *)

Inductive exn : Type :=
| IndexError
| ZeroDivisionError
| ValueError.

Inductive result (A : Type) : Type :=
| Ok (a : A)
| Raise (e : exn).

Arguments Ok {A} a.
Arguments Raise {A} e.

Definition bind {A B : Type} (m : result A) (k : A -> result B) : result B :=
  match m with
  | Ok a => k a
  | Raise e => Raise e
  end.

Declare Scope py_scope.
Delimit Scope py_scope with py.
Notation "x <- m ;; k" := (bind m (fun x => k))
  (at level 61, m at next level, right associativity) : py_scope.
Notation "' pat <- m ;; k" := (bind m (fun x => match x with pat => k end))
  (at level 61, pat pattern, m at next level, right associativity) : py_scope.
Open Scope py_scope.

(** [for x in xs: body], the loop state threaded through the body. *)
Fixpoint for_each {A S : Type} (xs : list A) (body : A -> S -> result S)
  (s : S) : result S :=
  match xs with
  | [] => Ok s
  | x :: xs' => s' <- body x s ;; for_each xs' body s'
  end.

(** [range(lo, hi)]. *)
Definition range (lo hi : nat) : list nat := seq lo (hi - lo).

(** [for x in xs: if p(x): found = x; break]. *)
Fixpoint find_first {A : Type} (xs : list A) (p : A -> result bool)
  : result (option A) :=
  match xs with
  | [] => Ok None
  | x :: xs' =>
      b <- p x ;;
      if b then Ok (Some x) else find_first xs' p
  end.

(** ** Python lists *)

(** [l[i]] for [i >= 0]. *)
Definition list_get {A : Type} (l : list A) (i : nat) : result A :=
  match nth_error l i with
  | Some a => Ok a
  | None => Raise IndexError
  end.

Fixpoint replace_nth {A : Type} (l : list A) (i : nat) (a : A) : list A :=
  match l, i with
  | [], _ => []
  | _ :: t, 0 => a :: t
  | h :: t, S j => h :: replace_nth t j a
  end.

(** [l[i] = a] for [i >= 0]. *)
Definition list_set {A : Type} (l : list A) (i : nat) (a : A) : result (list A) :=
  if i <? length l then Ok (replace_nth l i a) else Raise IndexError.

(** [l[-1]]. *)
Definition get_last {A : Type} (l : list A) : result A :=
  match l with
  | [] => Raise IndexError
  | _ => list_get l (length l - 1)
  end.

(** ** The arithmetic interface

    [of_int] is the implicit conversion of a Python [int] operand, [fltb] is
    [<] (and [>] with the operands exchanged), [tol] is the literal [1e-10].
    The two laws say that a magnitude that passed a tolerance test is not
    zero; they are what keeps the divisions of the program from raising. *)

Class Number (F : Type) : Type := {
  of_int : Z -> F;
  fadd : F -> F -> F;
  fsub : F -> F -> F;
  fmul : F -> F -> F;
  fquot : F -> F -> F;
  fabs : F -> F;
  fltb : F -> F -> bool;
  fleb : F -> F -> bool;
  is_zero : F -> bool;
  tol : F;
  above_tol_nonzero : forall x, fltb tol (fabs x) = true -> is_zero x = false;
  not_below_tol_nonzero : forall x, fltb (fabs x) tol = false -> is_zero x = false
}.

(** [x / y] on floats. *)
Definition py_div {F} `{Number F} (x y : F) : result F :=
  if is_zero y then Raise ZeroDivisionError else Ok (fquot x y).

Definition matrix (F : Type) : Type := list (list F).

Section Matrices.
Context {F : Type} `{Number F}.

(** [m[r][c]]. *)
Definition mget (m : matrix F) (r c : nat) : result F :=
  row <- list_get m r ;; list_get row c.

(** [m[r][c] = v]: the row object is updated in place. *)
Definition mset (m : matrix F) (r c : nat) (v : F) : result (matrix F) :=
  row <- list_get m r ;;
  row' <- list_set row c v ;;
  list_set m r row'.

(** [m[i], m[j] = m[j], m[i]]. *)
Definition swap_rows (m : matrix F) (i j : nat) : result (matrix F) :=
  rj <- list_get m j ;;
  ri <- list_get m i ;;
  m1 <- list_set m i rj ;;
  list_set m1 j ri.

(** [len(m[0])]. *)
Definition len_first (m : matrix F) : result nat :=
  r0 <- list_get m 0 ;; Ok (length r0).

(** *** [gauss_jordan] *)

(** Lines 85-88: the row of largest magnitude in column [i], from row [i]
    down; ties keep the first. *)
Definition find_pivot (m : matrix F) (i rows : nat) : result nat :=
  for_each (range (i + 1) rows)
    (fun j pivot_row =>
       a <- mget m j i ;;
       b <- mget m pivot_row i ;;
       Ok (if fltb (fabs b) (fabs a) then j else pivot_row))
    i.

(** Lines 99-101: divide row [i] by the pivot read before the loop. *)
Definition scale_row (m : matrix F) (i cols : nat) : result (matrix F) :=
  pivot <- mget m i i ;;
  for_each (range 0 cols)
    (fun j m =>
       a <- mget m i j ;;
       q <- py_div a pivot ;;
       mset m i j q)
    m.

(** Lines 106-108: subtract [factor] times row [i] from row [j]. *)
Definition subtract_row (i j cols : nat) (factor : F) (m : matrix F)
  : result (matrix F) :=
  for_each (range 0 cols)
    (fun k m =>
       a <- mget m j k ;;
       b <- mget m i k ;;
       mset m j k (fsub a (fmul factor b)))
    m.

(** Lines 104-108. *)
Definition eliminate (m : matrix F) (i rows cols : nat) : result (matrix F) :=
  for_each (range 0 rows)
    (fun j m =>
       if j =? i then Ok m
       else
         a <- mget m j i ;;
         if fltb tol (fabs a) then subtract_row i j cols a m else Ok m)
    m.

(** One turn of the loop of line 83. *)
Definition gauss_jordan_step (rows cols i : nat) (m : matrix F)
  : result (matrix F) :=
  pivot_row <- find_pivot m i rows ;;
  m <- (if pivot_row =? i then Ok m else swap_rows m i pivot_row) ;;
  p <- mget m i i ;;
  if fltb (fabs p) tol then Ok m
  else
    m <- scale_row m i cols ;;
    eliminate m i rows cols.

(** The matrix is mutated in place; the embedding returns its final
    contents.  [cols - 1] is truncated at zero, which leaves
    [range(min(rows, cols - 1))] empty exactly when Python's is. *)
Definition gauss_jordan (m : matrix F) : result (matrix F) :=
  let rows := length m in
  cols <- len_first m ;;
  for_each (range 0 (Nat.min rows (cols - 1))) (gauss_jordan_step rows cols) m.

(** *** [check_rank] *)

(** Lines 126-130: the first row from [rank] down whose entry in [col]
    exceeds the tolerance; [None] is [pivot_row == -1]. *)
Definition rank_pivot (t : matrix F) (rank rows col : nat)
  : result (option nat) :=
  find_first (range rank rows)
    (fun row => a <- mget t row col ;; Ok (fltb tol (fabs a))).

(** Lines 140-144. *)
Definition rank_eliminate (t : matrix F) (rank rows cols col : nat)
  : result (matrix F) :=
  for_each (range 0 rows)
    (fun row t =>
       if row =? rank then Ok t
       else
         a <- mget t row col ;;
         if fltb tol (fabs a) then
           p <- mget t rank col ;;
           factor <- py_div a p ;;
           subtract_row rank row cols factor t
         else Ok t)
    t.

(** One turn of the loop of line 124, on the working copy and the rank. *)
Definition check_rank_step (rows cols col : nat) (st : matrix F * nat)
  : result (matrix F * nat) :=
  let '(t, rank) := st in
  found <- rank_pivot t rank rows col ;;
  match found with
  | None => Ok (t, rank)
  | Some pivot_row =>
      t <- (if pivot_row =? rank then Ok t else swap_rows t rank pivot_row) ;;
      t <- rank_eliminate t rank rows cols col ;;
      Ok (t, rank + 1)
  end.

(** The loop of [check_rank] on the working copy [t]. *)
Definition rank_loop (t : matrix F) : result (matrix F * nat) :=
  let rows := length t in
  cols <- len_first t ;;
  for_each (range 0 cols) (check_rank_step rows cols) (t, 0).

(** [check_rank] as a function of the contents of its argument.  The copy
    of line 117 has the contents of the argument. *)
Definition check_rank (m : matrix F) : result nat :=
  match m with
  | [] => Ok 0
  | [] :: _ => Ok 0
  | _ =>
      let temp_matrix := map (fun row => row) m in
      '(_, rank) <- rank_loop temp_matrix ;;
      Ok rank
  end.

End Matrices.

(** ** Terms, equations and the variable universe *)

Inductive Operator : Type :=
| ADD
| SUB.

Record Term (F : Type) : Type := mkTerm {
  coefficient : F;
  variable : string;
  operator : Operator
}.

Arguments mkTerm {F} coefficient variable operator.
Arguments coefficient {F} t.
Arguments variable {F} t.
Arguments operator {F} t.

(** What [parse_question] returns: the terms and the right-hand side. *)
Definition equation (F : Type) : Type := (list (Term F) * F)%type.

(** [x in l] on names. *)
Definition mem_name (x : string) (l : list string) : bool :=
  existsb (String.eqb x) l.

(** [x in l] on indices. *)
Definition mem_index (x : nat) (l : list nat) : bool :=
  existsb (Nat.eqb x) l.

(** [s.add(x)] on a set kept as the list of its members. *)
Definition set_add (x : string) (s : list string) : list string :=
  if mem_name x s then s else s ++ [x].

(** [sorted]: names are compared as Python compares [str]. *)
Fixpoint insert_sorted (x : string) (l : list string) : list string :=
  match l with
  | [] => [x]
  | y :: l' => if String.leb x y then x :: l else y :: insert_sorted x l'
  end.

Definition sorted (l : list string) : list string :=
  fold_right insert_sorted [] l.

(** [l.index(x)]. *)
Fixpoint index (l : list string) (x : string) : result nat :=
  match l with
  | [] => Raise ValueError
  | y :: l' => if String.eqb y x then Ok 0 else n <- index l' x ;; Ok (S n)
  end.

(** ** Dictionaries keyed by variable name, in insertion order *)

Definition dict (F : Type) : Type := list (string * F).

Fixpoint dict_get {F : Type} (d : dict F) (k : string) : option F :=
  match d with
  | [] => None
  | (k', v) :: d' => if String.eqb k' k then Some v else dict_get d' k
  end.

(** [d[k] = v]. *)
Fixpoint dict_set {F : Type} (d : dict F) (k : string) (v : F) : dict F :=
  match d with
  | [] => [(k, v)]
  | (k', v') :: d' =>
      if String.eqb k' k then (k', v) :: d' else (k', v') :: dict_set d' k v
  end.

(** [k in d]. *)
Definition dict_mem {F : Type} (d : dict F) (k : string) : bool :=
  match dict_get d k with
  | Some _ => true
  | None => false
  end.

(** [dict(pairs)]. *)
Definition dict_of {F : Type} (pairs : list (string * F)) : dict F :=
  fold_left (fun d kv => dict_set d (fst kv) (snd kv)) pairs [].

(** ** The outcome of a solve

    The program returns [{}], the flat mapping, or the structured record
    with ["type": "infinite"]; the three branches are the three outcomes. *)

Inductive outcome (F : Type) : Type :=
| NoSolution
| UniqueSolution (values : dict F)
| InfiniteSolutions (basic_variables free_variables : list string)
    (example_solutions : list (dict F)).

Arguments NoSolution {F}.
Arguments UniqueSolution {F} values.
Arguments InfiniteSolutions {F} basic_variables free_variables example_solutions.

Section Solver.
Context {F : Type} `{Number F}.

(** *** The matrix builder (lines 160-181) *)

(** Lines 162-166, the set as the list of its members in the order they
    were first added.  The program never reads that order: it only
    iterates the set inside [sorted]. *)
Definition all_vars (parsed_equations : list (equation F)) : list string :=
  fold_left
    (fun s e => fold_left (fun s term => set_add (variable term) s) (fst e) s)
    parsed_equations [].

(** Lines 173-177. *)
Definition build_row (var_order : list string) (terms : list (Term F))
  : result (list F) :=
  for_each terms
    (fun term row =>
       idx <- index var_order (variable term) ;;
       let sign := match operator term with ADD => 1%Z | SUB => (-1)%Z end in
       a <- list_get row idx ;;
       list_set row idx (fadd a (fmul (of_int sign) (coefficient term))))
    (repeat (of_int 0) (length var_order)).

(** Lines 172-179: [A] and [B]. *)
Definition build_matrix (var_order : list string)
  (parsed_equations : list (equation F)) : result (matrix F * list F) :=
  for_each parsed_equations
    (fun e ab =>
       row <- build_row var_order (fst e) ;;
       Ok (fst ab ++ [row], snd ab ++ [snd e]))
    ([], []).

(** Line 181: [[row + [b] for row, b in zip(A, B)]]. *)
Definition augment (A : matrix F) (B : list F) : matrix F :=
  map (fun rb => fst rb ++ [snd rb]) (combine A B).

(** *** The free-variable solution generator (lines 209-303) *)

(** Lines 223-228 and 272-275: the first column of [row] whose entry
    exceeds the tolerance. *)
Definition first_nonzero_col (augmented : matrix F) (num_vars row : nat)
  : result (option nat) :=
  find_first (range 0 num_vars)
    (fun col => a <- mget augmented row col ;; Ok (fltb tol (fabs a))).

(** Lines 221-228. *)
Definition find_pivot_cols (augmented : matrix F) (var_order : list string)
  : result (list nat * list string) :=
  for_each (range 0 (length augmented))
    (fun row st =>
       found <- first_nonzero_col augmented (length var_order) row ;;
       match found with
       | Some col =>
           if mem_index col (fst st) then Ok st
           else
             v <- list_get var_order col ;;
             Ok (fst st ++ [col], snd st ++ [v])
       | None => Ok st
       end)
    ([], []).

(** Lines 231-233. *)
Definition find_free_vars (var_order : list string) (pivot_cols : list nat)
  : list string :=
  map snd
    (filter (fun iv => negb (mem_index (fst iv) pivot_cols))
       (combine (seq 0 (length var_order)) var_order)).

(** Lines 240-256: the battery of sample values. *)
Definition free_var_values (n : nat) : list (list F) :=
  if 1 <? n then
    [ repeat (of_int 0) n;
      repeat (of_int 1) n;
      repeat (of_int (-1)) n;
      [of_int 1; of_int 0] ++ repeat (of_int 0) (n - 2);
      [of_int 0; of_int 1] ++ repeat (of_int 0) (n - 2) ]
  else
    [ repeat (of_int 0) n;
      repeat (of_int 1) n;
      repeat (of_int (-1)) n;
      repeat (of_int 2) n;
      repeat (of_int (-2)) n ].

(** Lines 264-265. *)
Definition set_free_vars (free_vars : list string) (free_values : list F)
  : result (dict F) :=
  for_each (combine (seq 0 (length free_vars)) free_vars)
    (fun jv solution =>
       x <- list_get free_values (fst jv) ;;
       Ok (dict_set solution (snd jv) x))
    [].

(** Lines 281-285. *)
Definition reduce_rhs (augmented : matrix F) (var_order : list string)
  (row pivot_col : nat) (solution : dict F) : result F :=
  r <- list_get augmented row ;;
  rhs <- get_last r ;;
  for_each (range (pivot_col + 1) (length var_order))
    (fun col rhs =>
       other_var <- list_get var_order col ;;
       match dict_get solution other_var with
       | Some x => a <- mget augmented row col ;; Ok (fsub rhs (fmul a x))
       | None => Ok rhs
       end)
    rhs.

(** Lines 269-288: one row of the back-substitution. *)
Definition back_substitute_row (augmented : matrix F)
  (var_order : list string) (row : nat) (solution : dict F)
  : result (dict F) :=
  found <- first_nonzero_col augmented (length var_order) row ;;
  match found with
  | None => Ok solution
  | Some pivot_col =>
      var_name <- list_get var_order pivot_col ;;
      if dict_mem solution var_name then Ok solution
      else
        rhs <- reduce_rhs augmented var_order row pivot_col solution ;;
        p <- mget augmented row pivot_col ;;
        if fltb tol (fabs p) then
          x <- py_div rhs p ;;
          Ok (dict_set solution var_name x)
        else Ok solution
  end.

(** Lines 260-290: one example solution. *)
Definition example_solution (augmented : matrix F) (var_order : list string)
  (free_vars : list string) (free_values : list F) : result (dict F) :=
  solution <- set_free_vars free_vars free_values ;;
  for_each (rev (range 0 (length augmented)))
    (back_substitute_row augmented var_order) solution.

Definition _generate_infinite_solutions (coefficient : matrix F)
  (augmented : matrix F) (var_order : list string) : result (outcome F) :=
  _ <- check_rank coefficient ;;
  '(pivot_cols, basic_vars) <- find_pivot_cols augmented var_order ;;
  let free_vars := find_free_vars var_order pivot_cols in
  example_solutions <-
    for_each (free_var_values (length free_vars))
      (fun free_values acc =>
         solution <- example_solution augmented var_order free_vars free_values ;;
         Ok (acc ++ [solution]))
      [] ;;
  Ok (InfiniteSolutions basic_vars free_vars example_solutions).

(** *** [solve_equations_manual] *)

(** Lines 169-206, for a given [var_order]. *)
Definition solve_with_order (var_order : list string)
  (parsed_equations : list (equation F)) : result (outcome F) :=
  '(A, B) <- build_matrix var_order parsed_equations ;;
  augmented <- gauss_jordan (augment A B) ;;
  ret <- for_each augmented
           (fun row ret => x <- get_last row ;; Ok (ret ++ [x])) [] ;;
  let coefficient := map (@removelast F) augmented in
  c_rank_A <- check_rank coefficient ;;
  c_rank_aug <- check_rank augmented ;;
  c_num_vars <- len_first coefficient ;;
  if negb (c_rank_A =? c_rank_aug) then Ok NoSolution
  else if c_rank_A <? c_num_vars then
    _generate_infinite_solutions coefficient augmented var_order
  else Ok (UniqueSolution (dict_of (combine var_order ret))).

(** Lines 158-206 after parsing: the solver on parsed equations. *)
Definition solve_parsed (parsed_equations : list (equation F))
  : result (outcome F) :=
  solve_with_order (sorted (all_vars parsed_equations)) parsed_equations.

End Solver.

(** ** The program's arithmetic: IEEE binary64 *)

Module Binary64.

(** [float(z)] for the small integers the program mixes into its
    arithmetic ([0], [1], [-1], [2], [-2]). *)
Definition float_of_int (z : Z) : float :=
  match z with
  | Z0 => 0%float
  | Zpos _ => PrimFloat.of_uint63 (Uint63.of_Z z)
  | Zneg p => PrimFloat.opp (PrimFloat.of_uint63 (Uint63.of_Z (Zpos p)))
  end.

(** The literal [1e-10]. *)
Definition tolerance : float := 0x1.b7cdfd9d7bdbbp-34%float.

Lemma above_tolerance_nonzero (x : float) :
  PrimFloat.ltb tolerance (PrimFloat.abs x) = true ->
  PrimFloat.eqb x 0%float = false.
Proof.
  rewrite FloatAxioms.ltb_spec, FloatAxioms.eqb_spec, FloatAxioms.abs_spec.
  destruct (Prim2SF x) as [s|s| |s m e];
    first [ intros _; try destruct s; vm_compute; reflexivity
          | vm_compute; congruence ].
Qed.

Lemma not_below_tolerance_nonzero (x : float) :
  PrimFloat.ltb (PrimFloat.abs x) tolerance = false ->
  PrimFloat.eqb x 0%float = false.
Proof.
  rewrite FloatAxioms.ltb_spec, FloatAxioms.eqb_spec, FloatAxioms.abs_spec.
  destruct (Prim2SF x) as [s|s| |s m e];
    first [ intros _; try destruct s; vm_compute; reflexivity
          | vm_compute; congruence ].
Qed.

#[export] Instance float_number : Number float := {
  of_int := float_of_int;
  fadd := PrimFloat.add;
  fsub := PrimFloat.sub;
  fmul := PrimFloat.mul;
  fquot := PrimFloat.div;
  fabs := PrimFloat.abs;
  fltb := PrimFloat.ltb;
  fleb := PrimFloat.leb;
  is_zero := fun x => PrimFloat.eqb x 0%float;
  tol := tolerance;
  above_tol_nonzero := above_tolerance_nonzero;
  not_below_tol_nonzero := not_below_tolerance_nonzero
}.

End Binary64.

Import Binary64.

(** ** Shapes and entries *)

(** [m] has [rows] rows, each of [cols] entries. *)
Definition rect {F : Type} (m : matrix F) (rows cols : nat) : Prop :=
  length m = rows /\ Forall (fun r => length r = cols) m.

(** The entry at row [r] and column [c], for statements; [d] is what it is
    outside the matrix, and never matters inside. *)
Definition entry {F : Type} (d : F) (m : matrix F) (r c : nat) : F :=
  nth c (nth r m []) d.

(** * Loops and lists *)

Lemma bind_ok {A B : Type} (m : result A) (k : A -> result B) (b : B) :
  bind m k = Ok b -> exists a, m = Ok a /\ k a = Ok b.
Proof.
  destruct m as [a|e]; simpl; intros Hb; [exists a; auto | discriminate].
Qed.

Lemma bind_Ok {A B : Type} (a : A) (k : A -> result B) : bind (Ok a) k = k a.
Proof. reflexivity. Qed.

(** A loop over consecutive indices keeps an invariant that may mention the
    index, and returns. *)
Lemma for_each_seq_inv {St : Type} (P : nat -> St -> Prop)
  (body : nat -> St -> result St) (n lo : nat) (s : St) :
  P lo s ->
  (forall i s, lo <= i < lo + n -> P i s ->
     exists s', body i s = Ok s' /\ P (i + 1) s') ->
  exists s', for_each (seq lo n) body s = Ok s' /\ P (lo + n) s'.
Proof.
  revert lo s; induction n as [|n IH]; intros lo s H0 Hstep; simpl.
  - exists s; split; [reflexivity|]. now rewrite Nat.add_0_r.
  - destruct (Hstep lo s) as (s1 & Hb & H1); [lia | assumption |].
    rewrite Hb; simpl.
    destruct (IH (lo + 1) s1) as (s2 & Hf & H2).
    + assumption.
    + intros i t Hi Hp. apply Hstep; [lia | assumption].
    + exists s2. replace (S lo) with (lo + 1) by lia. split; [assumption|].
      now replace (lo + S n) with (lo + 1 + n) by lia.
Qed.

Arguments for_each_seq_inv {St} P body n lo s _ _.

(** A loop keeps an invariant and returns. *)
Lemma for_each_inv {A St : Type} (P : St -> Prop)
  (body : A -> St -> result St) (xs : list A) (s : St) :
  P s ->
  (forall x s, In x xs -> P s -> exists s', body x s = Ok s' /\ P s') ->
  exists s', for_each xs body s = Ok s' /\ P s'.
Proof.
  revert s; induction xs as [|x xs IH]; intros s H0 Hstep; simpl.
  - exists s; auto.
  - destruct (Hstep x s) as (s1 & Hb & H1); [now left | assumption |].
    rewrite Hb; simpl. apply IH; [assumption|].
    intros y t Hy. apply Hstep. now right.
Qed.

Arguments for_each_inv {A St} P body xs s _ _.

Lemma for_each_cons {A St : Type} (body : A -> St -> result St) (x : A)
  (xs : list A) (s : St) :
  for_each (x :: xs) body s = (s' <- body x s ;; for_each xs body s').
Proof. reflexivity. Qed.

Lemma for_each_app {A St : Type} (body : A -> St -> result St)
  (xs ys : list A) (s : St) :
  for_each (xs ++ ys) body s = (s' <- for_each xs body s ;; for_each ys body s').
Proof.
  revert s; induction xs as [|x xs IH]; intros s; simpl; [reflexivity|].
  destruct (body x s) as [s1|e]; simpl; [apply IH | reflexivity].
Qed.

Lemma range_0 (n : nat) : range 0 n = seq 0 n.
Proof. unfold range. now rewrite Nat.sub_0_r. Qed.

Lemma in_range (lo hi i : nat) : In i (range lo hi) <-> lo <= i < hi.
Proof. unfold range. rewrite in_seq. lia. Qed.

(** The first index from [lo], among [n], at which [q] holds. *)
Fixpoint first_index (q : nat -> bool) (lo n : nat) : option nat :=
  match n with
  | 0 => None
  | S n' => if q lo then Some lo else first_index q (S lo) n'
  end.

(** A search whose test returns is [first_index]. *)
Lemma find_first_seq (p : nat -> result bool) (q : nat -> bool) (n lo : nat) :
  (forall i, lo <= i < lo + n -> p i = Ok (q i)) ->
  find_first (seq lo n) p = Ok (first_index q lo n).
Proof.
  revert lo; induction n as [|n IH]; intros lo Hp; simpl; [reflexivity|].
  rewrite (Hp lo) by lia; simpl. destruct (q lo); [reflexivity|].
  apply IH. intros i Hi. apply Hp. lia.
Qed.

Lemma first_index_ext (q q' : nat -> bool) (n lo : nat) :
  (forall i, lo <= i < lo + n -> q i = q' i) ->
  first_index q lo n = first_index q' lo n.
Proof.
  revert lo; induction n as [|n IH]; intros lo Hq; simpl; [reflexivity|].
  rewrite <- (Hq lo) by lia. destruct (q lo); [reflexivity|].
  apply IH. intros i Hi. apply Hq. lia.
Qed.

Lemma first_index_some (q : nat -> bool) (n lo i : nat) :
  first_index q lo n = Some i ->
  lo <= i < lo + n /\ q i = true /\ forall j, lo <= j < i -> q j = false.
Proof.
  revert lo; induction n as [|n IH]; intros lo; simpl; [discriminate|].
  destruct (q lo) eqn:Hq.
  - intros [= <-]. split; [lia|]. split; [assumption|]. intros j Hj; lia.
  - intros Hf. destruct (IH _ Hf) as (Hi & Hqi & Hbefore).
    split; [lia|]. split; [assumption|]. intros j Hj.
    destruct (Nat.eq_dec j lo) as [->|Hne]; [assumption|]. apply Hbefore; lia.
Qed.

Lemma first_index_none (q : nat -> bool) (n lo : nat) :
  first_index q lo n = None -> forall j, lo <= j < lo + n -> q j = false.
Proof.
  revert lo; induction n as [|n IH]; intros lo; simpl; [intros _ j Hj; lia|].
  destruct (q lo) eqn:Hq; [discriminate|]. intros Hf j Hj.
  destruct (Nat.eq_dec j lo) as [->|Hne]; [assumption|]. apply (IH _ Hf); lia.
Qed.

Section ListFacts.
Context {A : Type}.

Lemma length_replace_nth (l : list A) (i : nat) (a : A) :
  length (replace_nth l i a) = length l.
Proof.
  revert i; induction l as [|h t IH]; intros [|i]; simpl; auto.
Qed.

Lemma nth_error_replace_nth_eq (l : list A) (i : nat) (a : A) :
  i < length l -> nth_error (replace_nth l i a) i = Some a.
Proof.
  revert i; induction l as [|h t IH]; intros [|i]; simpl; intros Hi;
    try lia; auto. apply IH; lia.
Qed.

Lemma nth_error_replace_nth_neq (l : list A) (i j : nat) (a : A) :
  i <> j -> nth_error (replace_nth l i a) j = nth_error l j.
Proof.
  revert i j; induction l as [|h t IH]; intros [|i] [|j]; simpl; intros Hij;
    try congruence; auto.
Qed.

Lemma nth_replace_nth_eq (l : list A) (i : nat) (a d : A) :
  i < length l -> nth i (replace_nth l i a) d = a.
Proof.
  intros Hi. apply nth_error_nth. now apply nth_error_replace_nth_eq.
Qed.

Lemma nth_replace_nth_neq (l : list A) (i j : nat) (a d : A) :
  i <> j -> nth j (replace_nth l i a) d = nth j l d.
Proof.
  revert i j; induction l as [|h t IH]; intros [|i] [|j]; simpl; intros Hij;
    try congruence; auto.
Qed.

Lemma list_get_ok (l : list A) (i : nat) (d : A) :
  i < length l -> list_get l i = Ok (nth i l d).
Proof.
  intros Hi. unfold list_get.
  destruct (nth_error l i) as [a|] eqn:Hn.
  - now rewrite (nth_error_nth _ _ d Hn).
  - apply nth_error_None in Hn. lia.
Qed.

Lemma list_get_inv (l : list A) (i : nat) (a : A) :
  list_get l i = Ok a -> i < length l /\ forall d, nth i l d = a.
Proof.
  unfold list_get. destruct (nth_error l i) as [b|] eqn:Hn; [|discriminate].
  intros [= <-]. split.
  - apply nth_error_Some. congruence.
  - intros d. now apply nth_error_nth.
Qed.

Lemma list_set_ok (l : list A) (i : nat) (a : A) :
  i < length l -> list_set l i a = Ok (replace_nth l i a).
Proof.
  intros Hi. unfold list_set.
  now destruct (Nat.ltb_spec i (length l)); [|lia].
Qed.

Lemma nth_pred_length (l : list A) (d : A) :
  nth (length l - 1) l d = last l d.
Proof.
  induction l as [|h t IH]; [reflexivity|].
  destruct t as [|h' t']; [reflexivity|].
  change (last (h :: h' :: t') d) with (last (h' :: t') d).
  rewrite <- IH. simpl. now rewrite Nat.sub_0_r.
Qed.

Lemma get_last_ok (l : list A) (d : A) :
  l <> [] -> get_last l = Ok (last l d).
Proof.
  intros Hl. unfold get_last. destruct l as [|h t]; [congruence|].
  rewrite (list_get_ok _ d) by (simpl; lia).
  now rewrite nth_pred_length.
Qed.

(** Lists with the same entries are the same list. *)
Lemma nth_ext_eq (l l' : list A) (d : A) :
  length l = length l' ->
  (forall i, i < length l -> nth i l d = nth i l' d) -> l = l'.
Proof.
  intros Hlen Hnth. apply (nth_ext l l' d d); assumption.
Qed.

End ListFacts.

(** Case analysis on the comparisons of indices that a goal mentions. *)
Ltac index_cases :=
  repeat match goal with
    | |- context [?a =? ?b] => destruct (Nat.eqb_spec a b)
    | |- context [?a <? ?b] => destruct (Nat.ltb_spec a b)
    | H : context [?a =? ?b] |- _ => destruct (Nat.eqb_spec a b)
    | H : context [?a <? ?b] |- _ => destruct (Nat.ltb_spec a b)
    end;
  subst; simpl in *; try lia; try congruence; auto.

(** * Reads and writes of a rectangular matrix *)

Section MatrixFacts.
Context {F : Type} `{Number F}.

Local Abbreviation ent := (entry (of_int 0)).

Lemma rect_row_length (m : matrix F) (rows cols r : nat) :
  rect m rows cols -> r < rows -> length (nth r m []) = cols.
Proof.
  intros [Hlen Hall] Hr. rewrite Forall_forall in Hall.
  apply Hall. apply nth_In. lia.
Qed.

Lemma mget_ok (m : matrix F) (rows cols r c : nat) :
  rect m rows cols -> r < rows -> c < cols -> mget m r c = Ok (ent m r c).
Proof.
  intros Hm Hr Hc. unfold mget, entry.
  rewrite (list_get_ok m []) by (destruct Hm; lia). simpl.
  apply list_get_ok. now rewrite (rect_row_length Hm Hr).
Qed.

Lemma rect_replace_row (m : matrix F) (rows cols r : nat) (row : list F) :
  rect m rows cols -> length row = cols -> rect (replace_nth m r row) rows cols.
Proof.
  intros [Hlen Hall] Hrow. split; [now rewrite length_replace_nth|].
  clear Hlen. revert r; induction Hall as [|h t Hh Ht IH]; intros [|r]; simpl;
    constructor; auto.
Qed.

Lemma mset_ok (m : matrix F) (rows cols r c : nat) (v : F) :
  rect m rows cols -> r < rows -> c < cols ->
  exists m', mset m r c v = Ok m' /\ rect m' rows cols /\
    forall r' c', ent m' r' c' =
      if (r' =? r) && (c' =? c) then v else ent m r' c'.
Proof.
  intros Hm Hr Hc. unfold mset.
  pose proof (rect_row_length Hm Hr) as Hrow.
  rewrite (list_get_ok m []) by (destruct Hm; lia). simpl.
  rewrite list_set_ok by lia. simpl.
  rewrite list_set_ok by (destruct Hm; lia).
  eexists; split; [reflexivity|]. split.
  - apply rect_replace_row; [assumption|]. now rewrite length_replace_nth.
  - intros r' c'. unfold entry. destruct (Nat.eqb_spec r' r) as [->|Hne]; simpl.
    + rewrite nth_replace_nth_eq by (destruct Hm; lia).
      destruct (Nat.eqb_spec c' c) as [->|Hc'].
      * apply nth_replace_nth_eq; lia.
      * apply nth_replace_nth_neq; congruence.
    + rewrite nth_replace_nth_neq by congruence. reflexivity.
Qed.

Lemma swap_rows_ok (m : matrix F) (rows cols i j : nat) :
  rect m rows cols -> i < rows -> j < rows ->
  exists m', swap_rows m i j = Ok m' /\ rect m' rows cols /\
    forall r c, ent m' r c =
      ent m (if r =? i then j else if r =? j then i else r) c.
Proof.
  intros Hm Hi Hj. unfold swap_rows.
  assert (Hlen : length m = rows) by (destruct Hm; assumption).
  rewrite (list_get_ok m []) by lia. simpl.
  rewrite (list_get_ok m []) by lia. simpl.
  rewrite list_set_ok by lia. simpl.
  rewrite list_set_ok by (rewrite length_replace_nth; lia).
  eexists; split; [reflexivity|]. split.
  - apply rect_replace_row; [apply rect_replace_row; [assumption|]|];
      now apply (rect_row_length Hm).
  - intros r c. unfold entry.
    destruct (Nat.eqb_spec r j) as [->|Hrj].
    + rewrite nth_replace_nth_eq by (rewrite length_replace_nth; lia).
      destruct (Nat.eqb_spec j i) as [->|Hji]; reflexivity.
    + rewrite nth_replace_nth_neq by congruence.
      destruct (Nat.eqb_spec r i) as [->|Hri].
      * now rewrite nth_replace_nth_eq by lia.
      * now rewrite nth_replace_nth_neq by congruence.
Qed.

(** Rectangular matrices with the same entries are the same matrix. *)
Lemma rect_ext (m m' : matrix F) (rows cols : nat) :
  rect m rows cols -> rect m' rows cols ->
  (forall r c, r < rows -> c < cols -> ent m r c = ent m' r c) -> m = m'.
Proof.
  intros Hm Hm' Hent. apply (nth_ext_eq m m' []).
  - destruct Hm, Hm'; congruence.
  - intros r Hr. assert (Hr' : r < rows) by (destruct Hm; lia).
    apply (nth_ext_eq _ _ (of_int 0)).
    + now rewrite (rect_row_length Hm Hr'), (rect_row_length Hm' Hr').
    + intros c Hc. rewrite (rect_row_length Hm Hr') in Hc. now apply Hent.
Qed.

Lemma len_first_ok (m : matrix F) (rows cols : nat) :
  rect m rows cols -> 0 < rows -> len_first m = Ok cols.
Proof.
  intros Hm Hr. unfold len_first.
  rewrite (list_get_ok m []) by (destruct Hm; lia). simpl.
  now rewrite (rect_row_length Hm Hr).
Qed.

(** ** The loops of [gauss_jordan] *)

Lemma subtract_row_ok (m : matrix F) (rows cols i j : nat) (f : F) :
  rect m rows cols -> i < rows -> j < rows -> i <> j ->
  exists m', subtract_row i j cols f m = Ok m' /\ rect m' rows cols /\
    forall r c, ent m' r c =
      if (r =? j) && (c <? cols)
      then fsub (ent m j c) (fmul f (ent m i c)) else ent m r c.
Proof.
  intros Hm Hi Hj Hij. unfold subtract_row. rewrite range_0.
  destruct (for_each_seq_inv
    (fun k mk => rect mk rows cols /\
       forall r c, ent mk r c =
         if (r =? j) && (c <? k)
         then fsub (ent m j c) (fmul f (ent m i c)) else ent m r c)
    (fun k mk =>
       a <- mget mk j k ;; b <- mget mk i k ;;
       mset mk j k (fsub a (fmul f b))) cols 0 m)
    as (m' & Hrun & Hrect & Hent).
  - split; [assumption|]. intros r c. index_cases.
  - intros k mk Hk [Hmk Hek].
    rewrite (mget_ok Hmk) by lia. simpl.
    rewrite (mget_ok Hmk) by lia. simpl.
    destruct (mset_ok (c:=k) (fsub (ent mk j k) (fmul f (ent mk i k))) Hmk Hj)
      as (m1 & Hset & Hm1 & He1); [lia|].
    exists m1. split; [assumption|]. split; [assumption|].
    intros r c. rewrite He1, !Hek. index_cases.
  - exists m'. auto.
Qed.

Lemma scale_row_ok (m : matrix F) (rows cols i : nat) :
  rect m rows cols -> i < rows -> i < cols -> is_zero (ent m i i) = false ->
  exists m', scale_row m i cols = Ok m' /\ rect m' rows cols /\
    forall r c, ent m' r c =
      if (r =? i) && (c <? cols)
      then fquot (ent m i c) (ent m i i) else ent m r c.
Proof.
  intros Hm Hi Hic Hnz. unfold scale_row.
  rewrite (mget_ok Hm) by lia. simpl. rewrite range_0.
  destruct (for_each_seq_inv
    (fun k mk => rect mk rows cols /\
       forall r c, ent mk r c =
         if (r =? i) && (c <? k)
         then fquot (ent m i c) (ent m i i) else ent m r c)
    (fun k mk =>
       a <- mget mk i k ;; q <- py_div a (ent m i i) ;; mset mk i k q)
    cols 0 m)
    as (m' & Hrun & Hrect & Hent).
  - split; [assumption|]. intros r c. index_cases.
  - intros k mk Hk [Hmk Hek].
    rewrite (mget_ok Hmk) by lia. simpl.
    unfold py_div. rewrite Hnz. simpl.
    destruct (mset_ok (c:=k) (fquot (ent mk i k) (ent m i i)) Hmk Hi)
      as (m1 & Hset & Hm1 & He1); [lia|].
    exists m1. split; [assumption|]. split; [assumption|].
    intros r c. rewrite He1, !Hek. index_cases.
  - exists m'. auto.
Qed.

Lemma eliminate_ok (m : matrix F) (rows cols i : nat) :
  rect m rows cols -> i < rows -> i < cols ->
  exists m', eliminate m i rows cols = Ok m' /\ rect m' rows cols /\
    forall r c, ent m' r c =
      if (r <? rows) && negb (r =? i) && fltb tol (fabs (ent m r i))
         && (c <? cols)
      then fsub (ent m r c) (fmul (ent m r i) (ent m i c)) else ent m r c.
Proof.
  intros Hm Hi Hic. unfold eliminate. rewrite range_0.
  destruct (for_each_seq_inv
    (fun k mk => rect mk rows cols /\
       forall r c, ent mk r c =
         if (r <? k) && negb (r =? i) && fltb tol (fabs (ent m r i))
            && (c <? cols)
         then fsub (ent m r c) (fmul (ent m r i) (ent m i c)) else ent m r c)
    (fun j mk =>
       if j =? i then Ok mk
       else a <- mget mk j i ;;
            if fltb tol (fabs a) then subtract_row i j cols a mk else Ok mk)
    rows 0 m)
    as (m' & Hrun & Hrect & Hent).
  - split; [assumption|]. intros r c. index_cases.
  - intros j mk Hj [Hmk Hek].
    destruct (Nat.eqb_spec j i) as [->|Hji].
    + exists mk. split; [reflexivity|]. split; [assumption|].
      intros r c. rewrite Hek. index_cases.
    + rewrite (mget_ok Hmk) by lia. simpl.
      assert (Hji' : ent mk j i = ent m j i).
      { rewrite Hek. index_cases. }
      rewrite Hji'. destruct (fltb tol (fabs (ent m j i))) eqn:Hab.
      * destruct (@subtract_row_ok mk rows cols i j (ent m j i) Hmk)
          as (m1 & Hsub & Hm1 & He1); try lia.
        exists m1. split; [assumption|]. split; [assumption|].
        intros r c. rewrite He1, !Hek.
        destruct (Nat.eqb_spec r j) as [->|Hrj]; simpl.
        -- rewrite Hab. index_cases.
        -- index_cases.
      * exists mk. split; [reflexivity|]. split; [assumption|].
        intros r c. rewrite Hek.
        destruct (Nat.eqb_spec r j) as [->|Hrj]; simpl.
        -- rewrite Hab. index_cases.
        -- index_cases.
  - exists m'. auto.
Qed.

Lemma find_pivot_ok (m : matrix F) (rows cols i : nat) :
  rect m rows cols -> i < rows -> i < cols ->
  exists p, find_pivot m i rows = Ok p /\ i <= p < rows.
Proof.
  intros Hm Hi Hic. unfold find_pivot, range.
  destruct (for_each_seq_inv (fun _ p => i <= p < rows)
    (fun j pivot_row =>
       a <- mget m j i ;; b <- mget m pivot_row i ;;
       Ok (if fltb (fabs b) (fabs a) then j else pivot_row))
    (rows - (i + 1)) (i + 1) i) as (p & Hrun & Hp).
  - lia.
  - intros j q Hj Hq.
    rewrite (mget_ok Hm) by lia. simpl.
    rewrite (mget_ok Hm) by lia. simpl.
    eexists; split; [reflexivity|].
    destruct (fltb _ _); lia.
  - exists p. auto.
Qed.

(** The search keeps row [i] when no row below has a larger magnitude. *)
Lemma find_pivot_stays (m : matrix F) (rows cols i : nat) :
  rect m rows cols -> i < rows -> i < cols ->
  (forall j, i < j < rows ->
     fltb (fabs (ent m i i)) (fabs (ent m j i)) = false) ->
  find_pivot m i rows = Ok i.
Proof.
  intros Hm Hi Hic Hmax. unfold find_pivot, range.
  destruct (for_each_seq_inv (fun _ p => p = i)
    (fun j pivot_row =>
       a <- mget m j i ;; b <- mget m pivot_row i ;;
       Ok (if fltb (fabs b) (fabs a) then j else pivot_row))
    (rows - (i + 1)) (i + 1) i) as (p & Hrun & Hp).
  - reflexivity.
  - intros j q Hj ->.
    rewrite (mget_ok Hm) by lia. simpl.
    rewrite (mget_ok Hm) by lia. simpl.
    rewrite Hmax by lia. eexists; split; reflexivity.
  - now subst p.
Qed.

(** What one turn of the loop of [gauss_jordan] does: the pivot row [p] is
    exchanged with row [i]; below the tolerance nothing more happens,
    otherwise row [i] is divided by the pivot and subtracted from the
    other rows whose entry in column [i] exceeds the tolerance. *)
Definition step_relation (rows cols i : nat) (m m' : matrix F) : Prop :=
  exists p m1,
    i <= p < rows /\ rect m1 rows cols /\
    (forall r c, ent m1 r c =
       ent m (if r =? i then p else if r =? p then i else r) c) /\
    ((fltb (fabs (ent m1 i i)) tol = true /\ m' = m1) \/
     (fltb (fabs (ent m1 i i)) tol = false /\
      exists m2, rect m2 rows cols /\
        (forall r c, ent m2 r c =
           if (r =? i) && (c <? cols)
           then fquot (ent m1 i c) (ent m1 i i) else ent m1 r c) /\
        (forall r c, ent m' r c =
           if (r <? rows) && negb (r =? i) && fltb tol (fabs (ent m2 r i))
              && (c <? cols)
           then fsub (ent m2 r c) (fmul (ent m2 r i) (ent m2 i c))
           else ent m2 r c))).

Lemma gauss_jordan_step_ok (m : matrix F) (rows cols i : nat) :
  rect m rows cols -> i < rows -> i < cols ->
  exists m', gauss_jordan_step rows cols i m = Ok m' /\
    rect m' rows cols /\ step_relation rows cols i m m'.
Proof.
  intros Hm Hi Hic. unfold gauss_jordan_step.
  destruct (find_pivot_ok Hm Hi Hic) as (p & Hp & Hpr). rewrite Hp. simpl.
  assert (Hswap : exists m1,
    (if p =? i then Ok m else swap_rows m i p) = Ok m1 /\
    rect m1 rows cols /\
    forall r c, ent m1 r c =
      ent m (if r =? i then p else if r =? p then i else r) c).
  { destruct (Nat.eqb_spec p i) as [->|Hpi].
    - exists m. split; [reflexivity|]. split; [assumption|].
      intros r c. index_cases.
    - apply (swap_rows_ok Hm); lia. }
  destruct Hswap as (m1 & Hsw & Hm1 & He1). rewrite Hsw. simpl.
  rewrite (mget_ok Hm1) by lia. simpl.
  destruct (fltb (fabs (ent m1 i i)) tol) eqn:Hlt.
  - exists m1. split; [reflexivity|]. split; [assumption|].
    exists p, m1. repeat (split; [first [assumption | lia]|]).
    left. auto.
  - pose proof (not_below_tol_nonzero _ Hlt) as Hnz.
    destruct (scale_row_ok Hm1 Hi Hic Hnz) as (m2 & Hsc & Hm2 & He2).
    rewrite Hsc. simpl.
    destruct (eliminate_ok Hm2 Hi Hic) as (m3 & Hel & Hm3 & He3).
    exists m3. split; [assumption|]. split; [assumption|].
    exists p, m1. repeat (split; [first [assumption | lia]|]).
    right. split; [assumption|]. exists m2. auto.
Qed.

(** [gauss_jordan] returns on every rectangular matrix with a row, and
    the result has the shape of the argument. *)
Lemma gauss_jordan_ok (m : matrix F) (rows cols : nat) :
  rect m rows cols -> 0 < rows ->
  exists m', gauss_jordan m = Ok m' /\ rect m' rows cols.
Proof.
  intros Hm Hr. unfold gauss_jordan.
  rewrite (len_first_ok Hm Hr). simpl.
  replace (length m) with rows by (destruct Hm; congruence).
  rewrite range_0.
  destruct (for_each_seq_inv (fun _ mk => rect mk rows cols)
    (gauss_jordan_step rows cols) (Nat.min rows (cols - 1)) 0 m)
    as (m' & Hrun & Hm'); [assumption| |eauto].
  intros i mk Hi Hmk.
  destruct (@gauss_jordan_step_ok mk rows cols i Hmk) as (m1 & H1 & H2 & _);
    [lia|lia|eauto].
Qed.

(** ** The loops of [check_rank] *)

Lemma rank_pivot_ok (t : matrix F) (rows cols rank col : nat) :
  rect t rows cols -> col < cols ->
  rank_pivot t rank rows col =
    Ok (first_index (fun r => fltb tol (fabs (ent t r col))) rank (rows - rank)).
Proof.
  intros Ht Hc. unfold rank_pivot, range. apply find_first_seq.
  intros i Hi. now rewrite (mget_ok Ht) by lia.
Qed.

Lemma rank_eliminate_ok (t : matrix F) (rows cols rank col : nat) :
  rect t rows cols -> rank < rows -> col < cols ->
  fltb tol (fabs (ent t rank col)) = true ->
  exists t', rank_eliminate t rank rows cols col = Ok t' /\ rect t' rows cols /\
    forall r c, ent t' r c =
      if (r <? rows) && negb (r =? rank) && fltb tol (fabs (ent t r col))
         && (c <? cols)
      then fsub (ent t r c)
             (fmul (fquot (ent t r col) (ent t rank col)) (ent t rank c))
      else ent t r c.
Proof.
  intros Ht Hr Hc Hpiv. unfold rank_eliminate. rewrite range_0.
  pose proof (above_tol_nonzero _ Hpiv) as Hnz.
  destruct (for_each_seq_inv
    (fun k tk => rect tk rows cols /\
       forall r c, ent tk r c =
         if (r <? k) && negb (r =? rank) && fltb tol (fabs (ent t r col))
            && (c <? cols)
         then fsub (ent t r c)
                (fmul (fquot (ent t r col) (ent t rank col)) (ent t rank c))
         else ent t r c)
    (fun row tk =>
       if row =? rank then Ok tk
       else a <- mget tk row col ;;
            if fltb tol (fabs a) then
              p <- mget tk rank col ;;
              factor <- py_div a p ;;
              subtract_row rank row cols factor tk
            else Ok tk)
    rows 0 t)
    as (t' & Hrun & Hrect & Hent).
  - split; [assumption|]. intros r c. index_cases.
  - intros j tk Hj [Htk Hek].
    destruct (Nat.eqb_spec j rank) as [->|Hjr].
    + exists tk. split; [reflexivity|]. split; [assumption|].
      intros r c. rewrite Hek. index_cases.
    + rewrite (mget_ok Htk) by lia. simpl.
      assert (Hjc : ent tk j col = ent t j col).
      { rewrite Hek. index_cases. }
      assert (Hrc : forall c, ent tk rank c = ent t rank c).
      { intros c. rewrite Hek. index_cases. }
      rewrite Hjc. destruct (fltb tol (fabs (ent t j col))) eqn:Hab.
      * rewrite (mget_ok Htk) by lia. simpl. rewrite Hrc.
        unfold py_div. rewrite Hnz. simpl.
        destruct (@subtract_row_ok tk rows cols rank j
                    (fquot (ent t j col) (ent t rank col)) Htk)
          as (t1 & Hsub & Ht1 & He1); try lia.
        exists t1. split; [assumption|]. split; [assumption|].
        intros r c. rewrite He1, Hrc, !Hek.
        destruct (Nat.eqb_spec r j) as [->|Hrj]; simpl.
        -- rewrite Hab. index_cases.
        -- index_cases.
      * exists tk. split; [reflexivity|]. split; [assumption|].
        intros r c. rewrite Hek.
        destruct (Nat.eqb_spec r j) as [->|Hrj]; simpl.
        -- rewrite Hab. index_cases.
        -- index_cases.
  - exists t'. auto.
Qed.

(** ** [check_rank] on the entries

    What a turn of the loop of [check_rank] does to the entries, as a
    function of the entries: the rank computed depends on nothing else. *)

(** Row [r] after rows [i] and [p] have been exchanged. *)
Definition swap_index (i p r : nat) : nat :=
  if r =? i then p else if r =? p then i else r.

Definition rank_step_entries (rows cols col : nat)
  (st : (nat -> nat -> F) * nat) : (nat -> nat -> F) * nat :=
  let (e, rank) := st in
  match first_index (fun r => fltb tol (fabs (e r col))) rank (rows - rank) with
  | None => (e, rank)
  | Some p =>
      let e1 := fun r c => e (swap_index rank p r) c in
      (fun r c =>
         if (r <? rows) && negb (r =? rank) && fltb tol (fabs (e1 r col))
            && (c <? cols)
         then fsub (e1 r c) (fmul (fquot (e1 r col) (e1 rank col)) (e1 rank c))
         else e1 r c,
       rank + 1)
  end.

Definition rank_columns (rows cols : nat) (cs : list nat)
  (st : (nat -> nat -> F) * nat) : (nat -> nat -> F) * nat :=
  fold_left (fun st col => rank_step_entries rows cols col st) cs st.

Lemma rank_columns_cons (rows cols col : nat) (cs : list nat)
  (st : (nat -> nat -> F) * nat) :
  rank_columns rows cols (col :: cs) st =
    rank_columns rows cols cs (rank_step_entries rows cols col st).
Proof. reflexivity. Qed.

(** Two families of entries agree on the columns below [k]. *)
Definition agree (k : nat) (e e' : nat -> nat -> F) : Prop :=
  forall r c, c < k -> e r c = e' r c.

Lemma rank_step_agree (rows cols cols' col k rank : nat)
  (e e' : nat -> nat -> F) :
  agree k e e' -> col < k -> k <= cols -> k <= cols' ->
  snd (rank_step_entries rows cols col (e, rank)) =
    snd (rank_step_entries rows cols' col (e', rank)) /\
  agree k (fst (rank_step_entries rows cols col (e, rank)))
          (fst (rank_step_entries rows cols' col (e', rank))).
Proof.
  intros Hag Hcol Hk Hk'. unfold rank_step_entries.
  rewrite (first_index_ext (fun r => fltb tol (fabs (e r col)))
             (fun r => fltb tol (fabs (e' r col))))
    by (intros i _; now rewrite (Hag i col Hcol)).
  destruct (first_index _ rank (rows - rank)) as [p|]; simpl.
  - split; [reflexivity|]. intros r c Hc.
    rewrite !(Hag _ col Hcol), !(Hag _ c Hc).
    destruct (Nat.ltb_spec c cols); [|lia].
    destruct (Nat.ltb_spec c cols'); [|lia]. reflexivity.
  - split; [reflexivity | assumption].
Qed.

Lemma rank_columns_agree (rows cols cols' k : nat) (cs : list nat) :
  (forall c, In c cs -> c < k) -> k <= cols -> k <= cols' ->
  forall (e e' : nat -> nat -> F) (rank : nat),
  agree k e e' ->
  snd (rank_columns rows cols cs (e, rank)) =
    snd (rank_columns rows cols' cs (e', rank)) /\
  agree k (fst (rank_columns rows cols cs (e, rank)))
          (fst (rank_columns rows cols' cs (e', rank))).
Proof.
  intros Hcs Hk Hk'. induction cs as [|col cs IH]; intros e e' rank Hag.
  - simpl. auto.
  - rewrite !rank_columns_cons.
    destruct (@rank_step_agree rows cols cols' col k rank e e' Hag)
      as [Hsnd Hfst]; [apply Hcs; now left | assumption | assumption |].
    destruct (rank_step_entries rows cols col (e, rank)) as [e1 r1].
    destruct (rank_step_entries rows cols' col (e', rank)) as [e1' r1'].
    simpl in Hsnd, Hfst. subst r1'. apply IH; [|assumption].
    intros c Hc. apply Hcs. now right.
Qed.

(** A turn raises the rank by at most one, and never past the rows. *)
Lemma rank_step_bound (rows cols col rank : nat) (e : nat -> nat -> F) :
  rank <= rows ->
  let rank' := snd (rank_step_entries rows cols col (e, rank)) in
  rank <= rank' /\ rank' <= rank + 1 /\ rank' <= rows.
Proof.
  intros Hr. unfold rank_step_entries.
  destruct (first_index _ rank (rows - rank)) as [p|] eqn:Hf; simpl.
  - apply first_index_some in Hf. lia.
  - lia.
Qed.

Lemma rank_columns_bound (rows cols : nat) (cs : list nat) :
  forall (e : nat -> nat -> F) (rank : nat),
  rank <= rows ->
  let rank' := snd (rank_columns rows cols cs (e, rank)) in
  rank <= rank' /\ rank' <= rank + length cs /\ rank' <= rows.
Proof.
  induction cs as [|col cs IH]; intros e rank Hr; cbv zeta.
  - simpl. lia.
  - rewrite rank_columns_cons.
    pose proof (@rank_step_bound rows cols col rank e Hr) as Hb.
    cbv zeta in Hb.
    destruct (rank_step_entries rows cols col (e, rank)) as [e1 r1].
    simpl snd in Hb. specialize (IH e1 r1). cbv zeta in IH.
    simpl length. lia.
Qed.

Lemma check_rank_step_ok (t : matrix F) (rows cols rank col : nat) :
  rect t rows cols -> rank <= rows -> col < cols ->
  exists t',
    check_rank_step rows cols col (t, rank) =
      Ok (t', snd (rank_step_entries rows cols col (ent t, rank))) /\
    rect t' rows cols /\
    agree cols (ent t') (fst (rank_step_entries rows cols col (ent t, rank))).
Proof.
  intros Ht Hr Hc. unfold check_rank_step, rank_step_entries.
  rewrite (rank_pivot_ok _ Ht Hc). simpl.
  destruct (first_index _ rank (rows - rank)) as [p|] eqn:Hf; simpl.
  - apply first_index_some in Hf. destruct Hf as (Hp & Hq & _).
    assert (Hswap : exists t1,
      (if p =? rank then Ok t else swap_rows t rank p) = Ok t1 /\
      rect t1 rows cols /\
      forall r c, ent t1 r c = ent t (swap_index rank p r) c).
    { destruct (Nat.eqb_spec p rank) as [->|Hpr].
      - exists t. split; [reflexivity|]. split; [assumption|].
        intros r c. unfold swap_index. index_cases.
      - apply (swap_rows_ok Ht); lia. }
    destruct Hswap as (t1 & Hsw & Ht1 & He1). rewrite Hsw. simpl.
    destruct (@rank_eliminate_ok t1 rows cols rank col Ht1)
      as (t2 & Hel & Ht2 & He2); [lia | assumption | |].
    { rewrite He1. unfold swap_index. rewrite Nat.eqb_refl. assumption. }
    rewrite Hel. simpl. exists t2. split; [reflexivity|].
    split; [assumption|]. intros r c Hcc. rewrite He2, !He1. reflexivity.
  - exists t. split; [reflexivity|]. split; [assumption|]. intros r c _.
    reflexivity.
Qed.

Lemma rank_loop_columns (rows cols : nat) (cs : list nat) :
  (forall c, In c cs -> c < cols) ->
  forall (t : matrix F) (rank : nat),
  rect t rows cols -> rank <= rows ->
  exists t',
    for_each cs (check_rank_step rows cols) (t, rank) =
      Ok (t', snd (rank_columns rows cols cs (ent t, rank))) /\
    rect t' rows cols.
Proof.
  intros Hcs. induction cs as [|col cs IH]; intros t rank Ht Hr.
  - exists t. split; [reflexivity | assumption].
  - destruct (@check_rank_step_ok t rows cols rank col Ht Hr)
      as (t1 & Hstep & Ht1 & Hag); [apply Hcs; now left|].
    rewrite for_each_cons, Hstep, bind_Ok.
    pose proof (@rank_step_bound rows cols col rank (ent t) Hr) as Hb.
    cbv zeta in Hb.
    destruct (IH (fun c Hc => Hcs c (or_intror Hc)) t1 _ Ht1 (proj2 (proj2 Hb)))
      as (t' & Hrun & Ht').
    exists t'. split; [|assumption]. rewrite Hrun. do 2 f_equal.
    rewrite rank_columns_cons.
    destruct (rank_step_entries rows cols col (ent t, rank)) as [e1 r1].
    simpl in *.
    apply (@rank_columns_agree rows cols cols cols cs
             (fun c Hc => Hcs c (or_intror Hc)) (le_n _) (le_n _)).
    assumption.
Qed.

(** [check_rank] returns on every rectangular matrix, and what it returns
    is the rank of the entries. *)
Lemma check_rank_ok (m : matrix F) (rows cols : nat) :
  rect m rows cols ->
  check_rank m =
    Ok (if (0 <? rows) && (0 <? cols)
        then snd (rank_columns rows cols (seq 0 cols) (ent m, 0)) else 0).
Proof.
  intros Hm. destruct m as [|r0 m']; [destruct Hm as [<- _]; reflexivity|].
  assert (Hrows : 0 < rows) by (destruct Hm as [<- _]; simpl; lia).
  destruct (Nat.ltb_spec 0 rows); [|lia]. simpl andb.
  destruct r0 as [|x r0'].
  - assert (cols = 0) as ->.
    { destruct Hm as [_ Hall]. inversion Hall; subst. reflexivity. }
    reflexivity.
  - assert (Hcols : 0 < cols).
    { destruct Hm as [_ Hall]. inversion Hall; subst. simpl. lia. }
    destruct (Nat.ltb_spec 0 cols); [|lia].
    unfold check_rank. rewrite map_id. unfold rank_loop.
    rewrite (len_first_ok Hm Hrows), bind_Ok.
    replace (length ((x :: r0') :: m')) with rows by (destruct Hm; congruence).
    rewrite range_0.
    destruct (@rank_loop_columns rows cols (seq 0 cols)
                (fun c Hc => proj2 (proj1 (in_seq _ _ _) Hc))
                _ 0 Hm (Nat.le_0_l _)) as (t' & Hrun & _).
    rewrite Hrun. reflexivity.
Qed.

End MatrixFacts.

(** * The rank and the augmented matrix *)

Section RankBounds.
Context {F : Type} `{Number F}.

Local Abbreviation ent := (entry (of_int 0)).

Lemma augment_rect (A : matrix F) (B : list F) (rows cols : nat) :
  rect A rows cols -> length B = rows -> rect (augment A B) rows (cols + 1).
Proof.
  intros [Hlen Hall] HB. unfold augment. split.
  - rewrite length_map, length_combine. lia.
  - apply Forall_forall. intros row Hrow. apply in_map_iff in Hrow.
    destruct Hrow as ([r b] & <- & Hin). simpl. rewrite length_app. simpl.
    apply in_combine_l in Hin. rewrite Forall_forall in Hall.
    now rewrite (Hall _ Hin).
Qed.

Lemma augment_entry (A : matrix F) (B : list F) (cols : nat) :
  Forall (fun r => length r = cols) A -> length B = length A ->
  agree cols (ent A) (ent (augment A B)).
Proof.
  intros Hall. revert B. induction Hall as [|row A Hrow HA IH];
    intros B HB r c Hc.
  - destruct B; [|discriminate]. reflexivity.
  - destruct B as [|b B]; [discriminate|]. destruct r as [|r].
    + unfold entry, augment. simpl. now rewrite app_nth1 by lia.
    + apply (IH B); [simpl in HB; lia | assumption].
Qed.

Lemma rank_columns_app (rows cols : nat) (cs cs' : list nat)
  (st : (nat -> nat -> F) * nat) :
  rank_columns rows cols (cs ++ cs') st =
    rank_columns rows cols cs' (rank_columns rows cols cs st).
Proof. unfold rank_columns. apply fold_left_app. Qed.

(** C6. The rank that [check_rank] computes is at most the number of rows
    and at most the number of columns, and appending the constants [B] as a
    last column never lowers it: [check_rank A <= check_rank [A|B]]. *)
Theorem check_rank_bounds (A : matrix F) (B : list F) (rows cols : nat) :
  rect A rows cols -> length B = rows ->
  exists rA rAB,
    check_rank A = Ok rA /\
    check_rank (augment A B) = Ok rAB /\
    rA <= Nat.min rows cols /\
    rA <= rAB /\
    rAB <= Nat.min rows (cols + 1).
Proof.
  intros HA HB.
  pose proof (@augment_rect A B rows cols HA HB) as HAB.
  rewrite (check_rank_ok HA), (check_rank_ok HAB).
  do 2 eexists. split; [reflexivity|]. split; [reflexivity|].
  destruct (Nat.ltb_spec 0 rows) as [Hrows|Hrows]; cbn [andb]; [|lia].
  destruct (Nat.ltb_spec 0 (cols + 1)) as [_|]; [|lia].
  pose proof (@rank_columns_bound _ _ rows (cols + 1) (seq 0 (cols + 1))
                (ent (augment A B)) 0 (Nat.le_0_l _)) as HbAB.
  cbv zeta in HbAB. rewrite length_seq in HbAB.
  destruct (Nat.ltb_spec 0 cols) as [Hcols|Hcols]; [|lia].
  pose proof (@rank_columns_bound _ _ rows cols (seq 0 cols) (ent A) 0
                (Nat.le_0_l _)) as HbA.
  cbv zeta in HbA. rewrite length_seq in HbA.
  split; [lia|]. split; [|lia].
  replace (cols + 1) with (S cols) at 2 by lia.
  rewrite seq_S, rank_columns_app, Nat.add_0_l.
  destruct (@rank_columns_agree _ _ rows cols (cols + 1) cols (seq 0 cols)
              (fun c Hc => proj2 (proj1 (in_seq _ _ _) Hc)) (le_n _)
              ltac:(lia) (ent A) (ent (augment A B)) 0) as [Hsnd _].
  { apply augment_entry; [destruct HA; assumption | destruct HA; lia]. }
  rewrite Hsnd.
  destruct (rank_columns rows (cols + 1) (seq 0 cols) (ent (augment A B), 0))
    as [e1 r1] eqn:Hrun.
  assert (Hr1 : r1 <= rows).
  { pose proof (@rank_columns_bound _ _ rows (cols + 1) (seq 0 cols)
                  (ent (augment A B)) 0 (Nat.le_0_l _)) as Hb.
    cbv zeta in Hb. rewrite Hrun in Hb. cbn [snd] in Hb. lia. }
  cbn [snd]. rewrite rank_columns_cons.
  pose proof (@rank_step_bound _ _ rows (cols + 1) cols r1 e1 Hr1) as Hb.
  cbv zeta in Hb. unfold rank_columns. cbn [fold_left]. lia.
Qed.

End RankBounds.

(** C6 on the system [2x + 4y = 6], [x + 2y = 3]. *)
Lemma check_rank_bounds_witness :
  exists rA rAB,
    check_rank [[2; 4]; [1; 2]]%float = Ok rA /\
    check_rank (augment [[2; 4]; [1; 2]] [6; 3])%float = Ok rAB /\
    rA <= Nat.min 2 2 /\ rA <= rAB /\ rAB <= Nat.min 2 (2 + 1).
Proof.
  apply (@check_rank_bounds float Binary64.float_number
           [[2; 4]; [1; 2]]%float [6; 3]%float 2 2).
  - split; [reflexivity|]. repeat constructor.
  - reflexivity.
Defined.

(** * The solver returns *)

(** Which of the three branches of lines 196-206 an outcome comes from. *)
Inductive outcome_kind : Type :=
| KNoSolution
| KUniqueSolution
| KInfiniteSolutions.

Definition kind_of {F : Type} (o : outcome F) : outcome_kind :=
  match o with
  | NoSolution => KNoSolution
  | UniqueSolution _ => KUniqueSolution
  | InfiniteSolutions _ _ _ => KInfiniteSolutions
  end.

(** Every variable of every term has a column in [var_order]. *)
Definition covers {F : Type} (var_order : list string)
  (parsed_equations : list (equation F)) : Prop :=
  forall e t, In e parsed_equations -> In t (fst e) ->
    In (variable t) var_order.

Lemma index_ok (l : list string) (x : string) :
  In x l -> exists n, index l x = Ok n /\ n < length l.
Proof.
  induction l as [|y l IH]; intros Hin; [contradiction|]. simpl.
  destruct (String.eqb_spec y x) as [->|Hne].
  - exists 0; split; [reflexivity | lia].
  - destruct Hin as [->|Hin]; [congruence|].
    destruct (IH Hin) as (n & Hn & Hlt). rewrite Hn. simpl.
    exists (S n); split; [reflexivity | lia].
Qed.

Section SolverFacts.
Context {F : Type} `{Number F}.

Local Abbreviation ent := (entry (of_int 0)).

Lemma build_row_ok (var_order : list string) (terms : list (Term F)) :
  (forall t, In t terms -> In (variable t) var_order) ->
  exists row, build_row var_order terms = Ok row /\
    length row = length var_order.
Proof.
  intros Hcov. unfold build_row.
  apply (for_each_inv (fun row => length row = length var_order)).
  - apply repeat_length.
  - intros t row Ht Hrow.
    destruct (index_ok _ _ (Hcov t Ht)) as (n & Hn & Hlt).
    rewrite Hn, bind_Ok.
    rewrite (list_get_ok row (of_int 0)) by lia. rewrite bind_Ok.
    rewrite list_set_ok by lia.
    eexists; split; [reflexivity|]. now rewrite length_replace_nth.
Qed.

Lemma build_matrix_acc (var_order : list string)
  (eqs : list (equation F)) :
  (forall e t, In e eqs -> In t (fst e) -> In (variable t) var_order) ->
  forall (A0 : matrix F) (B0 : list F),
  exists A,
    for_each eqs
      (fun e ab =>
         row <- build_row var_order (fst e) ;;
         Ok (fst ab ++ [row], snd ab ++ [snd e]))
      (A0, B0) = Ok (A0 ++ A, B0 ++ map snd eqs) /\
    rect A (length eqs) (length var_order) /\
    Forall2 (fun e row => build_row var_order (fst e) = Ok row) eqs A.
Proof.
  induction eqs as [|e eqs IH]; intros Hcov A0 B0.
  - exists []. simpl. rewrite !app_nil_r. split; [reflexivity|].
    split; [split; [reflexivity | constructor] | constructor].
  - destruct (@build_row_ok var_order (fst e)) as (row & Hrow & Hlen).
    { intros t Ht. apply (Hcov e t); [now left | assumption]. }
    rewrite for_each_cons, Hrow, !bind_Ok. cbn [fst snd].
    destruct (IH (fun e' t He' => Hcov e' t (or_intror He'))
                (A0 ++ [row]) (B0 ++ [snd e]))
      as (A & HA & [HlenA HallA] & Hrows).
    exists (row :: A). split.
    + etransitivity; [exact HA|]. now rewrite <- !app_assoc.
    + split; [|constructor; assumption].
      split; [simpl; lia | constructor; assumption].
Qed.

Lemma build_matrix_ok (var_order : list string) (eqs : list (equation F)) :
  covers var_order eqs ->
  exists A, build_matrix var_order eqs = Ok (A, map snd eqs) /\
    rect A (length eqs) (length var_order) /\
    Forall2 (fun e row => build_row var_order (fst e) = Ok row) eqs A.
Proof.
  intros Hcov. destruct (@build_matrix_acc var_order eqs Hcov [] [])
    as (A & HA & Hrect & Hrows).
  exists A. split; [exact HA|]. split; assumption.
Qed.

Lemma removelast_rect (m : matrix F) (rows cols : nat) :
  rect m rows (cols + 1) -> rect (map (@removelast F) m) rows cols.
Proof.
  intros [Hlen Hall]. split; [now rewrite length_map|].
  apply Forall_forall. intros row Hrow. apply in_map_iff in Hrow.
  destruct Hrow as (r & <- & Hin). rewrite Forall_forall in Hall.
  specialize (Hall _ Hin). destruct r as [|x r] using rev_ind.
  - simpl in Hall. lia.
  - rewrite removelast_last. rewrite length_app in Hall. simpl in Hall. lia.
Qed.

Lemma last_column_ok (m : matrix F) (rows cols : nat) :
  rect m rows (cols + 1) ->
  forall ret0,
  for_each m (fun row ret => x <- get_last row ;; Ok (ret ++ [x])) ret0 =
    Ok (ret0 ++ map (fun row => last row (of_int 0)) m).
Proof.
  intros [_ Hall]. induction Hall as [|row m Hrow Hm IH]; intros ret0.
  - simpl. now rewrite app_nil_r.
  - rewrite for_each_cons.
    rewrite (get_last_ok (of_int 0)) by (intros ->; simpl in Hrow; lia).
    rewrite bind_Ok. etransitivity; [apply IH|].
    simpl. now rewrite <- app_assoc.
Qed.

(** ** The generator returns *)

Lemma first_nonzero_col_ok (augmented : matrix F) (rows n row : nat) :
  rect augmented rows (n + 1) -> row < rows ->
  first_nonzero_col augmented n row =
    Ok (first_index (fun c => fltb tol (fabs (ent augmented row c))) 0 n).
Proof.
  intros Ha Hr. unfold first_nonzero_col. rewrite range_0.
  apply find_first_seq. intros c Hc. now rewrite (mget_ok Ha) by lia.
Qed.

Lemma find_pivot_cols_ok (augmented : matrix F) (var_order : list string)
  (rows : nat) :
  rect augmented rows (length var_order + 1) ->
  exists st, find_pivot_cols augmented var_order = Ok st.
Proof.
  intros Ha. unfold find_pivot_cols.
  destruct (for_each_inv (fun _ : list nat * list string => True)
    (fun row st =>
       found <- first_nonzero_col augmented (length var_order) row ;;
       match found with
       | Some col =>
           if mem_index col (fst st) then Ok st
           else v <- list_get var_order col ;;
                Ok (fst st ++ [col], snd st ++ [v])
       | None => Ok st
       end)
    (range 0 (length augmented)) ([], [])) as (st & Hst & _); [exact I| |eauto].
  intros row st Hrow _. apply in_range in Hrow.
  rewrite (@first_nonzero_col_ok augmented rows (length var_order) row Ha)
    by (destruct Ha; lia).
  rewrite bind_Ok.
  destruct (first_index _ 0 (length var_order)) as [col|] eqn:Hf; [|eauto].
  apply first_index_some in Hf.
  destruct (mem_index col (fst st)); [eauto|].
  rewrite (list_get_ok var_order EmptyString) by lia. rewrite bind_Ok. eauto.
Qed.

Lemma free_var_values_length (n : nat) (vs : list F) :
  In vs (free_var_values n) -> length vs = n.
Proof.
  unfold free_var_values. destruct (Nat.ltb_spec 1 n) as [Hn|Hn]; simpl;
    intros Hin; repeat (destruct Hin as [<-|Hin]);
    try contradiction; try apply repeat_length;
    simpl; rewrite repeat_length; lia.
Qed.

Lemma find_free_vars_length (var_order : list string) (pivot_cols : list nat) :
  length (find_free_vars var_order pivot_cols) <= length var_order.
Proof.
  unfold find_free_vars. rewrite length_map.
  etransitivity; [apply filter_length_le|].
  rewrite length_combine, length_seq. lia.
Qed.

Lemma set_free_vars_ok (free_vars : list string) (free_values : list F) :
  length free_values = length free_vars ->
  exists solution, set_free_vars free_vars free_values = Ok solution.
Proof.
  intros Hlen. unfold set_free_vars.
  destruct (for_each_inv (fun _ : dict F => True)
    (fun jv solution =>
       x <- list_get free_values (fst jv) ;;
       Ok (dict_set solution (snd jv) x))
    (combine (seq 0 (length free_vars)) free_vars) [])
    as (s & Hs & _); [exact I| |eauto].
  intros [j v] sol Hin _. apply in_combine_l in Hin. apply in_seq in Hin.
  cbn [fst snd]. rewrite (list_get_ok free_values (of_int 0)) by lia.
  rewrite bind_Ok. eauto.
Qed.

Lemma reduce_rhs_ok (augmented : matrix F) (var_order : list string)
  (rows row pivot_col : nat) (solution : dict F) :
  rect augmented rows (length var_order + 1) -> row < rows ->
  exists rhs, reduce_rhs augmented var_order row pivot_col solution = Ok rhs.
Proof.
  intros Ha Hr. unfold reduce_rhs.
  rewrite (list_get_ok augmented []) by (destruct Ha; lia). rewrite bind_Ok.
  rewrite (get_last_ok (of_int 0)).
  2:{ intros Hnil. pose proof (rect_row_length Ha Hr) as Hlen.
      rewrite Hnil in Hlen. simpl in Hlen. lia. }
  rewrite bind_Ok.
  destruct (for_each_inv (fun _ : F => True)
    (fun col rhs =>
       other_var <- list_get var_order col ;;
       match dict_get solution other_var with
       | Some x => a <- mget augmented row col ;; Ok (fsub rhs (fmul a x))
       | None => Ok rhs
       end)
    (range (pivot_col + 1) (length var_order))
    (last (nth row augmented []) (of_int 0)))
    as (rhs & Hrhs & _); [exact I| |eauto].
  intros col rhs Hcol _. apply in_range in Hcol.
  rewrite (list_get_ok var_order EmptyString) by lia. rewrite bind_Ok.
  destruct (dict_get solution _); [|eauto].
  rewrite (mget_ok Ha) by lia. rewrite bind_Ok. eauto.
Qed.

Lemma back_substitute_row_ok (augmented : matrix F) (var_order : list string)
  (rows row : nat) (solution : dict F) :
  rect augmented rows (length var_order + 1) -> row < rows ->
  exists solution',
    back_substitute_row augmented var_order row solution = Ok solution'.
Proof.
  intros Ha Hr. unfold back_substitute_row.
  rewrite (@first_nonzero_col_ok augmented rows (length var_order) row Ha Hr),
    bind_Ok.
  destruct (first_index _ 0 (length var_order)) as [col|] eqn:Hf; [|eauto].
  apply first_index_some in Hf. destruct Hf as (Hcol & Hab & _).
  rewrite (list_get_ok var_order EmptyString) by lia. rewrite bind_Ok.
  destruct (dict_mem solution _); [eauto|].
  destruct (@reduce_rhs_ok augmented var_order rows row col solution Ha Hr)
    as (rhs & Hrhs).
  rewrite Hrhs, bind_Ok. rewrite (mget_ok Ha) by lia. rewrite bind_Ok.
  rewrite Hab. unfold py_div. rewrite (above_tol_nonzero _ Hab). simpl. eauto.
Qed.

Lemma example_solution_ok (augmented : matrix F) (var_order : list string)
  (rows : nat) (free_vars : list string) (free_values : list F) :
  rect augmented rows (length var_order + 1) ->
  length free_values = length free_vars ->
  exists solution,
    example_solution augmented var_order free_vars free_values = Ok solution.
Proof.
  intros Ha Hlen. unfold example_solution.
  destruct (set_free_vars_ok _ _ Hlen) as (s0 & Hs0). rewrite Hs0, bind_Ok.
  destruct (for_each_inv (fun _ : dict F => True)
    (back_substitute_row augmented var_order)
    (rev (range 0 (length augmented))) s0) as (s & Hs & _);
    [exact I| |eauto].
  intros row sol Hrow _. apply in_rev, in_range in Hrow.
  destruct (@back_substitute_row_ok augmented var_order rows row sol Ha)
    as (s' & Hs'); [destruct Ha; lia | eauto].
Qed.

Lemma generate_infinite_solutions_ok (coefficient augmented : matrix F)
  (var_order : list string) (rows : nat) :
  rect coefficient rows (length var_order) ->
  rect augmented rows (length var_order + 1) ->
  exists basic free examples,
    _generate_infinite_solutions coefficient augmented var_order =
      Ok (InfiniteSolutions basic free examples).
Proof.
  intros Hc Ha. unfold _generate_infinite_solutions.
  rewrite (check_rank_ok Hc), bind_Ok.
  destruct (find_pivot_cols_ok _ Ha) as ([pc bv] & Hpc). rewrite Hpc, bind_Ok.
  destruct (for_each_inv (fun _ : list (dict F) => True)
    (fun free_values acc =>
       solution <- example_solution augmented var_order
                     (find_free_vars var_order pc) free_values ;;
       Ok (acc ++ [solution]))
    (free_var_values (length (find_free_vars var_order pc))) [])
    as (ex & Hex & _); [exact I| |].
  - intros vs acc Hvs _. apply free_var_values_length in Hvs.
    destruct (@example_solution_ok augmented var_order rows
                (find_free_vars var_order pc) vs Ha Hvs) as (s & Hs).
    rewrite Hs, bind_Ok. eauto.
  - rewrite Hex, bind_Ok. eauto.
Qed.

End SolverFacts.

(** * The variable universe and its order *)

Lemma leb_trans (a b c : string) :
  String.leb a b = true -> String.leb b c = true -> String.leb a c = true.
Proof.
  unfold String.leb. intros Hab Hbc.
  destruct (String.compare a b) eqn:Eab; try discriminate;
    destruct (String.compare b c) eqn:Ebc; try discriminate.
  - apply String.compare_eq_iff in Eab. subst b. now rewrite Ebc.
  - apply String.compare_eq_iff in Eab. subst b. now rewrite Ebc.
  - apply String.compare_eq_iff in Ebc. subst c. now rewrite Eab.
  - apply String_as_OT.cmp_lt in Eab, Ebc.
    pose proof (String_as_OT.lt_trans _ _ _ Eab Ebc) as Hac.
    apply String_as_OT.cmp_lt in Hac. unfold String_as_OT.cmp in Hac.
    now rewrite Hac.
Qed.

Lemma leb_false_flip (a b : string) :
  String.leb a b = false -> String.leb b a = true.
Proof.
  intros Hab. destruct (String.leb_total a b) as [H1|H1]; congruence.
Qed.

Lemma insert_sorted_comm (x y : string) (l : list string) :
  insert_sorted x (insert_sorted y l) = insert_sorted y (insert_sorted x l).
Proof.
  induction l as [|z l IH]; simpl.
  - destruct (String.leb x y) eqn:Hxy, (String.leb y x) eqn:Hyx;
      try reflexivity.
    + now rewrite (String.leb_antisym _ _ Hxy Hyx).
    + apply leb_false_flip in Hxy. congruence.
  - destruct (String.leb y z) eqn:Hyz, (String.leb x z) eqn:Hxz; simpl;
      rewrite ?Hyz, ?Hxz.
    + destruct (String.leb x y) eqn:Hxy, (String.leb y x) eqn:Hyx;
        try reflexivity.
      * now rewrite (String.leb_antisym _ _ Hxy Hyx).
      * apply leb_false_flip in Hxy. congruence.
    + destruct (String.leb x y) eqn:Hxy; [|reflexivity].
      rewrite (leb_trans _ _ _ Hxy Hyz) in Hxz. discriminate.
    + destruct (String.leb y x) eqn:Hyx; [|reflexivity].
      rewrite (leb_trans _ _ _ Hyx Hxz) in Hyz. discriminate.
    + now rewrite IH.
Qed.

(** [sorted] does not depend on the order of its argument. *)
Lemma sorted_permutation (l l' : list string) :
  Permutation l l' -> sorted l = sorted l'.
Proof.
  induction 1 as [|x l l' _ IH|x y l|l l' l'' _ IH1 _ IH2]; simpl.
  - reflexivity.
  - now rewrite IH.
  - apply insert_sorted_comm.
  - congruence.
Qed.

Lemma insert_sorted_perm (x : string) (l : list string) :
  Permutation (insert_sorted x l) (x :: l).
Proof.
  induction l as [|y l IH]; simpl; [reflexivity|].
  destruct (String.leb x y); [reflexivity|].
  rewrite IH. apply perm_swap.
Qed.

Lemma sorted_perm (l : list string) : Permutation (sorted l) l.
Proof.
  induction l as [|x l IH]; simpl; [reflexivity|].
  rewrite insert_sorted_perm. now constructor.
Qed.

Lemma mem_name_in (x : string) (s : list string) :
  mem_name x s = true <-> In x s.
Proof.
  unfold mem_name. rewrite existsb_exists. split.
  - intros (y & Hy & Heq). apply String.eqb_eq in Heq. now subst.
  - intros Hx. exists x. split; [assumption | apply String.eqb_refl].
Qed.

Lemma set_add_in (x y : string) (s : list string) :
  In y (set_add x s) <-> y = x \/ In y s.
Proof.
  unfold set_add. destruct (mem_name x s) eqn:Hm.
  - apply mem_name_in in Hm. split; [auto|]. intros [->|Hy]; assumption.
  - rewrite in_app_iff. simpl. intuition.
Qed.

Lemma set_add_nodup (x : string) (s : list string) :
  NoDup s -> NoDup (set_add x s).
Proof.
  intros Hs. unfold set_add. destruct (mem_name x s) eqn:Hm; [assumption|].
  apply NoDup_rev in Hs. apply (NoDup_cons x) in Hs.
  - apply NoDup_rev in Hs. simpl in Hs. now rewrite rev_involutive in Hs.
  - rewrite <- in_rev. intros Hin. apply mem_name_in in Hin. congruence.
Qed.

(** The names of the terms of a system, in the order the program meets
    them. *)
Definition variables_of {F : Type} (parsed_equations : list (equation F))
  : list string :=
  flat_map (fun e => map variable (fst e)) parsed_equations.

Lemma add_all_spec (names : list string) :
  forall s, NoDup s ->
  let s' := fold_left (fun s v => set_add v s) names s in
  NoDup s' /\ forall y, In y s' <-> In y s \/ In y names.
Proof.
  induction names as [|v names IH]; intros s Hs; simpl.
  - split; [assumption|]. intuition.
  - destruct (IH (set_add v s) (set_add_nodup v Hs)) as [Hnd Hin].
    split; [assumption|]. intros y. rewrite Hin, set_add_in. intuition.
Qed.

Lemma all_vars_fold {F : Type} `{Number F} (eqs : list (equation F)) :
  forall s,
  fold_left
    (fun s e => fold_left (fun s term => set_add (variable term) s) (fst e) s)
    eqs s =
  fold_left (fun s v => set_add v s) (variables_of eqs) s.
Proof.
  induction eqs as [|e eqs IH]; intros s; [reflexivity|].
  unfold variables_of. simpl. rewrite fold_left_app.
  fold (variables_of eqs). rewrite <- IH. f_equal.
  generalize (fst e). intros terms. revert s.
  induction terms as [|t terms IHt]; intros s; [reflexivity|]. simpl.
  apply IHt.
Qed.

Lemma all_vars_spec {F : Type} `{Number F} (eqs : list (equation F)) :
  NoDup (all_vars eqs) /\
  forall y, In y (all_vars eqs) <-> In y (variables_of eqs).
Proof.
  unfold all_vars. rewrite all_vars_fold.
  destruct (add_all_spec (variables_of eqs) (NoDup_nil _)) as [Hnd Hin].
  split; [assumption|]. intros y. rewrite Hin. simpl. intuition.
Qed.

Lemma variables_of_in {F : Type} (eqs : list (equation F)) (y : string) :
  In y (variables_of eqs) <->
  exists e t, In e eqs /\ In t (fst e) /\ variable t = y.
Proof.
  unfold variables_of. rewrite in_flat_map. split.
  - intros (e & He & Hy). apply in_map_iff in Hy.
    destruct Hy as (t & Ht & Hin). eauto.
  - intros (e & t & He & Ht & Hy). exists e. split; [assumption|].
    apply in_map_iff. eauto.
Qed.

(** [enum] lists the members of the set [all_vars], each once, in some order:
    what iterating over a Python [set] yields. *)
Definition enumerates {F : Type} (enum : list string)
  (parsed_equations : list (equation F)) : Prop :=
  NoDup enum /\
  forall y, In y enum <->
    exists e t, In e parsed_equations /\ In t (fst e) /\ variable t = y.

Lemma enumerates_permutation {F : Type} `{Number F} (enum : list string)
  (eqs : list (equation F)) :
  enumerates enum eqs <-> Permutation enum (all_vars eqs).
Proof.
  destruct (all_vars_spec eqs) as [Hnd Hin]. split.
  - intros [Hnd' Hin']. apply NoDup_Permutation; try assumption.
    intros y. now rewrite Hin', Hin, variables_of_in.
  - intros Hperm. split.
    + apply (Permutation_NoDup (Permutation_sym Hperm) Hnd).
    + intros y. rewrite <- variables_of_in, <- Hin. split; intros Hy.
      * now apply (Permutation_in _ Hperm).
      * now apply (Permutation_in _ (Permutation_sym Hperm)).
Qed.

Lemma covers_sorted_all_vars {F : Type} `{Number F} (eqs : list (equation F)) :
  covers (sorted (all_vars eqs)) eqs.
Proof.
  intros e t He Ht. apply (Permutation_in _ (Permutation_sym (sorted_perm _))).
  apply (proj2 (all_vars_spec eqs)). apply variables_of_in. eauto.
Qed.

(** C8. Solving is a function of the equation list: the one place where the
    program meets an order it does not fix, the iteration over the set
    [all_vars], is inside [sorted], and every enumeration of the set gives the
    same [var_order], hence the same classification and the same example
    solutions. *)
Theorem solve_deterministic {F : Type} `{Number F} (eqs : list (equation F))
  (enum : list string) :
  enumerates enum eqs ->
  solve_with_order (sorted enum) eqs = solve_parsed eqs.
Proof.
  intros Henum. unfold solve_parsed. f_equal.
  apply sorted_permutation. now apply enumerates_permutation.
Qed.

(** C8 on the system [y + x = 3], [y - x = 1], the set listed as [y], [x]. *)
Lemma solve_deterministic_witness :
  solve_with_order (sorted ["y"; "x"]%string)
    [([mkTerm 1%float "y" ADD; mkTerm 1%float "x" ADD], 3%float);
     ([mkTerm 1%float "y" ADD; mkTerm 1%float "x" SUB], 1%float)] =
  solve_parsed
    [([mkTerm 1%float "y" ADD; mkTerm 1%float "x" ADD], 3%float);
     ([mkTerm 1%float "y" ADD; mkTerm 1%float "x" SUB], 1%float)].
Proof.
  apply (@solve_deterministic float Binary64.float_number).
  apply enumerates_permutation. vm_compute. apply Permutation_refl.
Defined.

(** * Classification *)

(** Lines 169-186: the augmented matrix after [gauss_jordan]. *)
Definition reduced_system {F : Type} `{Number F} (var_order : list string)
  (parsed_equations : list (equation F)) : result (matrix F) :=
  '(A, B) <- build_matrix var_order parsed_equations ;;
  gauss_jordan (augment A B).

Section Classification.
Context {F : Type} `{Number F}.

Lemma reduced_system_ok (var_order : list string) (eqs : list (equation F)) :
  eqs <> [] -> covers var_order eqs ->
  exists R, reduced_system var_order eqs = Ok R /\
    rect R (length eqs) (length var_order + 1).
Proof.
  intros Hne Hcov. unfold reduced_system.
  destruct (build_matrix_ok Hcov) as (A & HA & Hrect & _).
  rewrite HA, bind_Ok.
  apply gauss_jordan_ok.
  - apply augment_rect; [assumption | apply length_map].
  - destruct eqs; [congruence | simpl; lia].
Qed.

(** The solver returns on every non-empty system, and its outcome is read
    off the two ranks of the reduced matrix. *)
Lemma solve_with_order_ok (var_order : list string) (eqs : list (equation F)) :
  eqs <> [] -> covers var_order eqs ->
  exists R rA rAB out,
    reduced_system var_order eqs = Ok R /\
    rect R (length eqs) (length var_order + 1) /\
    check_rank (map (@removelast F) R) = Ok rA /\
    check_rank R = Ok rAB /\
    rA <= length var_order /\
    solve_with_order var_order eqs = Ok out /\
    (rA <> rAB -> out = NoSolution) /\
    (rA = rAB -> rA < length var_order ->
       kind_of out = KInfiniteSolutions) /\
    (rA = rAB -> rA = length var_order ->
       out = UniqueSolution
               (dict_of (combine var_order
                           (map (fun row => last row (of_int 0)) R)))).
Proof.
  intros Hne Hcov.
  destruct (reduced_system_ok Hne Hcov) as (R & HR & Hrect).
  assert (Hrows : 0 < length eqs) by (destruct eqs; [congruence | simpl; lia]).
  pose proof (@removelast_rect _ R (length eqs) (length var_order) Hrect)
    as Hcoef.
  pose proof (check_rank_ok Hcoef) as HrA.
  pose proof (check_rank_ok Hrect) as HrAB.
  set (rA := if (0 <? length eqs) && (0 <? length var_order)
             then snd (rank_columns (length eqs) (length var_order)
                         (seq 0 (length var_order))
                         (entry (of_int 0) (map (@removelast F) R), 0))
             else 0) in *.
  set (rAB := if (0 <? length eqs) && (0 <? length var_order + 1)
              then snd (rank_columns (length eqs) (length var_order + 1)
                          (seq 0 (length var_order + 1))
                          (entry (of_int 0) R, 0))
              else 0) in *.
  assert (HrA_le : rA <= length var_order).
  { subst rA. destruct (_ && _); [|lia].
    pose proof (@rank_columns_bound _ _ (length eqs) (length var_order)
                  (seq 0 (length var_order))
                  (entry (of_int 0) (map (@removelast F) R)) 0
                  (Nat.le_0_l _)) as Hb.
    cbv zeta in Hb. rewrite length_seq in Hb. lia. }
  assert (Hsolve : solve_with_order var_order eqs =
    (if negb (rA =? rAB) then Ok NoSolution
     else if rA <? length var_order then
       _generate_infinite_solutions (map (@removelast F) R) R var_order
     else Ok (UniqueSolution
                (dict_of (combine var_order
                            (map (fun row => last row (of_int 0)) R)))))).
  { unfold solve_with_order. unfold reduced_system in HR.
    destruct (build_matrix var_order eqs) as [[A B]|]; [|discriminate].
    cbn [bind] in HR |- *. rewrite HR, bind_Ok.
    rewrite (@last_column_ok _ _ R (length eqs) (length var_order) Hrect),
      bind_Ok.
    cbn [app].
    rewrite HrA, bind_Ok, HrAB, bind_Ok.
    rewrite (len_first_ok Hcoef Hrows), bind_Ok. reflexivity. }
  destruct (@generate_infinite_solutions_ok _ _ _ R var_order (length eqs)
              Hcoef Hrect)
    as (basic & free & examples & Hgen).
  exists R, rA, rAB.
  destruct (Nat.eqb_spec rA rAB) as [Heq|Hneq]; cbn [negb] in Hsolve.
  - destruct (Nat.ltb_spec rA (length var_order)) as [Hlt|Hge].
    + rewrite Hgen in Hsolve. eexists. repeat (split; [eassumption|]).
      split; [congruence|]. split; [reflexivity|]. lia.
    + eexists. repeat (split; [eassumption|]).
      split; [congruence|]. split; [lia|]. reflexivity.
  - eexists. repeat (split; [eassumption|]).
    split; [reflexivity|]. split; congruence.
Qed.

End Classification.

(** C5, as the program has it.  On every non-empty system the solver returns
    exactly one of the three outcomes, and which one is decided by the two
    ranks that [check_rank] computes on the matrix that [gauss_jordan] left:
    [rA] for its coefficient columns and [rAB] for the whole of it. *)
Theorem classification_by_reduced_ranks {F : Type} `{Number F}
  (eqs : list (equation F)) :
  eqs <> [] ->
  exists R rA rAB out,
    reduced_system (sorted (all_vars eqs)) eqs = Ok R /\
    check_rank (map (@removelast F) R) = Ok rA /\
    check_rank R = Ok rAB /\
    solve_parsed eqs = Ok out /\
    (kind_of out = KNoSolution <-> rA <> rAB) /\
    (kind_of out = KUniqueSolution <->
       rA = rAB /\ rA = length (sorted (all_vars eqs))) /\
    (kind_of out = KInfiniteSolutions <->
       rA = rAB /\ rA < length (sorted (all_vars eqs))).
Proof.
  intros Hne.
  destruct (solve_with_order_ok Hne (covers_sorted_all_vars eqs))
    as (R & rA & rAB & out & HR & _ & HrA & HrAB & Hle & Hout & Hno & Hinf & Huni).
  exists R, rA, rAB, out. repeat (split; [assumption|]).
  destruct (Nat.eq_dec rA rAB) as [Heq|Hneq].
  - destruct (Nat.eq_dec rA (length (sorted (all_vars eqs)))) as [Hn|Hn].
    + rewrite (Huni Heq Hn). simpl.
      split; [split; [discriminate | tauto]|].
      split; [tauto|]. split; [discriminate | lia].
    + assert (Hlt : rA < length (sorted (all_vars eqs))) by lia.
      rewrite (Hinf Heq Hlt).
      split; [split; [discriminate | tauto]|].
      split; [split; [discriminate | tauto] | tauto].
  - rewrite (Hno Hneq). simpl.
    split; [tauto|]. split; split; try discriminate; tauto.
Qed.

(** C5 on the system [2x + 3y = 7], [x - y = 1]. *)
Lemma classification_by_reduced_ranks_witness :
  exists R rA rAB out,
    reduced_system
      (sorted (all_vars
         [([mkTerm 2%float "x" ADD; mkTerm 3%float "y" ADD], 7%float);
          ([mkTerm 1%float "x" ADD; mkTerm 1%float "y" SUB], 1%float)]))
      [([mkTerm 2%float "x" ADD; mkTerm 3%float "y" ADD], 7%float);
       ([mkTerm 1%float "x" ADD; mkTerm 1%float "y" SUB], 1%float)] = Ok R /\
    check_rank (map (@removelast float) R) = Ok rA /\
    check_rank R = Ok rAB /\
    solve_parsed
      [([mkTerm 2%float "x" ADD; mkTerm 3%float "y" ADD], 7%float);
       ([mkTerm 1%float "x" ADD; mkTerm 1%float "y" SUB], 1%float)] = Ok out /\
    (kind_of out = KNoSolution <-> rA <> rAB) /\
    (kind_of out = KUniqueSolution <->
       rA = rAB /\
       rA = length (sorted (all_vars
         [([mkTerm 2%float "x" ADD; mkTerm 3%float "y" ADD], 7%float);
          ([mkTerm 1%float "x" ADD; mkTerm 1%float "y" SUB], 1%float)]))) /\
    (kind_of out = KInfiniteSolutions <->
       rA = rAB /\
       rA < length (sorted (all_vars
         [([mkTerm 2%float "x" ADD; mkTerm 3%float "y" ADD], 7%float);
          ([mkTerm 1%float "x" ADD; mkTerm 1%float "y" SUB], 1%float)]))).
Proof.
  apply (@classification_by_reduced_ranks float Binary64.float_number).
  discriminate.
Defined.

(** The literal [1e-11]. *)
Definition tiny : float := 0x1.5fd7fe1796495p-37%float.

(** The system [1e-10 x = 1], [1e-11 y = 0]. *)
Definition near_singular_system : list (equation float) :=
  [([mkTerm Binary64.tolerance "x" ADD], 1%float);
   ([mkTerm tiny "y" ADD], 0%float)].

(** C5 as stated fails.  For [1e-10 x = 1], [1e-11 y = 0] the matrices the
    builder makes have [check_rank A = 0] and [check_rank [A|B] = 1], which
    the specification would classify as no solution; the program divides the first
    row by [1e-10], finds rank 1 on both reduced matrices and reports
    infinitely many solutions. *)
Lemma classification_counterexample :
  build_matrix ["x"; "y"]%string near_singular_system =
    Ok ([[Binary64.tolerance; 0]; [0; tiny]]%float, [1; 0]%float) /\
  check_rank [[Binary64.tolerance; 0]; [0; tiny]]%float = Ok 0 /\
  check_rank (augment [[Binary64.tolerance; 0]; [0; tiny]] [1; 0])%float
    = Ok 1 /\
  solve_parsed near_singular_system =
    Ok (InfiniteSolutions ["x"%string] ["y"%string]
          (map (fun y => [("y"%string, y); ("x"%string, 10000000000%float)])
             [0; 1; -1; 2; -2]%float)).
Proof. vm_compute. repeat split. Qed.

(** * Degenerate input *)

(** C10. [check_rank] returns 0, and raises nothing, on the matrix with no
    rows and on every matrix whose first row is empty. *)
Theorem check_rank_degenerate {F : Type} `{Number F} (rest : matrix F) :
  check_rank (@nil (list F)) = Ok 0 /\ check_rank ([] :: rest) = Ok 0.
Proof. split; reflexivity. Qed.

(** A right-hand side that is a number: neither an infinity nor a NaN. *)
Definition is_finite (x : float) : bool :=
  PrimFloat.ltb (PrimFloat.abs x) infinity.

(** C3, as the program has it.  Nothing rejects an equation: a system in
    which some equation has no term, or a right-hand side that is not finite,
    is built into a matrix (the constants are copied as they are, and an
    equation with no term gives a row of zeros) and solved to an outcome. *)
Theorem degenerate_equations_are_solved (eqs : list (equation float))
  (e : equation float) :
  In e eqs -> fst e = [] \/ is_finite (snd e) = false ->
  exists A out,
    build_matrix (sorted (all_vars eqs)) eqs = Ok (A, map snd eqs) /\
    (fst e = [] ->
       In (repeat 0%float (length (sorted (all_vars eqs)))) A) /\
    solve_parsed eqs = Ok out.
Proof.
  intros Hin _.
  assert (Hne : eqs <> []) by (intros ->; contradiction).
  destruct (build_matrix_ok (covers_sorted_all_vars eqs))
    as (A & HA & _ & Hrows).
  destruct (solve_with_order_ok Hne (covers_sorted_all_vars eqs))
    as (_ & _ & _ & out & _ & _ & _ & _ & _ & Hout & _).
  exists A, out. split; [assumption|]. split; [|assumption].
  intros Hempty. clear - Hin Hrows Hempty.
  set (vo := sorted (all_vars eqs)) in *. clearbody vo. revert Hin.
  induction Hrows as [|e' row eqs' A' Hrow Hrest IH]; intros Hin;
    [contradiction|].
  destruct Hin as [->|Hin].
  - left. rewrite Hempty in Hrow. injection Hrow as <-. reflexivity.
  - right. now apply IH.
Qed.

(** C3 on the system of the one equation [= 5]. *)
Lemma degenerate_equations_are_solved_witness :
  exists A out,
    build_matrix (sorted (all_vars [(@nil (Term float), 5%float)]))
      [(@nil (Term float), 5%float)] =
      Ok (A, map snd [(@nil (Term float), 5%float)]) /\
    (fst (@nil (Term float), 5%float) = [] ->
       In (repeat 0%float
             (length (sorted (all_vars [(@nil (Term float), 5%float)])))) A) /\
    solve_parsed [(@nil (Term float), 5%float)] = Ok out.
Proof.
  apply (@degenerate_equations_are_solved
           [(@nil (Term float), 5%float)] (@nil (Term float), 5%float)).
  - left. reflexivity.
  - left. reflexivity.
Defined.

(** C3 as stated fails: the equation [= 5], which has no term, and the
    equation [x = inf] are both solved, to no solution and to [x = inf]. *)
Lemma degenerate_equations_counterexample :
  solve_parsed [(@nil (Term float), 5%float)] = Ok NoSolution /\
  is_finite infinity = false /\
  solve_parsed [([mkTerm 1%float "x" ADD], infinity)] =
    Ok (UniqueSolution [("x"%string, infinity)]).
Proof. vm_compute. repeat split. Qed.

(** * Substituting a solution into the equations *)

Section Substitution.
Context {F : Type} `{Number F}.

(** [solution.get(var, 0)], as the verification scripts read a solution. *)
Definition assigned (solution : dict F) (var : string) : F :=
  match dict_get solution var with
  | Some x => x
  | None => of_int 0
  end.

(** The matrix builder's reading of a term under an assignment:
    sign times coefficient times assigned value. *)
Definition term_value (solution : dict F) (t : Term F) : F :=
  let sign := match operator t with ADD => 1%Z | SUB => (-1)%Z end in
  fmul (fmul (of_int sign) (coefficient t)) (assigned solution (variable t)).

(** The left-hand side of an equation under an assignment. *)
Definition lhs_value (solution : dict F) (terms : list (Term F)) : F :=
  fold_left (fun acc t => fadd acc (term_value solution t)) terms (of_int 0).

(** The assignment satisfies the equation to within [eps]. *)
Definition satisfies_within (eps : F) (solution : dict F) (e : equation F)
  : bool :=
  fleb (fabs (fsub (lhs_value solution (fst e)) (snd e))) eps.

(** The assignment satisfies every equation to within [eps]. *)
Definition satisfies_all_within (eps : F) (solution : dict F)
  (eqs : list (equation F)) : bool :=
  forallb (satisfies_within eps solution) eqs.

(** ** Reduced row-echelon form *)

(** The leading column of row [r]: the first whose entry exceeds the
    tolerance. *)
Definition leading_col (m : matrix F) (cols r : nat) : option nat :=
  first_index (fun c => fltb tol (fabs (entry (of_int 0) m r c))) 0 cols.

(** Every row with a leading entry has it equal to 1 up to the tolerance,
    and no other row has an entry above the tolerance in that column. *)
Definition reduced_row_echelon (m : matrix F) (rows cols : nat) : bool :=
  forallb
    (fun r =>
       match leading_col m cols r with
       | None => true
       | Some c =>
           fleb (fabs (fsub (entry (of_int 0) m r c) (of_int 1))) tol &&
           forallb
             (fun r' =>
                (r' =? r) || negb (fltb tol (fabs (entry (of_int 0) m r' c))))
             (seq 0 rows)
       end)
    (seq 0 rows).

End Substitution.

(** The literal [1e-9]. *)
Definition eps9 : float := 0x1.12e0be826d695p-30%float.

(** ** C4: the reducer does not always reach reduced row-echelon form *)

(** The augmented matrix of [x + y + z = 3], [x + y + 2z = 4]. *)
Definition skipped_column_matrix : matrix float :=
  [[1; 1; 1; 3]; [1; 1; 2; 4]]%float.

(** C4 fails on the code.  After the first column has been cleared the
    second column has no pivot in row 1, the loop moves on to row 2 and
    column 2 together, and the third column is never reduced: row 1 leads
    in column 2 with [1], and row 0 keeps its [1] in that column. *)
Lemma gauss_jordan_not_reduced :
  gauss_jordan skipped_column_matrix =
    Ok [[1; 1; 1; 3]; [0; 0; 1; 1]]%float /\
  leading_col [[1; 1; 1; 3]; [0; 0; 1; 1]]%float 3 1 = Some 2 /\
  entry 0%float [[1; 1; 1; 3]; [0; 0; 1; 1]]%float 0 2 = 1%float /\
  reduced_row_echelon [[1; 1; 1; 3]; [0; 0; 1; 1]]%float 2 3 = false.
Proof. vm_compute. repeat split. Qed.

(** ** C1: an example solution that is no solution *)

(** The system [a + b + c + d + e = 1], [a + b + c + 2d + 2e = 3],
    [a + b + c + 2d + 3e = 4]. *)
Definition shared_pivot_system : list (equation float) :=
  let t := fun c v => mkTerm (c : float) v ADD in
  [([t 1 "a"; t 1 "b"; t 1 "c"; t 1 "d"; t 1 "e"]%float%string, 1%float);
   ([t 1 "a"; t 1 "b"; t 1 "c"; t 2 "d"; t 2 "e"]%float%string, 3%float);
   ([t 1 "a"; t 1 "b"; t 1 "c"; t 2 "d"; t 3 "e"]%float%string, 4%float)].

(** C1 fails on the code.  The reduced matrix has two rows leading in column
    [d]; back-substitution reads [d] off the last of them and skips the
    other, so the first example, [a = -2, d = 3, b = c = e = 0], gives
    [a + b + c + 2d + 2e = 4] where the second equation has [3]. *)
Lemma example_solution_violates_equation :
  exists basic free first others,
    solve_parsed shared_pivot_system =
      Ok (InfiniteSolutions basic free (first :: others)) /\
    lhs_value first
      (fst (nth 1 shared_pivot_system ([], 0%float))) = 4%float /\
    snd (nth 1 shared_pivot_system ([], 0%float)) = 3%float /\
    satisfies_all_within eps9 first shared_pivot_system = false.
Proof. do 4 eexists. vm_compute. repeat split. Qed.

(** ** C2: a unique solution off by more than the tolerance *)



(** ** C7: a second reduction changes the matrix *)

(** C7 as stated fails.  On the augmented matrix of [residue_system] the
    first run leaves [1e-11] in the first column; the second run divides
    row 0 by its pivot [1 - 1e-11], and the matrix changes. *)
Lemma gauss_jordan_twice_counterexample :
  exists once twice,
    gauss_jordan [[1; 1; 1000]; [tiny; 1; 0]]%float = Ok once /\
    gauss_jordan once = Ok twice /\
    PrimFloat.eqb (entry 0%float once 0 0) 1%float = false /\
    PrimFloat.eqb (entry 0%float twice 0 0) 1%float = true.
Proof. do 2 eexists. vm_compute. repeat split. Qed.

(** * [check_rank] on the store

    The caller's matrix is a list of references to row objects.  Line 117
    allocates a new object for each row; every write of the function goes
    through [temp_matrix], to the new list or to a new row. *)

(** The row objects, by address. *)
Definition heap (F : Type) : Type := list (list F).

(** A list of rows: the addresses of its row objects. *)
Definition refs : Type := list nat.

(** The local [temp_matrix], and the heap. *)
Definition store (F : Type) : Type := (refs * heap F)%type.

(** The contents of the matrix [m] in the heap [h]. *)
Definition deref {F : Type} (h : heap F) (m : refs) : matrix F :=
  map (fun a => nth a h []) m.

Section Store.
Context {F : Type} `{Number F}.

(** [temp_matrix[r][c]]. *)
Definition s_mget (s : store F) (r c : nat) : result F :=
  a <- list_get (fst s) r ;;
  row <- list_get (snd s) a ;;
  list_get row c.

(** [temp_matrix[r][c] = v]: the row object at [temp_matrix[r]] is
    written. *)
Definition s_mset (s : store F) (r c : nat) (v : F) : result (store F) :=
  a <- list_get (fst s) r ;;
  row <- list_get (snd s) a ;;
  row' <- list_set row c v ;;
  h' <- list_set (snd s) a row' ;;
  Ok (fst s, h').

(** [temp_matrix[i], temp_matrix[j] = temp_matrix[j], temp_matrix[i]]: the
    references are exchanged, no row object is written. *)
Definition s_swap_rows (s : store F) (i j : nat) : result (store F) :=
  aj <- list_get (fst s) j ;;
  ai <- list_get (fst s) i ;;
  t1 <- list_set (fst s) i aj ;;
  t2 <- list_set t1 j ai ;;
  Ok (t2, snd s).

(** [len(temp_matrix[0])]. *)
Definition s_len_first (s : store F) : result nat :=
  a <- list_get (fst s) 0 ;;
  row <- list_get (snd s) a ;;
  Ok (length row).

(** Line 117: [[row[:] for row in matrix]]. *)
Definition s_copy (m : refs) (h : heap F) : result (store F) :=
  for_each m
    (fun a s =>
       row <- list_get (snd s) a ;;
       Ok (fst s ++ [length (snd s)], snd s ++ [row]))
    ([], h).

(** Lines 143-144. *)
Definition s_subtract_row (i j cols : nat) (factor : F) (s : store F)
  : result (store F) :=
  for_each (range 0 cols)
    (fun k s =>
       a <- s_mget s j k ;;
       b <- s_mget s i k ;;
       s_mset s j k (fsub a (fmul factor b)))
    s.

(** Lines 126-130. *)
Definition s_rank_pivot (s : store F) (rank rows col : nat)
  : result (option nat) :=
  find_first (range rank rows)
    (fun row => a <- s_mget s row col ;; Ok (fltb tol (fabs a))).

(** Lines 140-144. *)
Definition s_rank_eliminate (s : store F) (rank rows cols col : nat)
  : result (store F) :=
  for_each (range 0 rows)
    (fun row s =>
       if row =? rank then Ok s
       else
         a <- s_mget s row col ;;
         if fltb tol (fabs a) then
           p <- s_mget s rank col ;;
           factor <- py_div a p ;;
           s_subtract_row rank row cols factor s
         else Ok s)
    s.

(** Lines 125-146. *)
Definition s_check_rank_step (rows cols col : nat) (st : store F * nat)
  : result (store F * nat) :=
  let '(s, rank) := st in
  found <- s_rank_pivot s rank rows col ;;
  match found with
  | None => Ok (s, rank)
  | Some pivot_row =>
      s <- (if pivot_row =? rank then Ok s else s_swap_rows s rank pivot_row) ;;
      s <- s_rank_eliminate s rank rows cols col ;;
      Ok (s, rank + 1)
  end.

(** Lines 119-146. *)
Definition s_rank_loop (s : store F) : result (store F * nat) :=
  let rows := length (fst s) in
  cols <- s_len_first s ;;
  for_each (range 0 cols) (s_check_rank_step rows cols) (s, 0).

(** [check_rank(matrix)] in the heap [h]: the rank, and the heap it
    leaves. *)
Definition check_rank_store (m : refs) (h : heap F) : result (nat * heap F) :=
  match m with
  | [] => Ok (0, h)
  | a0 :: _ =>
      row0 <- list_get h a0 ;;
      match row0 with
      | [] => Ok (0, h)
      | _ =>
          temp_matrix <- s_copy m h ;;
          '(s, rank) <- s_rank_loop temp_matrix ;;
          Ok (rank, snd s)
      end
  end.

End Store.

(** ** Two computations that go the same way *)

(** Both return, with related results, or both raise the same exception. *)
Definition rel_result {S T : Type} (R : S -> T -> Prop)
  (a : result S) (b : result T) : Prop :=
  match a, b with
  | Ok s, Ok t => R s t
  | Raise e, Raise e' => e = e'
  | _, _ => False
  end.

Lemma rel_refl {S : Type} (a : result S) : rel_result eq a a.
Proof. destruct a; reflexivity. Qed.

Lemma rel_bind {S T S' T' : Type} (R : S -> T -> Prop) (Q : S' -> T' -> Prop)
  (a : result S) (b : result T) (k : S -> result S') (k' : T -> result T') :
  rel_result R a b ->
  (forall s t, R s t -> rel_result Q (k s) (k' t)) ->
  rel_result Q (bind a k) (bind b k').
Proof.
  destruct a as [s|e], b as [t|e']; simpl; intros Hab Hk;
    try contradiction; auto.
Qed.

Lemma rel_for_each {A S T : Type} (R : S -> T -> Prop)
  (f : A -> S -> result S) (g : A -> T -> result T) (xs : list A) :
  (forall x s t, In x xs -> R s t -> rel_result R (f x s) (g x t)) ->
  forall s t, R s t -> rel_result R (for_each xs f s) (for_each xs g t).
Proof.
  induction xs as [|x xs IH]; intros Hstep s t Hst; simpl; [assumption|].
  apply (rel_bind R).
  - apply Hstep; [now left | assumption].
  - apply IH. intros y s' t' Hy. apply Hstep. now right.
Qed.

Lemma rel_find_first {A : Type} (p q : A -> result bool) (xs : list A) :
  (forall x, In x xs -> rel_result eq (p x) (q x)) ->
  rel_result eq (find_first xs p) (find_first xs q).
Proof.
  induction xs as [|x xs IH]; intros Hpq; simpl; [reflexivity|].
  apply (rel_bind eq).
  - apply Hpq. now left.
  - intros b b' <-. destruct b; [reflexivity|].
    apply IH. intros y Hy. apply Hpq. now right.
Qed.

Lemma swap_index_inj (i j r r' : nat) :
  swap_index i j r = swap_index i j r' -> r = r'.
Proof. unfold swap_index. index_cases. Qed.

Lemma firstn_replace_nth {A : Type} (l : list A) (n i : nat) (a : A) :
  n <= i -> firstn n (replace_nth l i a) = firstn n l.
Proof.
  revert n i; induction l as [|h t IH]; intros [|n] [|i] Hni; simpl;
    try reflexivity; try lia.
  f_equal. apply IH. lia.
Qed.

Lemma nth_error_swap {A : Type} (l : list A) (i j r : nat) (x y : A) :
  nth_error l i = Some x -> nth_error l j = Some y ->
  nth_error (replace_nth (replace_nth l i y) j x) r =
    nth_error l (swap_index i j r).
Proof.
  intros Hi Hj.
  assert (Hil : i < length l) by (apply nth_error_Some; congruence).
  assert (Hjl : j < length l) by (apply nth_error_Some; congruence).
  unfold swap_index.
  destruct (Nat.eqb_spec r j) as [->|Hrj].
  - rewrite nth_error_replace_nth_eq by (rewrite length_replace_nth; lia).
    destruct (Nat.eqb_spec j i) as [->|Hji]; congruence.
  - rewrite nth_error_replace_nth_neq by congruence.
    destruct (Nat.eqb_spec r i) as [->|Hri].
    + rewrite nth_error_replace_nth_eq by lia. congruence.
    + now rewrite nth_error_replace_nth_neq by congruence.
Qed.

Lemma list_get_nth_error {A : Type} (l : list A) (i : nat) :
  list_get l i =
    match nth_error l i with Some a => Ok a | None => Raise IndexError end.
Proof. reflexivity. Qed.

(** ** The working copy represents a matrix *)

Section StoreFacts.
Context {F : Type} `{Number F}.

(** The store [s] extends the heap [h0], which it leaves as it was; the
    rows of [temp_matrix] are distinct objects allocated after [h0], and
    their contents are the rows of [t]. *)
Definition represents (h0 : heap F) (s : store F) (t : matrix F) : Prop :=
  firstn (length h0) (snd s) = h0 /\
  length h0 <= length (snd s) /\
  length (fst s) = length t /\
  (forall r a, nth_error (fst s) r = Some a ->
     length h0 <= a /\ a < length (snd s) /\
     nth_error (snd s) a = nth_error t r) /\
  (forall r r' a, nth_error (fst s) r = Some a ->
     nth_error (fst s) r' = Some a -> r = r').

Lemma sim_row (h0 : heap F) (s : store F) (t : matrix F) (r : nat) :
  represents h0 s t ->
  rel_result eq (a <- list_get (fst s) r ;; list_get (snd s) a) (list_get t r).
Proof.
  intros (_ & _ & Hlen & Hptr & _). unfold list_get.
  destruct (nth_error (fst s) r) as [a|] eqn:Ea; simpl.
  - destruct (Hptr r a Ea) as (_ & Hlt & Heq).
    rewrite Heq. apply rel_refl.
  - apply nth_error_None in Ea. rewrite Hlen in Ea.
    apply nth_error_None in Ea. now rewrite Ea.
Qed.

Lemma sim_mget (h0 : heap F) (s : store F) (t : matrix F) (r c : nat) :
  represents h0 s t -> rel_result eq (s_mget s r c) (mget t r c).
Proof.
  intros Hs. unfold s_mget, mget.
  pose proof (sim_row r Hs) as Hrow.
  destruct (list_get (fst s) r) as [a|e]; simpl in *.
  - destruct (list_get (snd s) a) as [row|e], (list_get t r) as [row'|e'];
      simpl in *; try contradiction; subst; try reflexivity. apply rel_refl.
  - destruct (list_get t r); simpl in *; [contradiction | assumption].
Qed.

Lemma sim_mset (h0 : heap F) (s : store F) (t : matrix F) (r c : nat) (v : F) :
  represents h0 s t ->
  rel_result (represents h0) (s_mset s r c v) (mset t r c v).
Proof.
  intros Hs. pose proof Hs as (Hfr & Hle & Hlen & Hptr & Hinj).
  unfold s_mset, mset. unfold list_get.
  destruct (nth_error (fst s) r) as [a|] eqn:Ea; simpl.
  2:{ apply nth_error_None in Ea. rewrite Hlen in Ea.
      apply nth_error_None in Ea. now rewrite Ea. }
  destruct (Hptr r a Ea) as (Hbase & Hlt & Heq).
  rewrite Heq.
  assert (Hr : r < length t) by (rewrite <- Hlen; apply nth_error_Some; congruence).
  destruct (nth_error t r) as [row|] eqn:Et;
    [|apply nth_error_None in Et; lia].
  simpl. destruct (list_set row c v) as [row'|e]; simpl; [|reflexivity].
  rewrite !list_set_ok by lia. simpl.
  split; [|split; [|split; [|split]]]; simpl.
  - rewrite firstn_replace_nth by lia. assumption.
  - now rewrite length_replace_nth.
  - now rewrite length_replace_nth.
  - intros r2 a2 E2. destruct (Hptr r2 a2 E2) as (Hb2 & Hl2 & He2).
    rewrite length_replace_nth. split; [assumption|]. split; [assumption|].
    destruct (Nat.eq_dec r2 r) as [->|Hne].
    + assert (a2 = a) by congruence. subst a2.
      now rewrite !nth_error_replace_nth_eq by lia.
    + assert (a2 <> a) by (intros ->; apply Hne; eapply Hinj; eassumption).
      now rewrite !nth_error_replace_nth_neq by congruence.
  - assumption.
Qed.

Lemma sim_swap_rows (h0 : heap F) (s : store F) (t : matrix F) (i j : nat) :
  represents h0 s t ->
  rel_result (represents h0) (s_swap_rows s i j) (swap_rows t i j).
Proof.
  intros Hs. pose proof Hs as (Hfr & Hle & Hlen & Hptr & Hinj).
  unfold s_swap_rows, swap_rows. unfold list_get.
  destruct (nth_error (fst s) j) as [aj|] eqn:Eaj; simpl.
  2:{ apply nth_error_None in Eaj. rewrite Hlen in Eaj.
      apply nth_error_None in Eaj. now rewrite Eaj. }
  assert (Hj : j < length t)
    by (rewrite <- Hlen; apply nth_error_Some; congruence).
  destruct (nth_error t j) as [rj|] eqn:Etj;
    [|apply nth_error_None in Etj; lia].
  simpl. unfold list_get.
  destruct (nth_error (fst s) i) as [ai|] eqn:Eai; simpl.
  2:{ apply nth_error_None in Eai. rewrite Hlen in Eai.
      apply nth_error_None in Eai. now rewrite Eai. }
  assert (Hi : i < length t)
    by (rewrite <- Hlen; apply nth_error_Some; congruence).
  destruct (nth_error t i) as [ri|] eqn:Eti;
    [|apply nth_error_None in Eti; lia].
  simpl. rewrite !list_set_ok by lia. simpl.
  rewrite !list_set_ok by (rewrite length_replace_nth; lia).
  unfold rel_result, bind, represents.
  split; [|split; [|split; [|split]]]; simpl.
  - assumption.
  - assumption.
  - now rewrite !length_replace_nth.
  - intros r a Er. rewrite (@nth_error_swap _ _ i j r _ _ Eai Eaj) in Er.
    rewrite (@nth_error_swap _ _ i j r _ _ Eti Etj). now apply Hptr.
  - intros r r' a Er Er'.
    rewrite (@nth_error_swap _ _ i j r _ _ Eai Eaj) in Er.
    rewrite (@nth_error_swap _ _ i j r' _ _ Eai Eaj) in Er'.
    apply (swap_index_inj i j). eapply Hinj; eassumption.
Qed.

Lemma sim_len_first (h0 : heap F) (s : store F) (t : matrix F) :
  represents h0 s t -> rel_result eq (s_len_first s) (len_first t).
Proof.
  intros Hs. unfold s_len_first, len_first.
  pose proof (sim_row 0 Hs) as Hrow.
  destruct (list_get (fst s) 0) as [a|e]; simpl in *.
  - destruct (list_get (snd s) a) as [row|e], (list_get t 0) as [row'|e'];
      simpl in *; try contradiction; subst; reflexivity.
  - destruct (list_get t 0); simpl in *; [contradiction | assumption].
Qed.

Lemma sim_subtract_row (h0 : heap F) (i j cols : nat) (f : F)
  (s : store F) (t : matrix F) :
  represents h0 s t ->
  rel_result (represents h0)
    (s_subtract_row i j cols f s) (subtract_row i j cols f t).
Proof.
  intros Hs. unfold s_subtract_row, subtract_row.
  apply (rel_for_each (represents h0)); [|assumption].
  intros k s' t' _ Hs'.
  apply (rel_bind eq); [eapply sim_mget; eassumption|]. intros a a' <-.
  apply (rel_bind eq); [eapply sim_mget; eassumption|]. intros b b' <-.
  now apply sim_mset.
Qed.

Lemma sim_rank_pivot (h0 : heap F) (s : store F) (t : matrix F)
  (rank rows col : nat) :
  represents h0 s t ->
  rel_result eq (s_rank_pivot s rank rows col) (rank_pivot t rank rows col).
Proof.
  intros Hs. unfold s_rank_pivot, rank_pivot. apply rel_find_first.
  intros row _. apply (rel_bind eq); [eapply sim_mget; eassumption|].
  intros a a' <-. reflexivity.
Qed.

Lemma sim_rank_eliminate (h0 : heap F) (s : store F) (t : matrix F)
  (rank rows cols col : nat) :
  represents h0 s t ->
  rel_result (represents h0)
    (s_rank_eliminate s rank rows cols col)
    (rank_eliminate t rank rows cols col).
Proof.
  intros Hs. unfold s_rank_eliminate, rank_eliminate.
  apply (rel_for_each (represents h0)); [|assumption].
  intros row s' t' _ Hs'. destruct (row =? rank); [assumption|].
  apply (rel_bind eq); [eapply sim_mget; eassumption|]. intros a a' <-.
  destruct (fltb tol (fabs a)); [|assumption].
  apply (rel_bind eq); [eapply sim_mget; eassumption|]. intros p p' <-.
  apply (rel_bind eq); [apply rel_refl|]. intros q q' <-.
  now apply sim_subtract_row.
Qed.

(** The working copy and the rank, on the store and as values. *)
Definition represents_state (h0 : heap F) (x : store F * nat)
  (y : matrix F * nat) : Prop :=
  represents h0 (fst x) (fst y) /\ snd x = snd y.

Lemma sim_check_rank_step (h0 : heap F) (rows cols col : nat)
  (x : store F * nat) (y : matrix F * nat) :
  represents_state h0 x y ->
  rel_result (represents_state h0)
    (s_check_rank_step rows cols col x) (check_rank_step rows cols col y).
Proof.
  destruct x as [s rank], y as [t rank']. intros [Hs Hr].
  simpl in Hs, Hr. subst rank'. unfold s_check_rank_step, check_rank_step.
  apply (rel_bind eq); [eapply sim_rank_pivot; eassumption|]. intros found found' <-.
  destruct found as [pivot_row|]; [|split; [assumption | reflexivity]].
  apply (rel_bind (represents h0)).
  - destruct (pivot_row =? rank); [assumption | now apply sim_swap_rows].
  - intros s1 t1 Hs1.
    apply (rel_bind (represents h0)); [now apply sim_rank_eliminate|].
    intros s2 t2 Hs2. split; [assumption | reflexivity].
Qed.

Lemma sim_rank_loop (h0 : heap F) (s : store F) (t : matrix F) :
  represents h0 s t ->
  rel_result (represents_state h0) (s_rank_loop s) (rank_loop t).
Proof.
  intros Hs. unfold s_rank_loop, rank_loop.
  apply (rel_bind eq); [eapply sim_len_first; eassumption|]. intros cols cols' <-.
  replace (length (fst s)) with (length t) by (symmetry; apply Hs).
  apply (rel_for_each (represents_state h0)).
  - intros col x y _. apply sim_check_rank_step.
  - split; [assumption | reflexivity].
Qed.

(** The copy of line 117 represents the contents of the argument. *)
Lemma s_copy_ok (h0 : heap F) (m : refs) :
  Forall (fun a => a < length h0) m ->
  forall (s : store F) (t : matrix F),
  represents h0 s t ->
  exists s',
    for_each m
      (fun a s =>
         row <- list_get (snd s) a ;;
         Ok (fst s ++ [length (snd s)], snd s ++ [row]))
      s = Ok s' /\
    represents h0 s' (t ++ deref h0 m).
Proof.
  induction 1 as [|a m Ha Hm IH]; intros s t Hs.
  - exists s. simpl. rewrite app_nil_r. auto.
  - pose proof Hs as (Hfr & Hle & Hlen & Hptr & Hinj).
    rewrite for_each_cons.
    rewrite (list_get_ok (snd s) []) by lia. rewrite bind_Ok.
    assert (Hrow : nth a (snd s) [] = nth a h0 []).
    { transitivity (nth a (firstn (length h0) (snd s)) []);
        [|now rewrite Hfr].
      rewrite nth_firstn.
      destruct (Nat.ltb_spec a (length h0)); [reflexivity | lia]. }
    rewrite Hrow.
    destruct (IH (fst s ++ [length (snd s)], snd s ++ [nth a h0 []])
                (t ++ [nth a h0 []])) as (s' & Hrun & Hs').
    + split; [|split; [|split; [|split]]]; simpl.
      * rewrite firstn_app.
        replace (length h0 - length (snd s)) with 0 by lia.
        simpl. now rewrite app_nil_r.
      * rewrite length_app. lia.
      * rewrite !length_app. simpl. lia.
      * intros r a2 Er. rewrite length_app. simpl.
        destruct (Nat.lt_ge_cases r (length (fst s))) as [Hr|Hr].
        -- rewrite nth_error_app1 in Er by assumption.
           destruct (Hptr r a2 Er) as (Hb & Hl & He).
           split; [assumption|]. split; [lia|].
           rewrite nth_error_app1 by assumption.
           rewrite nth_error_app1 by lia. assumption.
        -- rewrite nth_error_app2 in Er by assumption.
           destruct (r - length (fst s)) as [|k] eqn:Ek;
             [|destruct k; discriminate].
           simpl in Er. injection Er as <-.
           split; [assumption|]. split; [lia|].
           rewrite nth_error_app2 by lia. rewrite Nat.sub_diag.
           rewrite nth_error_app2 by lia.
           replace (r - length t) with 0 by lia. reflexivity.
      * intros r r' a2 Er Er'.
        assert (Hcase : forall q, nth_error (fst s ++ [length (snd s)]) q
                          = Some a2 ->
                  (q < length (fst s) /\ nth_error (fst s) q = Some a2) \/
                  (q = length (fst s) /\ a2 = length (snd s))).
        { intros q Eq. destruct (Nat.lt_ge_cases q (length (fst s))) as [Hq|Hq].
          - left. rewrite nth_error_app1 in Eq by assumption. auto.
          - right. rewrite nth_error_app2 in Eq by assumption.
            destruct (q - length (fst s)) as [|k] eqn:Ek;
              [|destruct k; discriminate].
            simpl in Eq. injection Eq as <-. split; [lia | reflexivity]. }
        destruct (Hcase r Er) as [[Hr E1]|[Hr E1]],
                 (Hcase r' Er') as [[Hr' E2]|[Hr' E2]].
        -- eapply Hinj; eassumption.
        -- destruct (Hptr r a2 E1) as (_ & Hl & _). lia.
        -- destruct (Hptr r' a2 E2) as (_ & Hl & _). lia.
        -- lia.
    + exists s'. split; [exact Hrun|]. simpl. now rewrite <- app_assoc in Hs'.
Qed.

End StoreFacts.

(** ** The caller's matrix after [check_rank] *)

Section Frame.
Context {F : Type} `{Number F}.

Lemma deref_frame (h h' : heap F) (m : refs) :
  firstn (length h) h' = h -> Forall (fun a => a < length h) m ->
  deref h' m = deref h m.
Proof.
  intros Hfr Hm. unfold deref. apply map_ext_in. intros a Ha.
  rewrite Forall_forall in Hm. specialize (Hm a Ha).
  transitivity (nth a (firstn (length h) h') []); [|now rewrite Hfr].
  rewrite nth_firstn. destruct (Nat.ltb_spec a (length h)); [reflexivity | lia].
Qed.

Lemma represents_initial (h : heap F) : represents h ([], h) [].
Proof.
  unfold represents; simpl. split; [apply firstn_all|].
  split; [lia|]. split; [reflexivity|].
  split; intros [|r]; discriminate.
Qed.

(** The function on the store computes what the function on the contents
    computes, and leaves every object of the caller's heap as it was. *)
Lemma check_rank_store_sim (h : heap F) (m : refs) :
  Forall (fun a => a < length h) m ->
  rel_result
    (fun x rank =>
       fst x = rank /\ firstn (length h) (snd x) = h /\
       deref (snd x) m = deref h m)
    (check_rank_store m h) (check_rank (deref h m)).
Proof.
  intros Hm. destruct m as [|a0 m'].
  - simpl. split; [reflexivity|]. split; [apply firstn_all | reflexivity].
  - assert (Ha0 : a0 < length h) by (inversion Hm; assumption).
    unfold check_rank_store. rewrite (list_get_ok h []) by assumption.
    rewrite bind_Ok.
    destruct (s_copy_ok Hm (represents_initial h)) as (s & Hcopy & Hs).
    change (represents h s (deref h (a0 :: m'))) in Hs.
    fold (s_copy (a0 :: m') h) in Hcopy.
    destruct (nth a0 h []) as [|x row0] eqn:Hrow0.
    + replace (check_rank (deref h (a0 :: m'))) with (@Ok nat 0)
        by (unfold deref; simpl; now rewrite Hrow0).
      simpl. split; [reflexivity|]. split; [apply firstn_all | reflexivity].
    + replace (check_rank (deref h (a0 :: m')))
        with ('(_, rank) <- rank_loop (deref h (a0 :: m')) ;; Ok rank).
      2:{ unfold check_rank. rewrite map_id. unfold deref. simpl.
          rewrite Hrow0. reflexivity. }
      rewrite Hcopy, bind_Ok.
      apply (rel_bind (represents_state h)); [now apply sim_rank_loop|].
      intros [s2 rank] [t2 rank'] [Hs2 Hrank]. simpl in Hs2, Hrank.
      subst rank'. cbn [rel_result fst snd]. split; [reflexivity|].
      destruct Hs2 as (Hfr & _). split; [assumption|].
      apply deref_frame; assumption.
Qed.

(** C9. [check_rank] never mutates its argument.  Run on a heap [h] with the
    rows of the caller's matrix [m] in it, it returns whenever the function
    of the contents does, with the same rank; and in the heap [h'] it leaves,
    every object of [h] is as it was, so every entry of the caller's matrix
    has the value it had before the call.  What was written lies beyond [h]:
    the private copy. *)
Theorem check_rank_never_mutates (h : heap F) (m : refs) :
  Forall (fun a => a < length h) m ->
  (forall rank, check_rank (deref h m) = Ok rank ->
     exists h', check_rank_store m h = Ok (rank, h')) /\
  (forall rank h', check_rank_store m h = Ok (rank, h') ->
     firstn (length h) h' = h /\
     deref h' m = deref h m /\
     check_rank (deref h m) = Ok rank).
Proof.
  intros Hm. pose proof (@check_rank_store_sim h m Hm) as Hsim. split.
  - intros rank Hrank. rewrite Hrank in Hsim.
    destruct (check_rank_store m h) as [[r h']|e]; simpl in Hsim;
      [|contradiction].
    destruct Hsim as (-> & _). eauto.
  - intros rank h' Hrun. rewrite Hrun in Hsim.
    destruct (check_rank (deref h m)) as [r|e]; simpl in Hsim;
      [|contradiction].
    destruct Hsim as (-> & Hfr & Hd). auto.
Qed.

End Frame.

(** C9 on a heap of two row objects, the caller's matrix listing them in
    the order [1], [0]. *)
Lemma check_rank_never_mutates_witness :
  (forall rank,
     check_rank (deref [[2; 4; 6]; [1; 2; 4]]%float [1; 0]) = Ok rank ->
     exists h',
       check_rank_store [1; 0] [[2; 4; 6]; [1; 2; 4]]%float = Ok (rank, h')) /\
  (forall rank h',
     check_rank_store [1; 0] [[2; 4; 6]; [1; 2; 4]]%float = Ok (rank, h') ->
     firstn (length [[2; 4; 6]; [1; 2; 4]]%float) h' =
       [[2; 4; 6]; [1; 2; 4]]%float /\
     deref h' [1; 0] = deref [[2; 4; 6]; [1; 2; 4]]%float [1; 0] /\
     check_rank (deref [[2; 4; 6]; [1; 2; 4]]%float [1; 0]) = Ok rank).
Proof.
  apply (@check_rank_never_mutates float Binary64.float_number
           [[2; 4; 6]; [1; 2; 4]]%float [1; 0]).
  repeat constructor.
Defined.

(** * Facts of binary64 arithmetic

    What the reducer relies on when it meets zeros and ones: the laws below
    are proved from the specification of the IEEE operations. *)

Module Binary64Facts.

Local Open Scope Z_scope.

Lemma div_eucl_exact (a b : Z) : 0 < b -> Z.div_eucl (b * a) b = (a, 0).
Proof.
  intros Hb. pose proof (Z_div_mod (b * a) b ltac:(lia)) as H.
  destruct (Z.div_eucl (b * a) b) as [q r]. destruct H as [H1 H2].
  assert (q = a) by nia. subst q. f_equal. lia.
Qed.

Lemma new_location_zero (n : Z) : new_location n 0 = loc_Exact.
Proof. unfold new_location. destruct (Z.even n); reflexivity. Qed.

(** The mantissa of a float is canonical and its exponent in range. *)
Lemma valid_finite (x : float) (s : bool) (m : positive) (e : Z) :
  Prim2SF x = S754_finite s m e ->
  fexp prec emax (Z.pos (digits2_pos m) + e) = e /\ e <= emax - prec.
Proof.
  intros Hx. pose proof (Prim2SF_valid x) as Hv. rewrite Hx in Hv.
  simpl in Hv. unfold bounded, canonical_mantissa in Hv.
  apply andb_true_iff in Hv. destruct Hv as [Hc He].
  apply Z.eqb_eq in Hc. apply Z.leb_le in He. split; assumption.
Qed.

Lemma digits2_pos_shift (m : positive) (k : positive) :
  Z.pos (digits2_pos (Pos.iter xO m k)) = Z.pos (digits2_pos m) + Z.pos k.
Proof.
  induction k using Pos.peano_ind.
  - simpl. lia.
  - rewrite Pos.iter_succ. simpl digits2_pos. lia.
Qed.

(** [x / x] is [1]. *)
Lemma SFdiv_self (s : bool) (m : positive) (e : Z) :
  SF64div (S754_finite s m e) (S754_finite s m e) = Prim2SF 1%float.
Proof.
  unfold SF64div, SFdiv, SFdiv_core_binary.
  rewrite Z.sub_diag. rewrite Z.sub_diag.
  change (Z.min (fexp prec emax 0) 0) with (-53).
  change (0 - -53) with 53.
  rewrite Z.shiftl_mul_pow2 by lia.
  rewrite div_eucl_exact by lia.
  rewrite new_location_zero, xorb_nilpotent.
  vm_compute. reflexivity.
Qed.

(** [x - x] is [0]. *)
Lemma SFsub_self (s : bool) (m : positive) (e : Z) :
  SF64sub (S754_finite s m e) (S754_finite s m e) = S754_zero false.
Proof.
  unfold SF64sub, SFsub. cbv zeta. rewrite Z.min_id. unfold shl_align.
  rewrite Z.sub_diag. cbv iota beta. simpl fst.
  destruct s; simpl; rewrite ?Z.pos_sub_diag; reflexivity.
Qed.

(** [x * 1] is [x]. *)
Lemma SFmul_one (s : bool) (m : positive) (e : Z) :
  fexp prec emax (Z.pos (digits2_pos m) + e) = e -> e <= emax - prec ->
  SF64mul (S754_finite s m e) (Prim2SF 1%float) = S754_finite s m e.
Proof.
  intros Hc He.
  change (Prim2SF 1%float) with (S754_finite false 4503599627370496 (-52)).
  unfold SF64mul, SFmul, binary_round_aux, shr_fexp.
  rewrite Pos.mul_comm.
  change (Pos.mul 4503599627370496 m) with (Pos.iter xO m 52).
  unfold Zdigits2 at 1. rewrite digits2_pos_shift.
  replace (Z.pos (digits2_pos m) + 52 + (e + -52)) with
    (Z.pos (digits2_pos m) + e) by lia.
  rewrite Hc. replace (e - (e + -52)) with 52 by lia.
  unfold shr at 1.
  change (iter_pos shr_1 52
            (shr_record_of_loc (Z.pos (Pos.iter xO m 52)) loc_Exact))
    with (Build_shr_record (Z.pos m) false false).
  cbv beta iota. simpl shr_m. simpl loc_of_shr_record.
  simpl round_nearest_even. unfold Zdigits2.
  replace (e + -52 + 52) with e by lia. rewrite Hc, Z.sub_diag.
  cbv [shr shr_record_of_loc shr_m]. apply Z.leb_le in He. rewrite He.
  now rewrite xorb_false_r.
Qed.

(** [x / 1] is [x]. *)
Lemma SFdiv_one (s : bool) (m : positive) (e : Z) :
  fexp prec emax (Z.pos (digits2_pos m) + e) = e -> e <= emax - prec ->
  SF64div (S754_finite s m e) (Prim2SF 1%float) = S754_finite s m e.
Proof.
  intros Hc He.
  change (Prim2SF 1%float) with (S754_finite false 4503599627370496 (-52)).
  unfold SF64div, SFdiv, SFdiv_core_binary.
  change (Zdigits2 (Z.pos 4503599627370496)) with 53.
  change (Zdigits2 (Z.pos m)) with (Z.pos (digits2_pos m)).
  set (d := Z.pos (digits2_pos m)) in *.
  assert (Hd : 0 < d) by (subst d; lia).
  apply Z.leb_le in He.
  unfold fexp, emin in *. change (3 - emax - prec) with (-1074) in *.
  change prec with 53 in *.
  assert (Hcase :
    (Z.max (d + e - (53 + -52) - 53) (-1074) = e) \/
    (Z.max (d + e - (53 + -52) - 53) (-1074) = e - 1 /\ d = 53 /\ -1074 < e))
    by lia.
  destruct Hcase as [HE|(HE & Hd53 & Hlow)]; rewrite HE.
  - replace (Z.min e (e - -52)) with e by lia.
    replace (e - -52 - e) with 52 by lia. cbv iota.
    rewrite Z.shiftl_mul_pow2 by lia.
    change (2 ^ 52) with 4503599627370496.
    rewrite (Z.mul_comm (Z.pos m)).
    rewrite div_eucl_exact by lia.
    rewrite new_location_zero.
    unfold binary_round_aux, shr_fexp, fexp, emin.
    change (3 - emax - 53) with (-1074).
    change (Zdigits2 (Z.pos m)) with d.
    replace (Z.max (d + e - 53) (-1074) - e) with 0 by lia.
    cbv [shr shr_record_of_loc shr_m loc_of_shr_record round_nearest_even].
    change (Zdigits2 (Z.pos m)) with d.
    replace (Z.max (d + e - 53) (-1074) - e) with 0 by lia.
    cbv iota beta. rewrite He.
    now rewrite xorb_false_r.
  - replace (Z.min (e - 1) (e - -52)) with (e - 1) by lia.
    replace (e - -52 - (e - 1)) with 53 by lia. cbv iota.
    rewrite Z.shiftl_mul_pow2 by lia.
    replace (Z.pos m * 2 ^ 53) with (4503599627370496 * Z.pos (xO m)) by lia.
    rewrite div_eucl_exact by lia.
    rewrite new_location_zero.
    unfold binary_round_aux, shr_fexp, fexp, emin.
    change (3 - emax - 53) with (-1074).
    change (Zdigits2 (Z.pos m~0)) with (Z.pos (Pos.succ (digits2_pos m))).
    rewrite Pos2Z.inj_succ. fold d.
    replace (Z.max (Z.succ d + (e - 1) - 53) (-1074) - (e - 1)) with 1 by lia.
    cbv [shr shr_record_of_loc shr_m loc_of_shr_record round_nearest_even
           iter_pos shr_1 orb].
    change (Zdigits2 (Z.pos m)) with d.
    replace (Z.max (d + (e - 1 + 1) - 53) (-1074) - (e - 1 + 1))
      with 0 by lia.
    cbv iota beta. replace (e - 1 + 1) with e by lia.
    rewrite He.
    now rewrite xorb_false_r.
Qed.

Local Close Scope Z_scope.

End Binary64Facts.

(** ** The laws of the program's arithmetic

    The same facts on the floats of the program, in the vocabulary of
    [Number]. *)

Section FloatLaws.

Import Binary64Facts.

Lemma is_zero_spec (x : float) :
  is_zero x = true <-> exists s, Prim2SF x = S754_zero s.
Proof.
  change (is_zero x) with (PrimFloat.eqb x 0%float).
  rewrite eqb_spec. change (Prim2SF 0%float) with (S754_zero false).
  destruct (Prim2SF x) as [s|s| |s m e]; simpl; split;
    try discriminate; try (intros [s' Hs]; discriminate);
    try destruct s; try discriminate; eauto.
Qed.

Lemma is_finite_spec (x : float) :
  is_finite x = true <->
  (exists s, Prim2SF x = S754_zero s) \/
  (exists s m e, Prim2SF x = S754_finite s m e).
Proof.
  unfold is_finite. rewrite ltb_spec, abs_spec.
  change (Prim2SF infinity) with (S754_infinity false).
  destruct (Prim2SF x) as [s|s| |s m e]; simpl; split;
    try discriminate; eauto;
    intros [[s' Hs]|(s' & m' & e' & Hs)]; discriminate.
Qed.

Lemma finite_nonzero (x : float) :
  is_finite x = true -> is_zero x = false ->
  exists s m e, Prim2SF x = S754_finite s m e.
Proof.
  intros Hf Hz. apply is_finite_spec in Hf. destruct Hf as [Hzero|Hfin];
    [|assumption].
  apply is_zero_spec in Hzero. congruence.
Qed.

Lemma quot_self (p : float) :
  is_finite p = true -> is_zero p = false -> fquot p p = of_int 1.
Proof.
  intros Hf Hz. destruct (@finite_nonzero p Hf Hz) as (s & m & e & Hp).
  apply Prim2SF_inj. change (fquot p p) with (p / p)%float.
  rewrite div_spec, Hp. apply SFdiv_self.
Qed.

Lemma mul_one (f : float) : is_finite f = true -> fmul f (of_int 1) = f.
Proof.
  intros Hf. apply Prim2SF_inj.
  change (fmul f (of_int 1)) with (f * 1)%float. rewrite mul_spec.
  apply is_finite_spec in Hf.
  destruct Hf as [[s Hs]|(s & m & e & Hs)]; rewrite Hs.
  - change (Prim2SF 1%float) with (S754_finite false 4503599627370496 (-52)).
    simpl. now rewrite xorb_false_r.
  - destruct (@valid_finite f s m e Hs). now apply SFmul_one.
Qed.

Lemma sub_self (f : float) :
  is_finite f = true -> is_zero (fsub f f) = true.
Proof.
  intros Hf. apply is_zero_spec. change (fsub f f) with (f - f)%float.
  rewrite sub_spec. apply is_finite_spec in Hf.
  destruct Hf as [[s Hs]|(s & m & e & Hs)]; rewrite Hs.
  - exists false. destruct s; reflexivity.
  - exists false. apply SFsub_self.
Qed.

Lemma quot_one (x : float) : fquot x (of_int 1) = x.
Proof.
  apply Prim2SF_inj. change (fquot x (of_int 1)) with (x / 1)%float.
  rewrite div_spec.
  destruct (Prim2SF x) as [s|s| |s m e] eqn:Hx.
  - change (Prim2SF 1%float) with (S754_finite false 4503599627370496 (-52)).
    simpl. now rewrite xorb_false_r.
  - change (Prim2SF 1%float) with (S754_finite false 4503599627370496 (-52)).
    simpl. now rewrite xorb_false_r.
  - reflexivity.
  - destruct (@valid_finite x s m e Hx). now apply SFdiv_one.
Qed.

(** Zero divided by a number that is not zero is zero. *)
Lemma null_quot (x p : float) :
  is_zero x = true -> is_finite p = true -> is_zero p = false ->
  is_zero (fquot x p) = true.
Proof.
  intros Hx Hf Hz. destruct (@finite_nonzero p Hf Hz) as (s & m & e & Hp).
  apply is_zero_spec in Hx. destruct Hx as [sx Hx].
  apply is_zero_spec. change (fquot x p) with (x / p)%float.
  rewrite div_spec, Hx, Hp. simpl. eauto.
Qed.

(** A number times zero is zero. *)
Lemma null_mul (f y : float) :
  is_finite f = true -> is_zero y = true -> is_zero (fmul f y) = true.
Proof.
  intros Hf Hy. apply is_zero_spec in Hy. destruct Hy as [sy Hy].
  apply is_zero_spec. change (fmul f y) with (f * y)%float.
  rewrite mul_spec, Hy. apply is_finite_spec in Hf.
  destruct Hf as [[s Hs]|(s & m & e & Hs)]; rewrite Hs; simpl; eauto.
Qed.

Lemma null_sub (x y : float) :
  is_zero x = true -> is_zero y = true -> is_zero (fsub x y) = true.
Proof.
  intros Hx Hy. apply is_zero_spec in Hx, Hy.
  destruct Hx as [sx Hx], Hy as [sy Hy].
  apply is_zero_spec. change (fsub x y) with (x - y)%float.
  rewrite sub_spec, Hx, Hy. destruct sx, sy; simpl; eauto.
Qed.

(** Subtracting zero from what is not zero changes nothing. *)
Lemma sub_null (x y : float) :
  is_zero x = false -> is_zero y = true -> fsub x y = x.
Proof.
  intros Hx Hy. apply is_zero_spec in Hy. destruct Hy as [sy Hy].
  apply Prim2SF_inj. change (fsub x y) with (x - y)%float.
  rewrite sub_spec, Hy.
  destruct (Prim2SF x) as [s|s| |s m e] eqn:Hsx; try reflexivity.
  assert (is_zero x = true) by (apply is_zero_spec; eauto). congruence.
Qed.

(** *** The order of magnitudes *)

Lemma SFltb_abs_irrefl (x : spec_float) : SFltb (SFabs x) (SFabs x) = false.
Proof.
  destruct x as [s|s| |s m e]; try reflexivity.
  unfold SFltb; simpl. rewrite Z.compare_refl.
  change (Pos.compare_cont Eq m m) with (Pos.compare m m).
  now rewrite Pos.compare_refl.
Qed.

Lemma SFltb_abs_trans (x y z : spec_float) :
  SFltb (SFabs x) (SFabs y) = true -> SFltb (SFabs y) (SFabs z) = true ->
  SFltb (SFabs x) (SFabs z) = true.
Proof.
  destruct x as [sx|sx| |sx mx ex], y as [sy|sy| |sy my ey],
    z as [sz|sz| |sz mz ez]; unfold SFltb; simpl;
    try discriminate; try reflexivity.
  change (Pos.compare_cont Eq mx my) with (Pos.compare mx my).
  change (Pos.compare_cont Eq my mz) with (Pos.compare my mz).
  change (Pos.compare_cont Eq mx mz) with (Pos.compare mx mz).
  destruct (Z.compare_spec ex ey), (Z.compare_spec ey ez),
    (Z.compare_spec ex ez); try discriminate; try lia; try reflexivity;
    destruct (Pos.compare_spec mx my), (Pos.compare_spec my mz),
      (Pos.compare_spec mx mz); try discriminate; try lia; reflexivity.
Qed.

Lemma abs_ltb_irrefl (x : float) : fltb (fabs x) (fabs x) = false.
Proof.
  change (fltb (fabs x) (fabs x)) with
    (PrimFloat.ltb (PrimFloat.abs x) (PrimFloat.abs x)).
  rewrite ltb_spec, abs_spec. apply SFltb_abs_irrefl.
Qed.

Lemma abs_ltb_trans (x y z : float) :
  fltb (fabs x) (fabs y) = true -> fltb (fabs y) (fabs z) = true ->
  fltb (fabs x) (fabs z) = true.
Proof.
  change (fltb (fabs x) (fabs y)) with
    (PrimFloat.ltb (PrimFloat.abs x) (PrimFloat.abs y)).
  change (fltb (fabs y) (fabs z)) with
    (PrimFloat.ltb (PrimFloat.abs y) (PrimFloat.abs z)).
  change (fltb (fabs x) (fabs z)) with
    (PrimFloat.ltb (PrimFloat.abs x) (PrimFloat.abs z)).
  rewrite !ltb_spec, !abs_spec. apply SFltb_abs_trans.
Qed.

(** Below the tolerance is below what is above it. *)
Lemma below_above_tol (x y : float) :
  fltb (fabs x) tol = true -> fltb tol (fabs y) = true ->
  fltb (fabs x) (fabs y) = true.
Proof.
  change tol with (fabs tolerance). apply abs_ltb_trans.
Qed.

(** Nothing is smaller in magnitude than zero. *)
Lemma null_never_larger (x y : float) :
  is_zero y = true -> fltb (fabs x) (fabs y) = false.
Proof.
  intros Hy. apply is_zero_spec in Hy. destruct Hy as [sy Hy].
  change (fltb (fabs x) (fabs y)) with
    (PrimFloat.ltb (PrimFloat.abs x) (PrimFloat.abs y)).
  rewrite ltb_spec, !abs_spec, Hy.
  destruct (Prim2SF x) as [s|s| |s m e]; reflexivity.
Qed.

Lemma null_below_tol (x : float) : is_zero x = true -> fltb (fabs x) tol = true.
Proof.
  intros Hx. apply is_zero_spec in Hx. destruct Hx as [sx Hx].
  change (fltb (fabs x) tol) with (PrimFloat.ltb (PrimFloat.abs x) tolerance).
  rewrite ltb_spec, abs_spec, Hx. reflexivity.
Qed.

Lemma null_not_above_tol (x : float) :
  is_zero x = true -> fltb tol (fabs x) = false.
Proof.
  intros Hx. destruct (fltb tol (fabs x)) eqn:Hab; [|reflexivity].
  apply above_tol_nonzero in Hab. congruence.
Qed.

End FloatLaws.

(** * Reducing twice *)

(** One turn of the loop of [gauss_jordan], with the results of its
    parts. *)
Lemma gauss_jordan_step_trace {F : Type} `{Number F} (t : matrix F)
  (rows cols i : nat) :
  rect t rows cols -> i < rows -> i < cols ->
  exists p m1,
    find_pivot t i rows = Ok p /\ i <= p < rows /\
    (if p =? i then Ok t else swap_rows t i p) = Ok m1 /\
    rect m1 rows cols /\
    (forall r c, entry (of_int 0) m1 r c =
       entry (of_int 0) t (if r =? i then p else if r =? p then i else r) c) /\
    ((fltb (fabs (entry (of_int 0) m1 i i)) tol = true /\
      gauss_jordan_step rows cols i t = Ok m1) \/
     (fltb (fabs (entry (of_int 0) m1 i i)) tol = false /\
      exists m2 t',
        scale_row m1 i cols = Ok m2 /\ rect m2 rows cols /\
        (forall r c, entry (of_int 0) m2 r c =
           if (r =? i) && (c <? cols)
           then fquot (entry (of_int 0) m1 i c) (entry (of_int 0) m1 i i)
           else entry (of_int 0) m1 r c) /\
        eliminate m2 i rows cols = Ok t' /\ rect t' rows cols /\
        (forall r c, entry (of_int 0) t' r c =
           if (r <? rows) && negb (r =? i) &&
              fltb tol (fabs (entry (of_int 0) m2 r i)) && (c <? cols)
           then fsub (entry (of_int 0) m2 r c)
                  (fmul (entry (of_int 0) m2 r i) (entry (of_int 0) m2 i c))
           else entry (of_int 0) m2 r c) /\
        gauss_jordan_step rows cols i t = Ok t')).
Proof.
  intros Ht Hi Hic. unfold gauss_jordan_step.
  destruct (find_pivot_ok Ht Hi Hic) as (p & Hp & Hpr). rewrite Hp, bind_Ok.
  assert (Hswap : exists m1,
    (if p =? i then Ok t else swap_rows t i p) = Ok m1 /\
    rect m1 rows cols /\
    forall r c, entry (of_int 0) m1 r c =
      entry (of_int 0) t (if r =? i then p else if r =? p then i else r) c).
  { destruct (Nat.eqb_spec p i) as [->|Hpi].
    - exists t. split; [reflexivity|]. split; [assumption|].
      intros r c. destruct (Nat.eqb_spec r i) as [->|]; reflexivity.
    - apply (swap_rows_ok Ht); lia. }
  destruct Hswap as (m1 & Hsw & Hm1 & He1).
  exists p, m1. rewrite Hsw, bind_Ok.
  rewrite (mget_ok Hm1) by lia. rewrite bind_Ok.
  repeat (split; [first [assumption | reflexivity | lia]|]).
  destruct (fltb (fabs (entry (of_int 0) m1 i i)) tol) eqn:Hlt.
  - left. split; reflexivity.
  - right. split; [reflexivity|].
    pose proof (not_below_tol_nonzero _ Hlt) as Hnz.
    destruct (scale_row_ok Hm1 Hi Hic Hnz) as (m2 & Hsc & Hm2 & He2).
    destruct (eliminate_ok Hm2 Hi Hic) as (t' & Hel & Ht' & He').
    exists m2, t'. rewrite Hsc, bind_Ok.
    repeat (split; [first [assumption | reflexivity]|]). assumption.
Qed.

Section ReducingTwice.

Local Abbreviation ent := (@entry float (of_int 0)).

(** An entry the reducer deals with in full: a number (no infinity, no
    NaN) that is zero or exceeds the tolerance in magnitude, so that the
    turn that meets it in its column either leaves a zero or clears it. *)
Definition clean (x : float) : bool :=
  is_finite x && (is_zero x || fltb tol (fabs x)).

Definition clean_column (m : matrix float) (rows i : nat) : bool :=
  forallb (fun j => clean (ent m j i)) (seq 0 rows).

(** The turns [steps] of [gauss_jordan] from [m] on, each passing [check]
    on the matrix it starts from. *)
Fixpoint steps_pass (check : nat -> matrix float -> bool) (rows cols : nat)
  (steps : list nat) (m : matrix float) : bool :=
  match steps with
  | [] => true
  | i :: steps' =>
      check i m &&
      match gauss_jordan_step rows cols i m with
      | Ok m' => steps_pass check rows cols steps' m'
      | Raise _ => false
      end
  end.

(** A run of [gauss_jordan] on [m] in which every turn passes [check]. *)
Definition run_passes (check : nat -> nat -> nat -> matrix float -> bool)
  (m : matrix float) : bool :=
  match len_first m with
  | Ok cols =>
      steps_pass (check (length m) cols) (length m) cols
        (range 0 (Nat.min (length m) (cols - 1))) m
  | Raise _ => false
  end.

(** A run of [gauss_jordan] on [m] in which every turn finds its column
    clean. *)
Definition clean_run (m : matrix float) : bool :=
  run_passes (fun rows _ i t => clean_column t rows i) m.

(** Column [c] is a unit column: [1] on the diagonal, zero elsewhere. *)
Definition unit_column (m : matrix float) (rows c : nat) : Prop :=
  ent m c c = of_int 1 /\
  forall j, j < rows -> j <> c -> is_zero (ent m j c) = true.

(** Column [c] is zero from the diagonal down. *)
Definition null_from (m : matrix float) (rows c : nat) : Prop :=
  forall j, c <= j < rows -> is_zero (ent m j c) = true.

(** The first [k] columns are reduced: each is a unit column, or zero
    from the diagonal down. *)
Definition reduced_columns (m : matrix float) (rows k : nat) : Prop :=
  forall c, c < k -> unit_column m rows c \/ null_from m rows c.

(** The pivot search returns a row of largest magnitude. *)
Lemma find_pivot_max (m : matrix float) (rows cols i : nat) :
  rect m rows cols -> i < rows -> i < cols ->
  exists p, find_pivot m i rows = Ok p /\ i <= p < rows /\
    forall j, i <= j < rows ->
      fltb (fabs (ent m p i)) (fabs (ent m j i)) = false.
Proof.
  intros Hm Hi Hic. unfold find_pivot, range.
  destruct (for_each_seq_inv
    (fun k p => i <= p < rows /\
       forall j, i <= j < k ->
         fltb (fabs (ent m p i)) (fabs (ent m j i)) = false)
    (fun j pivot_row =>
       a <- mget m j i ;; b <- mget m pivot_row i ;;
       Ok (if fltb (fabs b) (fabs a) then j else pivot_row))
    (rows - (i + 1)) (i + 1) i) as (p & Hrun & Hp & Hmax).
  - split; [lia|]. intros j Hj. replace j with i by lia.
    apply abs_ltb_irrefl.
  - intros k q Hk [Hq Hbest].
    rewrite (mget_ok Hm) by lia. rewrite bind_Ok.
    rewrite (mget_ok Hm) by lia. rewrite bind_Ok.
    eexists; split; [reflexivity|].
    destruct (fltb (fabs (ent m q i)) (fabs (ent m k i))) eqn:Hlt.
    + split; [lia|]. intros j Hj.
      destruct (Nat.eq_dec j k) as [->|Hjk]; [apply abs_ltb_irrefl|].
      destruct (fltb (fabs (ent m k i)) (fabs (ent m j i))) eqn:Hkj;
        [|reflexivity].
      rewrite <- (Hbest j ltac:(lia)). symmetry.
      exact (@abs_ltb_trans _ _ _ Hlt Hkj).
    + split; [lia|]. intros j Hj.
      destruct (Nat.eq_dec j k) as [->|Hjk]; [assumption|].
      apply Hbest. lia.
  - exists p. split; [assumption|]. split; [assumption|].
    intros j Hj. apply Hmax. lia.
Qed.


(** A turn on a column that is already reduced changes nothing. *)
Lemma reduced_step_fixed (m : matrix float) (rows cols i : nat) :
  rect m rows cols -> i < rows -> i < cols ->
  unit_column m rows i \/ null_from m rows i ->
  gauss_jordan_step rows cols i m = Ok m.
Proof.
  intros Hm Hi Hic Hcol. unfold gauss_jordan_step.
  rewrite (@find_pivot_stays _ _ m rows cols i Hm Hi Hic).
  2:{ intros j Hj. apply null_never_larger.
      destruct Hcol as [[_ Hz]|Hz]; apply Hz; lia. }
  rewrite bind_Ok, Nat.eqb_refl, bind_Ok.
  rewrite (mget_ok Hm) by lia. rewrite bind_Ok.
  destruct (fltb (fabs (ent m i i)) tol) eqn:Hlt; [reflexivity|].
  assert (Hunit : unit_column m rows i).
  { destruct Hcol as [Hu|Hz]; [assumption|].
    rewrite null_below_tol in Hlt by (apply Hz; lia). discriminate. }
  destruct Hunit as [Hone Hz].
  destruct (@scale_row_ok _ _ m rows cols i Hm Hi Hic)
    as (m1 & Hrun1 & Hm1 & He1); [now apply not_below_tol_nonzero|].
  assert (m1 = m) as ->.
  { apply (rect_ext Hm1 Hm). intros r c Hr Hc. rewrite He1.
    destruct ((r =? i) && (c <? cols)) eqn:Hb; [|reflexivity].
    apply andb_true_iff in Hb. destruct Hb as [Hri _].
    apply Nat.eqb_eq in Hri. subst r. rewrite Hone. apply quot_one. }
  rewrite Hrun1, bind_Ok.
  destruct (@eliminate_ok _ _ m rows cols i Hm Hi Hic)
    as (m2 & Hrun2 & Hm2 & He2).
  rewrite Hrun2. f_equal. apply (rect_ext Hm2 Hm). intros r c Hr Hc.
  rewrite He2. destruct (Nat.eqb_spec r i) as [->|Hri].
  - now rewrite andb_false_r.
  - rewrite (@null_not_above_tol _ (Hz r Hr Hri)). now rewrite andb_false_r.
Qed.

(** [gauss_jordan] returns a matrix with reduced columns as it is. *)
Lemma gauss_jordan_reduced_fixed (m : matrix float) (rows cols : nat) :
  rect m rows cols -> 0 < rows ->
  reduced_columns m rows (Nat.min rows (cols - 1)) ->
  gauss_jordan m = Ok m.
Proof.
  intros Hm Hrows Hred. unfold gauss_jordan.
  rewrite (len_first_ok Hm Hrows), bind_Ok.
  replace (length m) with rows by (destruct Hm; congruence).
  rewrite range_0.
  destruct (for_each_seq_inv (fun _ mk => mk = m)
    (gauss_jordan_step rows cols) (Nat.min rows (cols - 1)) 0 m)
    as (m2 & Hm2 & ->); [reflexivity | | assumption].
  intros i mk Hi ->. exists m. split; [|reflexivity].
  apply reduced_step_fixed; [assumption | lia | lia |].
  apply Hred. lia.
Qed.

Lemma clean_spec (x : float) :
  clean x = true ->
  is_finite x = true /\ (is_zero x = true \/ fltb tol (fabs x) = true).
Proof.
  unfold clean. rewrite andb_true_iff, orb_true_iff. auto.
Qed.

(** A turn that finds its column clean leaves it reduced, and keeps the
    columns before it reduced. *)
Lemma clean_step_reduces (t : matrix float) (rows cols i : nat) :
  rect t rows cols -> i < rows -> i < cols ->
  reduced_columns t rows i -> clean_column t rows i = true ->
  exists t', gauss_jordan_step rows cols i t = Ok t' /\ rect t' rows cols /\
    reduced_columns t' rows (i + 1).
Proof.
  intros Ht Hi Hic Hred Hclean.
  assert (Hcl : forall j, j < rows -> clean (ent t j i) = true).
  { unfold clean_column in Hclean. rewrite forallb_forall in Hclean.
    intros j Hj. apply Hclean. apply in_seq. lia. }
  destruct (gauss_jordan_step_trace Ht Hi Hic)
    as (p & m1 & Hp & Hpr & _ & Hm1 & He1 & Hcases).
  destruct (find_pivot_max Ht Hi Hic) as (p' & Hp' & _ & Hmax).
  assert (p' = p) by congruence. subst p'.
  set (sw := fun r => if r =? i then p else if r =? p then i else r).
  assert (He1' : forall r c, ent m1 r c = ent t (sw r) c) by exact He1.
  clear He1.
  assert (Hsw : forall r, r < rows -> sw r < rows).
  { intros r Hr. unfold sw.
    destruct (r =? i); [lia|]. destruct (r =? p); lia. }
  assert (Hsw_low : forall r, r < i -> sw r = r).
  { intros r Hr. unfold sw. destruct (Nat.eqb_spec r i); [lia|].
    destruct (Nat.eqb_spec r p); [lia | reflexivity]. }
  assert (Hsw_high : forall r, i <= r -> i <= sw r).
  { intros r Hr. unfold sw. destruct (Nat.eqb_spec r i); [lia|].
    destruct (Nat.eqb_spec r p); lia. }
  assert (Hsw_i : sw i = p) by (unfold sw; now rewrite Nat.eqb_refl).
  assert (Hcl1 : forall j, j < rows -> clean (ent m1 j i) = true).
  { intros j Hj. rewrite He1'. apply Hcl. now apply Hsw. }
  assert (Hmax1 : forall j, i <= j < rows ->
            fltb (fabs (ent m1 i i)) (fabs (ent m1 j i)) = false).
  { intros j Hj. rewrite !He1', Hsw_i. apply Hmax.
    split; [apply Hsw_high | apply Hsw]; lia. }
  assert (Hred1 : reduced_columns m1 rows i).
  { intros c Hc. destruct (Hred c Hc) as [[Hone Hz]|Hz].
    - left. split.
      + rewrite He1', Hsw_low by lia. exact Hone.
      + intros j Hj Hjc. rewrite He1'. apply Hz; [now apply Hsw|].
        destruct (Nat.lt_ge_cases j i) as [Hlt|Hge].
        * now rewrite Hsw_low.
        * pose proof (Hsw_high j Hge). lia.
    - right. intros j Hj. rewrite He1'. apply Hz. split.
      + destruct (Nat.lt_ge_cases j i) as [Hlt|Hge].
        * rewrite Hsw_low; lia.
        * pose proof (Hsw_high j Hge). lia.
      + apply Hsw. lia. }
  destruct Hcases as [[Hlow Hrun]|(Hhigh & m2 & t' & _ & Hm2 & He2 & _ & Ht' &
                                     He' & Hrun)].
  - exists m1. split; [assumption|]. split; [assumption|].
    intros c Hc. destruct (Nat.eq_dec c i) as [->|Hci];
      [|apply Hred1; lia].
    right. intros j Hj.
    destruct (@clean_spec _ (Hcl1 j ltac:(lia))) as [_ [Hz|Hab]];
      [assumption|].
    pose proof (@below_above_tol _ _ Hlow Hab) as Hlt.
    rewrite Hmax1 in Hlt by lia. discriminate.
  - destruct (@clean_spec _ (Hcl1 i Hi)) as [Hfin Hpivot].
    assert (Hnz : is_zero (ent m1 i i) = false).
    { destruct (is_zero (ent m1 i i)) eqn:Hz; [|reflexivity].
      rewrite (@null_below_tol _ Hz) in Hhigh. discriminate. }
    assert (H2row : forall c, c < cols ->
              ent m2 i c = fquot (ent m1 i c) (ent m1 i i)).
    { intros c Hc. rewrite He2, Nat.eqb_refl.
      destruct (Nat.ltb_spec c cols); [reflexivity | lia]. }
    assert (H2other : forall r c, r <> i -> ent m2 r c = ent m1 r c).
    { intros r c Hr. rewrite He2.
      destruct (Nat.eqb_spec r i); [contradiction | reflexivity]. }
    assert (H2one : ent m2 i i = of_int 1).
    { rewrite H2row by assumption. now apply quot_self. }
    assert (Hrow_i : forall c, ent t' i c = ent m2 i c).
    { intros c. rewrite He', Nat.eqb_refl. now rewrite andb_false_r. }
    assert (Hkept : forall r c, r <> i ->
              fltb tol (fabs (ent m1 r i)) = false ->
              ent t' r c = ent m1 r c).
    { intros r c Hr Hab. rewrite He', (H2other r i Hr), Hab.
      rewrite andb_false_r. now apply H2other. }
    assert (Hcleared : forall r c, r < rows -> r <> i -> c < cols ->
              fltb tol (fabs (ent m1 r i)) = true ->
              ent t' r c =
                fsub (ent m1 r c) (fmul (ent m1 r i) (ent m2 i c))).
    { intros r c Hr Hri Hc Hab. rewrite He', !(H2other r _ Hri), Hab.
      destruct (Nat.ltb_spec r rows); [|lia].
      destruct (Nat.eqb_spec r i); [contradiction|].
      destruct (Nat.ltb_spec c cols); [reflexivity | lia]. }
    exists t'. split; [assumption|]. split; [assumption|].
    intros c Hc. destruct (Nat.eq_dec c i) as [->|Hci].
    + left. split.
      * now rewrite Hrow_i.
      * intros j Hj Hji.
        destruct (@clean_spec _ (Hcl1 j Hj)) as [Hfj _].
        destruct (fltb tol (fabs (ent m1 j i))) eqn:Hab.
        -- rewrite (Hcleared j i Hj Hji Hic Hab), H2one.
           rewrite (@mul_one _ Hfj). now apply sub_self.
        -- rewrite (Hkept j i Hji Hab).
           destruct (@clean_spec _ (Hcl1 j Hj)) as [_ [Hz|Hab']];
             [assumption | congruence].
    + assert (Hlt : c < i) by lia.
      assert (Hci' : c < cols) by lia.
      assert (Hnull_i : is_zero (ent m1 i c) = true).
      { destruct (Hred1 c Hlt) as [[_ Hz]|Hz]; apply Hz; lia. }
      assert (Hnull_2 : is_zero (ent m2 i c) = true).
      { rewrite H2row by assumption. now apply null_quot. }
      assert (Hstays : forall j, j < rows -> j <> i ->
                is_zero (ent m1 j c) = true -> is_zero (ent t' j c) = true).
      { intros j Hj Hji Hz.
        destruct (@clean_spec _ (Hcl1 j Hj)) as [Hfj _].
        destruct (fltb tol (fabs (ent m1 j i))) eqn:Hab.
        - rewrite (Hcleared j c Hj Hji Hci' Hab).
          apply null_sub; [assumption|]. now apply null_mul.
        - now rewrite (Hkept j c Hji Hab). }
      destruct (Hred1 c Hlt) as [[Hone Hz]|Hz].
      * left. split.
        -- destruct (@clean_spec _ (Hcl1 c ltac:(lia))) as [Hfc _].
           destruct (fltb tol (fabs (ent m1 c i))) eqn:Hab.
           ++ rewrite (Hcleared c c ltac:(lia) ltac:(lia) Hci' Hab), Hone.
              apply sub_null; [reflexivity|]. now apply null_mul.
           ++ now rewrite (Hkept c c ltac:(lia) Hab).
        -- intros j Hj Hjc. destruct (Nat.eq_dec j i) as [->|Hji].
           ++ now rewrite Hrow_i.
           ++ apply Hstays; [assumption | assumption |]. now apply Hz.
      * right. intros j Hj. destruct (Nat.eq_dec j i) as [->|Hji].
        -- now rewrite Hrow_i.
        -- apply Hstays; [lia | assumption |]. apply Hz. lia.
Qed.


(** A run of clean turns reduces the columns it works on. *)
Lemma clean_steps_reduce (rows cols n : nat) :
  forall (i : nat) (t : matrix float),
  rect t rows cols -> i + n <= rows -> i + n <= cols ->
  reduced_columns t rows i ->
  steps_pass (fun i t => clean_column t rows i) rows cols (seq i n) t = true ->
  exists t',
    for_each (seq i n) (gauss_jordan_step rows cols) t = Ok t' /\
    rect t' rows cols /\ reduced_columns t' rows (i + n).
Proof.
  induction n as [|n IH]; intros i t Ht Hr Hc Hred Hclean.
  - exists t. rewrite Nat.add_0_r. auto.
  - cbn [seq steps_pass] in Hclean. apply andb_true_iff in Hclean.
    destruct Hclean as [Hcol Hrest].
    destruct (@clean_step_reduces t rows cols i Ht ltac:(lia) ltac:(lia)
                Hred Hcol) as (t1 & Hstep & Ht1 & Hred1).
    rewrite Hstep in Hrest.
    replace (i + 1) with (S i) in Hred1 by lia.
    destruct (IH (S i) t1 Ht1 ltac:(lia) ltac:(lia) Hred1 Hrest)
      as (t' & Hrun & Ht' & Hred').
    exists t'. cbn [seq]. rewrite for_each_cons, Hstep, bind_Ok.
    split; [assumption|]. split; [assumption|].
    now replace (i + S n) with (S i + n) by lia.
Qed.

End ReducingTwice.

(** C7, as the program has it.  [gauss_jordan] is idempotent on the runs in
    which every entry it meets in the column of its turn is a number that
    is zero or exceeds the tolerance: such a run leaves each column it
    worked on as a unit column or as zeros from the diagonal down, and a
    second run changes nothing, bit for bit.  (An entry of magnitude at most
    [1e-10] that is not zero stays where it is and can move a pivot away
    from [1], as in the counterexample.) *)
Theorem gauss_jordan_clean_twice (m : matrix float) (rows cols : nat) :
  rect m rows cols -> 0 < rows -> clean_run m = true ->
  exists once,
    gauss_jordan m = Ok once /\
    reduced_columns once rows (Nat.min rows (cols - 1)) /\
    gauss_jordan once = Ok once.
Proof.
  intros Hm Hrows Hclean. unfold clean_run, run_passes in Hclean.
  rewrite (len_first_ok Hm Hrows) in Hclean.
  replace (length m) with rows in Hclean by (destruct Hm; congruence).
  rewrite range_0 in Hclean.
  destruct (@clean_steps_reduce rows cols (Nat.min rows (cols - 1)) 0 m Hm
              ltac:(lia) ltac:(lia) ltac:(intros c Hc; lia) Hclean)
    as (once & Hrun & Honce & Hred).
  exists once. split.
  - unfold gauss_jordan. rewrite (len_first_ok Hm Hrows), bind_Ok.
    replace (length m) with rows by (destruct Hm; congruence).
    now rewrite range_0.
  - split; [assumption|].
    now apply (@gauss_jordan_reduced_fixed once rows cols).
Qed.

(** C7 on the augmented matrix of [2x + 3y = 7], [x - y = 1]. *)
Lemma gauss_jordan_clean_twice_witness :
  exists once,
    gauss_jordan [[2; 3; 7]; [1; -1; 1]]%float = Ok once /\
    reduced_columns once 2 (Nat.min 2 (3 - 1)) /\
    gauss_jordan once = Ok once.
Proof.
  apply (@gauss_jordan_clean_twice [[2; 3; 7]; [1; -1; 1]]%float 2 3).
  - split; [reflexivity|]. repeat constructor.
  - lia.
  - vm_compute. reflexivity.
Defined.

(** The run of the counterexample is not of this kind: its first turn meets
    [1e-11] in the column it works on. *)
Lemma residue_run_not_clean :
  clean_run [[1; 1; 1000]; [tiny; 1; 0]]%float = false.
Proof. vm_compute. reflexivity. Qed.


(** ** Dictionaries built from distinct keys *)

Lemma dict_get_set_eq {F : Type} (d : dict F) (k : string) (v : F) :
  dict_get (dict_set d k v) k = Some v.
Proof.
  induction d as [|[k' v'] d IH]; simpl.
  - now rewrite String.eqb_refl.
  - destruct (String.eqb_spec k' k) as [->|Hne]; simpl.
    + now rewrite String.eqb_refl.
    + destruct (String.eqb_spec k' k); [congruence | assumption].
Qed.

Lemma dict_get_set_neq {F : Type} (d : dict F) (k k' : string) (v : F) :
  k <> k' -> dict_get (dict_set d k v) k' = dict_get d k'.
Proof.
  intros Hne. induction d as [|[k0 v0] d IH]; simpl.
  - destruct (String.eqb_spec k k'); [congruence | reflexivity].
  - destruct (String.eqb_spec k0 k) as [->|Hk]; simpl.
    + destruct (String.eqb_spec k k'); [congruence | reflexivity].
    + destruct (String.eqb_spec k0 k'); [reflexivity | assumption].
Qed.

Lemma dict_fold_other {F : Type} (pairs : list (string * F)) (k : string) :
  ~ In k (map fst pairs) ->
  forall d,
  dict_get (fold_left (fun d kv => dict_set d (fst kv) (snd kv)) pairs d) k =
    dict_get d k.
Proof.
  induction pairs as [|[k' v'] pairs IH]; intros Hk d; simpl; [reflexivity|].
  rewrite IH by (intros Hin; apply Hk; now right).
  apply dict_get_set_neq. intros ->. apply Hk. now left.
Qed.

Lemma dict_fold_lookup {F : Type} (pairs : list (string * F)) (k : string)
  (v : F) :
  NoDup (map fst pairs) -> In (k, v) pairs ->
  forall d,
  dict_get (fold_left (fun d kv => dict_set d (fst kv) (snd kv)) pairs d) k =
    Some v.
Proof.
  induction pairs as [|[k' v'] pairs IH]; intros Hnd Hin d;
    [contradiction|].
  simpl in Hnd. inversion Hnd as [|? ? Hnotin Hnd']; subst. simpl.
  destruct Hin as [[= -> ->]|Hin].
  - rewrite dict_fold_other by assumption. apply dict_get_set_eq.
  - now apply IH.
Qed.

Lemma combine_keys_nodup {B : Type} (ks : list string) (vs : list B) :
  NoDup ks -> NoDup (map fst (combine ks vs)).
Proof.
  intros Hnd. revert vs. induction Hnd as [|k ks Hk Hnd IH]; intros vs;
    [constructor|].
  destruct vs as [|v vs]; simpl; constructor.
  - intros Hin. apply Hk. apply in_map_iff in Hin.
    destruct Hin as ([k' v'] & <- & Hin). now apply in_combine_l in Hin.
  - apply IH.
Qed.

Lemma in_combine_nth {A B : Type} (l : list A) (l' : list B) (c : nat)
  (a : A) (b : B) :
  c < length l -> c < length l' -> In (nth c l a, nth c l' b) (combine l l').
Proof.
  revert l' c. induction l as [|x l IH]; intros [|y l'] [|c]; simpl;
    intros Hc Hc'; try lia; [now left|].
  right. apply IH; lia.
Qed.

(** [dict(zip(var_order, ret))] gives each variable the value of its own
    position. *)
Lemma dict_of_combine {F : Type} (d0 : F) (vo : list string) (ret : list F)
  (c : nat) :
  NoDup vo -> c < length vo -> c < length ret ->
  dict_get (dict_of (combine vo ret)) (nth c vo EmptyString) =
    Some (nth c ret d0).
Proof.
  intros Hnd Hc Hc'. unfold dict_of. apply dict_fold_lookup.
  - now apply combine_keys_nodup.
  - now apply in_combine_nth.
Qed.

Lemma index_nth (l : list string) (x : string) (n : nat) :
  index l x = Ok n -> n < length l /\ nth n l EmptyString = x.
Proof.
  revert n. induction l as [|y l IH]; intros n; simpl; [discriminate|].
  destruct (String.eqb_spec y x) as [->|Hne].
  - intros [= <-]. split; [lia | reflexivity].
  - intros Hb. apply bind_ok in Hb. destruct Hb as (k & Hk & [= <-]).
    destruct (IH k Hk). split; [lia | assumption].
Qed.

Lemma Forall2_nth {A B : Type} (P : A -> B -> Prop) (l : list A)
  (l' : list B) (r : nat) (a : A) (b : B) :
  Forall2 P l l' -> r < length l -> P (nth r l a) (nth r l' b).
Proof.
  intros Hall. revert r. induction Hall as [|x y l l' Hxy _ IH];
    intros [|r] Hr; simpl in *; try lia; [assumption|].
  apply IH. lia.
Qed.

Lemma check_rank_le_rows {F : Type} `{Number F} (m : matrix F)
  (rows cols rank : nat) :
  rect m rows cols -> check_rank m = Ok rank -> rank <= rows.
Proof.
  intros Hm Hrank. rewrite (check_rank_ok Hm) in Hrank.
  injection Hrank as <-. destruct (_ && _); [|lia].
  pose proof (@rank_columns_bound _ _ rows cols (seq 0 cols)
                (entry (of_int 0) m) 0 (Nat.le_0_l _)) as Hb.
  cbv zeta in Hb. lia.
Qed.

Lemma augment_last {F : Type} `{Number F} (A : matrix F) (B : list F)
  (cols r : nat) :
  Forall (fun row => length row = cols) A -> length B = length A ->
  r < length A ->
  entry (of_int 0) (augment A B) r cols = nth r B (of_int 0).
Proof.
  intros Hall. revert B r. induction Hall as [|row A Hrow HA IH];
    intros B r HB Hr; [simpl in Hr; lia|].
  destruct B as [|b B]; [discriminate|]. destruct r as [|r].
  - unfold entry, augment. simpl. rewrite app_nth2 by lia.
    now rewrite Hrow, Nat.sub_diag.
  - apply (IH B r); simpl in *; lia.
Qed.


(** * Systems classified as having a unique solution *)

(** The solver classifies the system as having a unique solution. *)
Definition classified_unique {F : Type} `{Number F}
  (eqs : list (equation F)) : bool :=
  match solve_parsed eqs with
  | Ok (UniqueSolution _) => true
  | _ => false
  end.


(** The value column of a matrix, read row by row, holds its entries of the
    last column. *)
Lemma last_column_entry {F : Type} `{Number F} (R : matrix F)
  (rows n k : nat) :
  rect R rows (n + 1) -> k < rows ->
  nth k (map (fun row => last row (of_int 0)) R) (of_int 0) =
    entry (of_int 0) R k n.
Proof.
  intros [Hlen Hall] Hk.
  change (of_int 0) with ((fun row : list F => last row (of_int 0)) []) at 2.
  rewrite map_nth. unfold entry. rewrite <- nth_pred_length.
  rewrite Forall_forall in Hall.
  rewrite (Hall (nth k R [])) by (apply nth_In; lia).
  f_equal. lia.
Qed.

(** * Further properties of the solver *)

(** ** The three branches, unfolded *)

(** On a system whose matrix is built, the solver is the choice of lines
    196-206 between the three return statements, made on the reduced
    matrix. *)
Lemma solve_with_order_branches {F : Type} `{Number F}
  (var_order : list string) (eqs : list (equation F)) :
  eqs <> [] -> covers var_order eqs ->
  exists R rA rAB,
    reduced_system var_order eqs = Ok R /\
    rect R (length eqs) (length var_order + 1) /\
    check_rank (map (@removelast F) R) = Ok rA /\
    check_rank R = Ok rAB /\
    solve_with_order var_order eqs =
      (if negb (rA =? rAB) then Ok NoSolution
       else if rA <? length var_order then
         _generate_infinite_solutions (map (@removelast F) R) R var_order
       else Ok (UniqueSolution
                  (dict_of (combine var_order
                              (map (fun row => last row (of_int 0)) R))))).
Proof.
  intros Hne Hcov.
  destruct (reduced_system_ok Hne Hcov) as (R & HR & Hrect).
  assert (Hrows : 0 < length eqs) by (destruct eqs; [congruence | simpl; lia]).
  pose proof (@removelast_rect _ R (length eqs) (length var_order) Hrect)
    as Hcoef.
  pose proof (check_rank_ok Hcoef) as HrA.
  pose proof (check_rank_ok Hrect) as HrAB.
  eexists R, _, _. split; [exact HR|]. split; [exact Hrect|].
  split; [exact HrA|]. split; [exact HrAB|].
  unfold solve_with_order. unfold reduced_system in HR.
  destruct (build_matrix var_order eqs) as [[A B]|]; [|discriminate].
  cbn [bind] in HR |- *. rewrite HR, bind_Ok.
  rewrite (@last_column_ok _ _ R (length eqs) (length var_order) Hrect),
    bind_Ok.
  cbn [app]. rewrite HrA, bind_Ok, HrAB, bind_Ok.
  rewrite (len_first_ok Hcoef Hrows), bind_Ok. reflexivity.
Qed.

(** ** Fewer equations than variables *)

(** X1.  A system with fewer equations than variables is never reported to
    have a unique solution: the solver returns, and what it returns is the
    empty answer of an inconsistent system or the record of infinitely many
    solutions. *)
Theorem underdetermined_never_unique {F : Type} `{Number F}
  (eqs : list (equation F)) :
  eqs <> [] ->
  length eqs < length (sorted (all_vars eqs)) ->
  exists out,
    solve_parsed eqs = Ok out /\ kind_of out <> KUniqueSolution.
Proof.
  intros Hne Hfew. unfold solve_parsed.
  destruct (solve_with_order_ok Hne (covers_sorted_all_vars eqs))
    as (R & rA & rAB & out & HR & Hrect & HrA & HrAB & Hle & Hsolve &
        Hno & Hinf & Huniq).
  exists out. split; [assumption|].
  assert (Hrank : rA <= length eqs).
  { apply (@check_rank_le_rows _ _ (map (@removelast F) R) (length eqs)
             (length (sorted (all_vars eqs))) rA); [|assumption].
    now apply removelast_rect. }
  destruct (Nat.eq_dec rA rAB) as [Heq|Hneq].
  - rewrite Hinf by lia. discriminate.
  - rewrite (Hno Hneq). discriminate.
Qed.

(** X1 on the single equation [x + y + z = 5]. *)
Lemma underdetermined_never_unique_witness :
  exists out,
    solve_parsed
      [([mkTerm 1%float "x"%string ADD; mkTerm 1%float "y"%string ADD;
         mkTerm 1%float "z"%string ADD], 5%float)] = Ok out /\
    kind_of out <> KUniqueSolution.
Proof.
  apply (@underdetermined_never_unique float Binary64.float_number
           [([mkTerm 1%float "x"%string ADD; mkTerm 1%float "y"%string ADD;
              mkTerm 1%float "z"%string ADD], 5%float)]).
  - discriminate.
  - vm_compute. lia.
Defined.

(** ** The mapping of a unique solution *)

Lemma dict_get_none_keys {F : Type} (d : dict F) (k : string) :
  ~ In k (map fst d) -> dict_get d k = None.
Proof.
  induction d as [|[k' v'] d IH]; intros Hk; simpl; [reflexivity|].
  destruct (String.eqb_spec k' k) as [->|Hne].
  - exfalso. apply Hk. now left.
  - apply IH. intros Hin. apply Hk. now right.
Qed.

(** A new key goes to the end of the dictionary. *)
Lemma dict_set_new {F : Type} (d : dict F) (k : string) (v : F) :
  ~ In k (map fst d) -> dict_set d k v = d ++ [(k, v)].
Proof.
  induction d as [|[k' v'] d IH]; intros Hk; simpl; [reflexivity|].
  destruct (String.eqb_spec k' k) as [->|Hne].
  - exfalso. apply Hk. now left.
  - rewrite IH; [reflexivity|]. intros Hin. apply Hk. now right.
Qed.

Lemma dict_fold_distinct {F : Type} (pairs : list (string * F)) :
  NoDup (map fst pairs) ->
  forall d, (forall k, In k (map fst pairs) -> ~ In k (map fst d)) ->
  fold_left (fun d kv => dict_set d (fst kv) (snd kv)) pairs d = d ++ pairs.
Proof.
  induction pairs as [|[k v] pairs IH]; intros Hnd d Hfresh; simpl.
  - now rewrite app_nil_r.
  - simpl in Hnd. inversion Hnd as [|? ? Hnotin Hnd']; subst.
    rewrite dict_set_new by (apply Hfresh; now left).
    rewrite IH; [now rewrite <- app_assoc | assumption |].
    intros k' Hk'. rewrite map_app, in_app_iff. simpl. intros [Hin|[<-|[]]].
    + apply (Hfresh k'); [now right | assumption].
    + contradiction.
Qed.

(** [dict(pairs)] of pairs with distinct keys holds the pairs, in their
    order. *)
Lemma dict_of_distinct {F : Type} (pairs : list (string * F)) :
  NoDup (map fst pairs) -> dict_of pairs = pairs.
Proof.
  intros Hnd. unfold dict_of.
  pose proof (@dict_fold_distinct F pairs Hnd []) as Hfold.
  apply Hfold. intros k _ [].
Qed.

Lemma keys_combine {B : Type} (ks : list string) (vs : list B) :
  length ks <= length vs -> map fst (combine ks vs) = ks.
Proof.
  revert vs. induction ks as [|k ks IH]; intros [|v vs]; simpl; intros Hlen;
    try lia; try reflexivity. f_equal. apply IH. lia.
Qed.

Lemma sorted_all_vars_nodup {F : Type} `{Number F} (eqs : list (equation F)) :
  NoDup (sorted (all_vars eqs)).
Proof.
  apply (Permutation_NoDup (Permutation_sym (sorted_perm _))).
  apply all_vars_spec.
Qed.

(** X2.  The mapping of a unique solution is read off the reduced
    matrix: its keys are the variables in column order, each one once, and
    the value of the variable of column [k] is the last entry of reduced
    row [k].  Rows past the variables are not looked at. *)
Theorem unique_solution_mapping {F : Type} `{Number F}
  (eqs : list (equation F)) (values : dict F) :
  solve_parsed eqs = Ok (UniqueSolution values) ->
  exists R,
    reduced_system (sorted (all_vars eqs)) eqs = Ok R /\
    length (sorted (all_vars eqs)) <= length R /\
    values =
      combine (sorted (all_vars eqs))
        (map (fun row => last row (of_int 0)) R) /\
    map fst values = sorted (all_vars eqs).
Proof.
  intros Hrun.
  assert (Hne : eqs <> []).
  { intros ->. cbv in Hrun. discriminate. }
  unfold solve_parsed in Hrun.
  pose proof (sorted_all_vars_nodup eqs) as Hnd.
  destruct (solve_with_order_branches Hne (covers_sorted_all_vars eqs))
    as (R & rA & rAB & HR & Hrect & HrA & HrAB & Hsolve).
  set (vo := sorted (all_vars eqs)) in *. clearbody vo.
  rewrite Hsolve in Hrun.
  destruct (negb (rA =? rAB)); [discriminate|].
  destruct (Nat.ltb_spec rA (length vo)) as [Hlt|Hge].
  - destruct (@generate_infinite_solutions_ok _ _ (map (@removelast F) R) R
                vo (length eqs)) as (b & f & ex & Hgen);
      [now apply removelast_rect | assumption |].
    rewrite Hgen in Hrun. discriminate.
  - injection Hrun as <-.
    assert (Hrank : rA <= length eqs).
    { apply (@check_rank_le_rows _ _ (map (@removelast F) R) (length eqs)
               (length vo) rA); [|assumption].
      now apply removelast_rect. }
    assert (Hlen : length vo <= length R) by (destruct Hrect as [-> _]; lia).
    exists R. split; [assumption|]. split; [assumption|].
    rewrite dict_of_distinct by now apply combine_keys_nodup.
    split; [reflexivity|].
    apply keys_combine. now rewrite length_map.
Qed.

(** The system [2x + 3y = 7], [x - y = 1] of the program's first
    demonstration, on floats. *)
Definition two_by_two_system : list (equation float) :=
  [([mkTerm 2%float "x"%string ADD; mkTerm 3%float "y"%string ADD], 7%float);
   ([mkTerm 1%float "x"%string ADD; mkTerm 1%float "y"%string SUB], 1%float)].

(** X2 on [2x + 3y = 7], [x - y = 1], whose answer is
    [{x: 2.0, y: 1.0}]. *)
Lemma unique_solution_mapping_witness :
  exists R,
    reduced_system (sorted (all_vars two_by_two_system)) two_by_two_system =
      Ok R /\
    length (sorted (all_vars two_by_two_system)) <= length R /\
    [("x"%string, 2%float); ("y"%string, 1%float)] =
      combine (sorted (all_vars two_by_two_system))
        (map (fun row => last row (of_int 0)) R) /\
    map fst [("x"%string, 2%float); ("y"%string, 1%float)] =
      sorted (all_vars two_by_two_system).
Proof.
  apply (@unique_solution_mapping float Binary64.float_number
           two_by_two_system [("x"%string, 2%float); ("y"%string, 1%float)]).
  vm_compute. reflexivity.
Defined.

(** ** Rank zero *)

Lemma first_index_all_false (q : nat -> bool) (n lo : nat) :
  (forall j, lo <= j < lo + n -> q j = false) -> first_index q lo n = None.
Proof.
  revert lo; induction n as [|n IH]; intros lo Hq; simpl; [reflexivity|].
  rewrite Hq by lia. apply IH. intros j Hj. apply Hq. lia.
Qed.

Section RankZero.
Context {F : Type} `{Number F}.

Local Abbreviation ent := (entry (of_int 0)).

(** No entry of the columns [cs] exceeds the tolerance: the loop of
    [check_rank] finds no pivot and leaves its state alone. *)
Lemma rank_columns_none (rows cols : nat) (cs : list nat)
  (e : nat -> nat -> F) :
  (forall r c, r < rows -> In c cs -> fltb tol (fabs (e r c)) = false) ->
  rank_columns rows cols cs (e, 0) = (e, 0).
Proof.
  induction cs as [|c cs IH]; intros Hall; [reflexivity|].
  rewrite rank_columns_cons. unfold rank_step_entries.
  rewrite first_index_all_false.
  - apply IH. intros r c' Hr Hc'. apply Hall; [assumption | now right].
  - intros j Hj. apply Hall; [lia | now left].
Qed.

(** An entry of the columns [cs] exceeds the tolerance: a pivot is found. *)
Lemma rank_columns_some (rows cols : nat) (cs : list nat)
  (e : nat -> nat -> F) (r c : nat) :
  r < rows -> In c cs -> fltb tol (fabs (e r c)) = true ->
  1 <= snd (rank_columns rows cols cs (e, 0)).
Proof.
  intros Hr. induction cs as [|c0 cs IH]; intros Hc Hab; [contradiction|].
  rewrite rank_columns_cons.
  destruct (first_index (fun r => fltb tol (fabs (e r c0))) 0 (rows - 0))
    as [p|] eqn:Hf.
  - unfold rank_step_entries. rewrite Hf.
    match goal with
    | |- 1 <= snd (rank_columns _ _ _ (?e1, _)) =>
        pose proof (@rank_columns_bound _ _ rows cols cs e1 (0 + 1)) as Hb
    end.
    cbv zeta in Hb. apply first_index_some in Hf. lia.
  - unfold rank_step_entries. rewrite Hf.
    destruct Hc as [->|Hc]; [|now apply IH].
    pose proof (@first_index_none _ _ _ Hf r) as Hnone. cbv beta in Hnone.
    rewrite Hnone in Hab by lia. discriminate.
Qed.

Lemma within_entries (m : matrix F) (rows cols : nat) :
  rect m rows cols ->
  Forall (Forall (fun x => fltb tol (fabs x) = false)) m <->
  (forall r c, r < rows -> c < cols -> fltb tol (fabs (ent m r c)) = false).
Proof.
  intros Hm. split.
  - intros Hall r c Hr Hc. rewrite Forall_forall in Hall.
    assert (Hrow : In (nth r m []) m) by (apply nth_In; destruct Hm; lia).
    specialize (Hall _ Hrow). rewrite Forall_forall in Hall.
    apply Hall. apply nth_In. now rewrite (rect_row_length Hm Hr).
  - intros Hent. apply Forall_forall. intros row Hrow.
    apply Forall_forall. intros x Hx.
    destruct (In_nth _ _ [] Hrow) as (r & Hr & <-).
    assert (Hr' : r < rows) by (destruct Hm; lia).
    destruct (In_nth _ _ (of_int 0) Hx) as (c & Hc & <-).
    rewrite (rect_row_length Hm Hr') in Hc. now apply Hent.
Qed.

End RankZero.

Lemma check_rank_zero_spec {F : Type} `{Number F} (m : matrix F)
  (rows cols : nat) :
  rect m rows cols ->
  (check_rank m = Ok 0 <->
   forall r c, r < rows -> c < cols ->
     fltb tol (fabs (entry (of_int 0) m r c)) = false).
Proof.
  intros Hm. rewrite (check_rank_ok Hm).
  destruct (Nat.ltb_spec 0 rows) as [Hrows|Hrows]; cbn [andb].
  2:{ split; [intros _ r c Hr; lia | reflexivity]. }
  destruct (Nat.ltb_spec 0 cols) as [Hcols|Hcols].
  2:{ split; [intros _ r c _ Hc; lia | reflexivity]. }
  split.
  - intros Hrank r c Hr Hc.
    destruct (fltb tol (fabs (entry (of_int 0) m r c))) eqn:Hab;
      [|reflexivity].
    pose proof (@rank_columns_some _ _ rows cols (seq 0 cols)
                  (entry (of_int 0) m) r c Hr) as Hone.
    rewrite in_seq in Hone. specialize (Hone ltac:(lia) Hab).
    injection Hrank as Hrank. lia.
  - intros Hall. rewrite rank_columns_none; [reflexivity|].
    intros r c Hr Hc. apply in_seq in Hc. apply Hall; lia.
Qed.

(** X3.  On a rectangular matrix [check_rank] returns [0] exactly
    when no entry exceeds the tolerance [1e-10] in magnitude. *)
Theorem check_rank_zero_iff {F : Type} `{Number F} (m : matrix F)
  (rows cols : nat) :
  rect m rows cols ->
  (check_rank m = Ok 0 <->
   Forall (Forall (fun x => fltb tol (fabs x) = false)) m).
Proof.
  intros Hm. rewrite (within_entries Hm). now apply check_rank_zero_spec.
Qed.

(** X3 on a matrix of entries at or below the tolerance. *)
Lemma check_rank_zero_iff_witness :
  check_rank [[0; tolerance]; [tiny; 0]]%float = Ok 0 <->
  Forall (Forall (fun x => fltb tol (fabs x) = false))
    [[0; tolerance]; [tiny; 0]]%float.
Proof.
  apply (@check_rank_zero_iff float Binary64.float_number
           [[0; tolerance]; [tiny; 0]]%float 2 2).
  split; [reflexivity|]. repeat constructor.
Defined.

(** ** A system without variables *)

Lemma all_vars_no_terms {F : Type} `{Number F} (eqs : list (equation F)) :
  (forall e, In e eqs -> fst e = []) -> all_vars eqs = [].
Proof.
  unfold all_vars. generalize (@nil string) as s.
  induction eqs as [|e eqs IH]; intros s Hterms; [reflexivity|].
  cbn [fold_left]. rewrite (Hterms e (or_introl eq_refl)). cbn [fold_left].
  apply IH. intros e' He'. apply Hterms. now right.
Qed.

(** A matrix of one column is left as it is: the loop of line 83 runs
    over [range(min(rows, 0))]. *)
Lemma gauss_jordan_one_column {F : Type} `{Number F} (m : matrix F)
  (rows : nat) :
  rect m rows 1 -> 0 < rows -> gauss_jordan m = Ok m.
Proof.
  intros Hm Hrows. unfold gauss_jordan.
  rewrite (len_first_ok Hm Hrows), bind_Ok.
  now rewrite Nat.sub_diag, Nat.min_0_r.
Qed.

Lemma no_variables_branch {F : Type} `{Number F} (eqs : list (equation F)) :
  eqs <> [] -> (forall e, In e eqs -> fst e = []) ->
  solve_with_order [] eqs =
    Ok (if existsb (fun e => fltb tol (fabs (snd e))) eqs
        then NoSolution else UniqueSolution []).
Proof.
  intros Hne Hterms.
  assert (Hcov : covers [] eqs).
  { intros e t He Ht. rewrite (Hterms e He) in Ht. destruct Ht. }
  assert (Hrows : 0 < length eqs) by (destruct eqs; [congruence | simpl; lia]).
  destruct (solve_with_order_branches Hne Hcov)
    as (R & rA & rAB & HR & Hrect & HrA & HrAB & Hsolve).
  cbn [length Nat.add] in Hrect, Hsolve.
  rewrite Hsolve. clear Hsolve.
  assert (HrA0 : rA = 0).
  { pose proof (@removelast_rect _ R (length eqs) 0 Hrect) as Hcoef.
    rewrite (check_rank_ok Hcoef) in HrA. rewrite andb_false_r in HrA.
    congruence. }
  subst rA.
  unfold reduced_system in HR.
  destruct (build_matrix_ok Hcov) as (A & HA & [HAlen HAall] & _).
  rewrite HA, bind_Ok in HR.
  assert (HAB : rect (augment A (map snd eqs)) (length eqs) 1).
  { apply (@augment_rect _ A (map snd eqs) (length eqs) 0);
      [split; assumption | apply length_map]. }
  rewrite (gauss_jordan_one_column HAB Hrows) in HR. injection HR as <-.
  assert (Hent : forall r, r < length eqs ->
            entry (of_int 0) (augment A (map snd eqs)) r 0 =
              snd (nth r eqs ([], of_int 0))).
  { intros r Hr.
    rewrite (@augment_last _ _ A (map snd eqs) 0 r HAall);
      [| rewrite length_map; symmetry; exact HAlen | rewrite HAlen; exact Hr].
    change (of_int 0) with (snd (([], of_int 0) : equation F)) at 1.
    apply map_nth. }
  pose proof (check_rank_zero_spec HAB) as Hzero.
  destruct (existsb (fun e => fltb tol (fabs (snd e))) eqs) eqn:Hex.
  - apply existsb_exists in Hex. destruct Hex as (e & He & Hab).
    destruct (In_nth _ _ ([], of_int 0) He) as (r & Hr & Hnth).
    destruct rAB as [|k]; [|reflexivity].
    pose proof (proj1 Hzero HrAB r 0 Hr Nat.lt_0_1) as Hw.
    rewrite (Hent r Hr) in Hw.
    assert (Hw' : fltb tol (fabs (snd e)) = false) by (now rewrite <- Hnth).
    congruence.
  - assert (Hall : forall r c, r < length eqs -> c < 1 ->
              fltb tol (fabs (entry (of_int 0) (augment A (map snd eqs)) r c))
                = false).
    { intros r c Hr Hc. replace c with 0 by lia. rewrite (Hent r Hr).
      destruct (fltb tol (fabs (snd (nth r eqs ([], of_int 0))))) eqn:Hab;
        [|reflexivity].
      assert (Htrue : existsb (fun e => fltb tol (fabs (snd e))) eqs = true).
      { apply existsb_exists. exists (nth r eqs ([], of_int 0)).
        split; [now apply nth_In | assumption]. }
      congruence. }
    rewrite (proj2 Hzero Hall) in HrAB. injection HrAB as <-. reflexivity.
Qed.

(** X4.  A system in which no equation has a term has no column to
    reduce.  It is inconsistent as soon as one right-hand side exceeds the
    tolerance; otherwise the branch of the unique solution is taken and the
    mapping is empty.  ([return {}] and [dict(zip([], ret))]: the caller
    receives the same empty mapping from either branch.) *)
Theorem no_variables_outcome {F : Type} `{Number F}
  (eqs : list (equation F)) :
  eqs <> [] -> (forall e, In e eqs -> fst e = []) ->
  solve_parsed eqs =
    Ok (if existsb (fun e => fltb tol (fabs (snd e))) eqs
        then NoSolution else UniqueSolution []).
Proof.
  intros Hne Hterms. unfold solve_parsed.
  rewrite (all_vars_no_terms eqs Hterms). now apply no_variables_branch.
Qed.

(** X4 on the right-hand sides [0] and [5]. *)
Lemma no_variables_outcome_witness :
  solve_parsed [(@nil (Term float), 0%float); ([], 5%float)] =
    Ok (if existsb (fun e => fltb tol (fabs (snd e)))
             [(@nil (Term float), 0%float); ([], 5%float)]
        then NoSolution else UniqueSolution []).
Proof.
  apply (@no_variables_outcome float Binary64.float_number
           [(@nil (Term float), 0%float); ([], 5%float)]).
  - discriminate.
  - intros e [<-|[<-|[]]]; reflexivity.
Defined.

(** ** The order of the columns *)

Lemma insert_sorted_sorted (x : string) (l : list string) :
  StronglySorted (fun a b => String.leb a b = true) l ->
  StronglySorted (fun a b => String.leb a b = true) (insert_sorted x l).
Proof.
  induction 1 as [|y l Hl IH Hy]; simpl.
  - constructor; constructor.
  - destruct (String.leb x y) eqn:Hxy.
    + constructor; [now constructor|]. constructor; [assumption|].
      rewrite Forall_forall in *. intros z Hz.
      apply (leb_trans _ _ _ Hxy). now apply Hy.
    + constructor; [assumption|]. rewrite Forall_forall in *. intros z Hz.
      apply (Permutation_in _ (insert_sorted_perm x l)) in Hz.
      destruct Hz as [<-|Hz]; [now apply leb_false_flip | now apply Hy].
Qed.

Lemma sorted_sorted (l : list string) :
  StronglySorted (fun a b => String.leb a b = true) (sorted l).
Proof.
  induction l as [|x l IH]; simpl; [constructor|].
  now apply insert_sorted_sorted.
Qed.

Lemma strongly_sorted_nth (l : list string) (i j : nat) :
  StronglySorted (fun a b => String.leb a b = true) l ->
  i < j -> j < length l ->
  String.leb (nth i l EmptyString) (nth j l EmptyString) = true.
Proof.
  intros Hl. revert i j. induction Hl as [|y l Hl IH Hy]; intros i j Hij Hj;
    [simpl in Hj; lia|].
  destruct j as [|j]; [lia|]. simpl in Hj. destruct i as [|i]; simpl.
  - rewrite Forall_forall in Hy. apply Hy. apply nth_In. lia.
  - apply IH; lia.
Qed.

Lemma leb_neq_ltb (a b : string) :
  String.leb a b = true -> a <> b -> String.ltb a b = true.
Proof.
  unfold String.leb, String.ltb. intros Hle Hne.
  destruct (String.compare a b) eqn:Hc; try discriminate; [|reflexivity].
  apply String.compare_eq_iff in Hc. contradiction.
Qed.

(** X5.  The columns of the matrix are the variables of the system,
    each one once, in strictly increasing order of their names ([sorted] of
    a [set] of [str]: by code point, a proper prefix first). *)
Theorem var_order_strictly_increasing {F : Type} `{Number F}
  (eqs : list (equation F)) :
  (forall i j, i < j -> j < length (sorted (all_vars eqs)) ->
     String.ltb (nth i (sorted (all_vars eqs)) EmptyString)
                (nth j (sorted (all_vars eqs)) EmptyString) = true) /\
  (forall y, In y (sorted (all_vars eqs)) <->
     exists e t, In e eqs /\ In t (fst e) /\ variable t = y).
Proof.
  split.
  - intros i j Hij Hj. apply leb_neq_ltb.
    + apply strongly_sorted_nth; [apply sorted_sorted | assumption..].
    + intros Heq.
      pose proof (sorted_all_vars_nodup eqs) as Hnd.
      rewrite (NoDup_nth _ EmptyString) in Hnd.
      specialize (Hnd i j ltac:(lia) Hj Heq). lia.
  - intros y. rewrite <- variables_of_in.
    rewrite <- (proj2 (all_vars_spec eqs) y). split; intros Hy.
    + now apply (Permutation_in _ (sorted_perm _)).
    + now apply (Permutation_in _ (Permutation_sym (sorted_perm _))).
Qed.

(** ** [gauss_jordan] returns *)

(** X6.  On a matrix without rows [gauss_jordan] raises
    [IndexError] ([matrix[0]]); on every rectangular matrix with a row it
    returns, whatever the entries, and the matrix keeps its shape.  The pivot
    by which line 101 divides has passed the test of line 95, so no
    division raises. *)
Theorem gauss_jordan_returns {F : Type} `{Number F} (m : matrix F)
  (rows cols : nat) :
  gauss_jordan (@nil (list F)) = Raise IndexError /\
  (rect m rows cols -> 0 < rows ->
   exists m', gauss_jordan m = Ok m' /\ rect m' rows cols).
Proof.
  split; [reflexivity|]. apply gauss_jordan_ok.
Qed.

(** * The record of infinitely many solutions *)

(** A loop that returns has kept what its body keeps. *)
Lemma for_each_post {A St : Type} (P : St -> Prop)
  (body : A -> St -> result St) (xs : list A) (s s' : St) :
  for_each xs body s = Ok s' -> P s ->
  (forall x t t', In x xs -> P t -> body x t = Ok t' -> P t') -> P s'.
Proof.
  revert s; induction xs as [|x xs IH]; simpl; intros s Hrun H0 Hstep.
  - injection Hrun as <-. assumption.
  - apply bind_ok in Hrun. destruct Hrun as (s1 & Hb & Hrest).
    apply (IH s1 Hrest).
    + apply (Hstep x s s1); [now left | assumption | assumption].
    + intros y t t' Hy. apply Hstep. now right.
Qed.

(** A loop that appends one result a turn returns the results in order. *)
Lemma for_each_collect {A B : Type} (g : A -> result B) (xs : list A) :
  forall acc ex,
  for_each xs (fun x acc => s <- g x ;; Ok (acc ++ [s])) acc = Ok ex ->
  exists ss, ex = acc ++ ss /\ Forall2 (fun x s => g x = Ok s) xs ss.
Proof.
  induction xs as [|x xs IH]; intros acc ex Hrun.
  - simpl in Hrun. injection Hrun as <-. exists []. rewrite app_nil_r.
    split; [reflexivity | constructor].
  - rewrite for_each_cons in Hrun. apply bind_ok in Hrun.
    destruct Hrun as (acc1 & Hstep & Hrest).
    apply bind_ok in Hstep. destruct Hstep as (s & Hs & [= <-]).
    destruct (IH _ _ Hrest) as (ss & -> & Hall).
    exists (s :: ss). rewrite <- app_assoc. split; [reflexivity|].
    now constructor.
Qed.

Lemma find_first_in {A : Type} (xs : list A) (p : A -> result bool) (x : A) :
  find_first xs p = Ok (Some x) -> In x xs.
Proof.
  induction xs as [|y xs IH]; simpl; [discriminate|]. intros Hrun.
  apply bind_ok in Hrun. destruct Hrun as ([|] & _ & Hrun).
  - injection Hrun as <-. now left.
  - right. now apply IH.
Qed.

Lemma mem_index_in (x : nat) (l : list nat) :
  mem_index x l = true <-> In x l.
Proof.
  unfold mem_index. rewrite existsb_exists. split.
  - intros (y & Hy & Heq). apply Nat.eqb_eq in Heq. now subst.
  - intros Hx. exists x. split; [assumption | apply Nat.eqb_refl].
Qed.

Lemma map_nth_seq (l : list string) :
  map (fun i => nth i l EmptyString) (seq 0 (length l)) = l.
Proof.
  induction l as [|x l IH]; [reflexivity|].
  cbn [length seq map nth]. f_equal. rewrite <- seq_shift, map_map.
  exact IH.
Qed.

Section InfiniteRecord.
Context {F : Type} `{Number F}.

(** The pivot columns are distinct columns of the matrix, in the order
    their rows come, and the basic variables are their names. *)
Lemma find_pivot_cols_spec (augmented : matrix F) (var_order : list string)
  (pivot_cols : list nat) (basic_vars : list string) :
  find_pivot_cols augmented var_order = Ok (pivot_cols, basic_vars) ->
  NoDup pivot_cols /\
  (forall c, In c pivot_cols -> c < length var_order) /\
  basic_vars = map (fun c => nth c var_order EmptyString) pivot_cols.
Proof.
  unfold find_pivot_cols. intros Hrun.
  apply (for_each_post
           (fun st : list nat * list string =>
              NoDup (fst st) /\
              (forall c, In c (fst st) -> c < length var_order) /\
              snd st = map (fun c => nth c var_order EmptyString) (fst st))
           _ _ _ Hrun).
  - split; [constructor|]. split; [intros c []| reflexivity].
  - intros row st st' _ (Hnd & Hlt & Hnames) Hbody.
    apply bind_ok in Hbody. destruct Hbody as (found & Hfound & Hbody).
    destruct found as [col|]; [|injection Hbody as <-; auto].
    destruct (mem_index col (fst st)) eqn:Hmem;
      [injection Hbody as <-; auto|].
    apply bind_ok in Hbody. destruct Hbody as (v & Hv & [= <-]).
    apply list_get_inv in Hv. destruct Hv as [Hcol Hv]. cbn [fst snd].
    split; [|split].
    + apply NoDup_app; [assumption | repeat constructor; intros [] |].
      intros a Ha [<-|[]]. apply mem_index_in in Ha. congruence.
    + intros c Hc. apply in_app_iff in Hc. destruct Hc as [Hc|[<-|[]]];
        [now apply Hlt | assumption].
    + rewrite map_app, Hnames. cbn [map]. now rewrite (Hv EmptyString).
Qed.

(** The free variables are the names of the other columns, in column
    order. *)
Lemma find_free_vars_from (pivot_cols : list nat) (l : list string) :
  forall lo,
  map snd
    (filter (fun iv => negb (mem_index (fst iv) pivot_cols))
       (combine (seq lo (length l)) l)) =
  map (fun i => nth (i - lo) l EmptyString)
    (filter (fun i => negb (mem_index i pivot_cols)) (seq lo (length l))).
Proof.
  induction l as [|x l IH]; intros lo; [reflexivity|].
  cbn [length seq combine filter fst].
  assert (Htail :
    map (fun i => nth (i - lo) (x :: l) EmptyString)
      (filter (fun i => negb (mem_index i pivot_cols)) (seq (S lo) (length l)))
    = map (fun i => nth (i - S lo) l EmptyString)
      (filter (fun i => negb (mem_index i pivot_cols))
         (seq (S lo) (length l)))).
  { apply map_ext_in. intros i Hi. apply filter_In in Hi.
    destruct Hi as [Hi _]. apply in_seq in Hi.
    replace (i - lo) with (S (i - S lo)) by lia. reflexivity. }
  destruct (negb (mem_index lo pivot_cols)); cbn [map snd].
  - rewrite Htail, IH, Nat.sub_diag. reflexivity.
  - rewrite Htail, IH. reflexivity.
Qed.

Lemma find_free_vars_spec (var_order : list string) (pivot_cols : list nat) :
  find_free_vars var_order pivot_cols =
    map (fun i => nth i var_order EmptyString)
      (filter (fun i => negb (mem_index i pivot_cols))
         (seq 0 (length var_order))).
Proof.
  unfold find_free_vars. rewrite find_free_vars_from.
  apply map_ext. intros i. now rewrite Nat.sub_0_r.
Qed.

Lemma pivot_free_partition (n : nat) (pivot_cols : list nat) :
  NoDup pivot_cols -> (forall c, In c pivot_cols -> c < n) ->
  Permutation
    (pivot_cols ++ filter (fun i => negb (mem_index i pivot_cols)) (seq 0 n))
    (seq 0 n).
Proof.
  intros Hnd Hlt. apply NoDup_Permutation.
  - apply NoDup_app; [assumption | apply NoDup_filter, seq_NoDup|].
    intros a Ha Hf. apply filter_In in Hf. destruct Hf as [_ Hf].
    apply mem_index_in in Ha. rewrite Ha in Hf. discriminate.
  - apply seq_NoDup.
  - intros i. rewrite in_app_iff, filter_In, in_seq. split.
    + intros [Hi|[Hi _]]; [|lia]. specialize (Hlt i Hi). lia.
    + intros Hi. destruct (mem_index i pivot_cols) eqn:Hmem.
      * left. now apply mem_index_in.
      * right. split; [lia | reflexivity].
Qed.

Lemma basic_free_partition (augmented : matrix F) (var_order : list string)
  (pivot_cols : list nat) (basic_vars : list string) :
  find_pivot_cols augmented var_order = Ok (pivot_cols, basic_vars) ->
  Permutation (basic_vars ++ find_free_vars var_order pivot_cols) var_order.
Proof.
  intros Hrun. destruct (find_pivot_cols_spec _ _ Hrun) as (Hnd & Hlt & ->).
  rewrite find_free_vars_spec, <- map_app.
  apply (@Permutation_trans _ _
           (map (fun i => nth i var_order EmptyString)
              (seq 0 (length var_order)))).
  - apply Permutation_map. now apply pivot_free_partition.
  - now rewrite map_nth_seq.
Qed.

Lemma generate_infinite_solutions_inv (coefficient augmented : matrix F)
  (var_order basic free : list string) (examples : list (dict F)) :
  _generate_infinite_solutions coefficient augmented var_order =
    Ok (InfiniteSolutions basic free examples) ->
  exists pivot_cols,
    find_pivot_cols augmented var_order = Ok (pivot_cols, basic) /\
    free = find_free_vars var_order pivot_cols /\
    for_each (free_var_values (length free))
      (fun free_values acc =>
         solution <- example_solution augmented var_order free free_values ;;
         Ok (acc ++ [solution]))
      [] = Ok examples.
Proof.
  unfold _generate_infinite_solutions. intros Hrun.
  apply bind_ok in Hrun. destruct Hrun as (rank & _ & Hrun).
  apply bind_ok in Hrun. destruct Hrun as ([pc bv] & Hpc & Hrun).
  apply bind_ok in Hrun. destruct Hrun as (exs & Hex & Hret).
  injection Hret as <- <- <-. exists pc. auto.
Qed.

End InfiniteRecord.

Lemma infinite_solutions_origin {F : Type} `{Number F}
  (eqs : list (equation F)) (basic free : list string)
  (examples : list (dict F)) :
  solve_parsed eqs = Ok (InfiniteSolutions basic free examples) ->
  exists R,
    rect R (length eqs) (length (sorted (all_vars eqs)) + 1) /\
    _generate_infinite_solutions (map (@removelast F) R) R
      (sorted (all_vars eqs)) = Ok (InfiniteSolutions basic free examples).
Proof.
  intros Hrun.
  assert (Hne : eqs <> []).
  { intros ->. cbv in Hrun. discriminate. }
  unfold solve_parsed in Hrun.
  destruct (solve_with_order_branches Hne (covers_sorted_all_vars eqs))
    as (R & rA & rAB & HR & Hrect & HrA & HrAB & Hsolve).
  rewrite Hsolve in Hrun. exists R. split; [assumption|].
  destruct (negb (rA =? rAB)); [discriminate|].
  destruct (rA <? length (sorted (all_vars eqs))); [assumption|discriminate].
Qed.

(** X8.  In the record of infinitely many solutions every variable
    of the system is listed once, as a basic variable or as a free one:
    ["basic_variables"] followed by ["free_variables"] is a rearrangement of
    the columns. *)
Theorem basic_and_free_variables_partition {F : Type} `{Number F}
  (eqs : list (equation F)) (basic free : list string)
  (examples : list (dict F)) :
  solve_parsed eqs = Ok (InfiniteSolutions basic free examples) ->
  Permutation (basic ++ free) (sorted (all_vars eqs)).
Proof.
  intros Hrun. destruct (infinite_solutions_origin _ Hrun) as (R & _ & Hgen).
  destruct (generate_infinite_solutions_inv _ _ _ Hgen)
    as (pc & Hpc & -> & _).
  now apply (basic_free_partition _ _ Hpc).
Qed.

(** The system [2x + 4y = 6], [x + 2y = 3] of the program's second
    demonstration, on floats. *)
Definition dependent_system : list (equation float) :=
  [([mkTerm 2%float "x"%string ADD; mkTerm 4%float "y"%string ADD], 6%float);
   ([mkTerm 1%float "x"%string ADD; mkTerm 2%float "y"%string ADD], 3%float)].

(** X8 on [2x + 4y = 6], [x + 2y = 3]: [x] is basic, [y] is
    free. *)
Lemma basic_and_free_variables_partition_witness :
  exists basic free examples,
    solve_parsed dependent_system =
      Ok (InfiniteSolutions basic free examples) /\
    Permutation (basic ++ free) (sorted (all_vars dependent_system)).
Proof.
  do 3 eexists. split; [vm_compute; reflexivity|].
  eapply (@basic_and_free_variables_partition float Binary64.float_number
            dependent_system).
  vm_compute. reflexivity.
Defined.

(** ** The example solutions *)

Lemma skipn_cons_nth {A : Type} (l : list A) (n : nat) (d : A) :
  n < length l -> skipn n l = nth n l d :: skipn (S n) l.
Proof.
  revert n. induction l as [|x l IH]; intros [|n] Hn; simpl in *; try lia;
    [reflexivity|].
  apply IH. lia.
Qed.

Lemma dict_get_some_key {F : Type} (d : dict F) (k : string) (v : F) :
  dict_get d k = Some v -> In k (map fst d).
Proof.
  induction d as [|[k' v'] d IH]; simpl; [discriminate|].
  destruct (String.eqb_spec k' k) as [->|Hne]; [now left|].
  intros Hget. right. now apply IH.
Qed.

Lemma free_var_values_count {F : Type} `{Number F} (n : nat) :
  length (free_var_values (F:=F) n) = 5.
Proof. unfold free_var_values. now destruct (1 <? n). Qed.

Section Examples.
Context {F : Type} `{Number F}.

Lemma set_free_vars_from (free_values : list F) (free_vars : list string) :
  forall lo d, lo + length free_vars <= length free_values ->
  for_each (combine (seq lo (length free_vars)) free_vars)
    (fun jv solution =>
       x <- list_get free_values (fst jv) ;;
       Ok (dict_set solution (snd jv) x))
    d =
  Ok (fold_left (fun d kv => dict_set d (fst kv) (snd kv))
        (combine free_vars (skipn lo free_values)) d).
Proof.
  induction free_vars as [|v free_vars IH]; intros lo d Hlen;
    [reflexivity|].
  cbn [length] in Hlen. cbn [length seq combine].
  rewrite for_each_cons. cbn [fst snd].
  rewrite (list_get_ok free_values (of_int 0)) by lia. rewrite bind_Ok.
  rewrite (skipn_cons_nth free_values (of_int 0)) by lia.
  cbn [combine fold_left fst snd]. apply IH. lia.
Qed.

(** Lines 264-265 build [dict(zip(free_vars, free_values))]. *)
Lemma set_free_vars_spec (free_vars : list string) (free_values : list F) :
  length free_vars <= length free_values ->
  set_free_vars free_vars free_values =
    Ok (dict_of (combine free_vars free_values)).
Proof.
  intros Hlen. unfold set_free_vars, dict_of.
  now rewrite set_free_vars_from by lia.
Qed.

(** A row of the back-substitution sets at most one variable, one of the
    columns that had no value; every value already there stays. *)
Lemma back_substitute_row_keeps (augmented : matrix F)
  (var_order : list string) (row : nat) (s s' : dict F) :
  back_substitute_row augmented var_order row s = Ok s' ->
  (forall k v, dict_get s k = Some v -> dict_get s' k = Some v) /\
  (forall k, dict_mem s' k = true -> dict_mem s k = true \/ In k var_order).
Proof.
  unfold back_substitute_row. intros Hrun.
  apply bind_ok in Hrun. destruct Hrun as (found & _ & Hrun).
  destruct found as [col|]; [|injection Hrun as <-; auto].
  apply bind_ok in Hrun. destruct Hrun as (var_name & Hname & Hrun).
  apply list_get_inv in Hname. destruct Hname as [Hcol Hname].
  assert (Hin : In var_name var_order).
  { rewrite <- (Hname EmptyString). now apply nth_In. }
  destruct (dict_mem s var_name) eqn:Hmem; [injection Hrun as <-; auto|].
  apply bind_ok in Hrun. destruct Hrun as (rhs & _ & Hrun).
  apply bind_ok in Hrun. destruct Hrun as (p & _ & Hrun).
  destruct (fltb tol (fabs p)); [|injection Hrun as <-; auto].
  apply bind_ok in Hrun. destruct Hrun as (x & _ & [= <-]).
  unfold dict_mem in *. split.
  - intros k v Hget. rewrite dict_get_set_neq; [assumption|].
    intros ->. now rewrite Hget in Hmem.
  - intros k Hk. destruct (String.eqb_spec var_name k) as [<-|Hne];
      [now right|].
    left. now rewrite dict_get_set_neq in Hk.
Qed.

Lemma example_solution_spec (augmented : matrix F)
  (var_order free_vars : list string) (free_values : list F)
  (solution : dict F) :
  example_solution augmented var_order free_vars free_values = Ok solution ->
  NoDup free_vars -> length free_values = length free_vars ->
  (forall k, In k free_vars -> In k var_order) ->
  (forall j, j < length free_vars ->
     dict_get solution (nth j free_vars EmptyString) =
       Some (nth j free_values (of_int 0))) /\
  (forall k, dict_mem solution k = true -> In k var_order).
Proof.
  unfold example_solution. intros Hrun Hnd Hlen Hincl.
  apply bind_ok in Hrun. destruct Hrun as (s0 & Hs0 & Hrun).
  rewrite set_free_vars_spec in Hs0 by lia. injection Hs0 as <-.
  apply (for_each_post
           (fun t : dict F =>
              (forall j, j < length free_vars ->
                 dict_get t (nth j free_vars EmptyString) =
                   Some (nth j free_values (of_int 0))) /\
              (forall k, dict_mem t k = true -> In k var_order))
           _ _ _ Hrun).
  - split.
    + intros j Hj. apply dict_of_combine; [assumption | assumption | lia].
    + intros k Hk. apply Hincl. unfold dict_mem in Hk.
      destruct (dict_get (dict_of (combine free_vars free_values)) k)
        as [v|] eqn:Hget; [|discriminate].
      rewrite dict_of_distinct in Hget by now apply combine_keys_nodup.
      apply dict_get_some_key in Hget. apply in_map_iff in Hget.
      destruct Hget as ([k' v'] & <- & Hin). now apply in_combine_l in Hin.
  - intros row t t' _ [Hfree Hkeys] Hbody.
    destruct (back_substitute_row_keeps _ _ _ _ Hbody) as [Hkeep Hnew].
    split.
    + intros j Hj. apply Hkeep. now apply Hfree.
    + intros k Hk. destruct (Hnew k Hk) as [Hold|Hin]; [now apply Hkeys|].
      assumption.
Qed.

End Examples.

(** X9.  The record of infinitely many solutions always holds five
    example solutions.  In example [i] every free variable has the value the
    battery of lines 240-256 gives it (all [0], all [1], all [-1], then all
    [2] and all [-2], or the two unit choices when there are two free
    variables or more): the back-substitution never overwrites it.  And an
    example assigns nothing but variables of the system. *)
Theorem example_solutions_shape {F : Type} `{Number F}
  (eqs : list (equation F)) (basic free : list string)
  (examples : list (dict F)) :
  solve_parsed eqs = Ok (InfiniteSolutions basic free examples) ->
  length examples = 5 /\
  (forall i j, i < 5 -> j < length free ->
     dict_get (nth i examples []) (nth j free EmptyString) =
       Some (nth j (nth i (free_var_values (length free)) []) (of_int 0))) /\
  (forall example k, In example examples -> dict_mem example k = true ->
     In k (sorted (all_vars eqs))).
Proof.
  intros Hrun. destruct (infinite_solutions_origin _ Hrun) as (R & _ & Hgen).
  destruct (generate_infinite_solutions_inv _ _ _ Hgen)
    as (pc & Hpc & Hfree & Hloop).
  pose proof (basic_free_partition _ _ Hpc) as Hperm. rewrite <- Hfree in Hperm.
  pose proof (sorted_all_vars_nodup eqs) as Hnd.
  assert (Hndf : NoDup free).
  { apply (NoDup_app_remove_l basic).
    apply (Permutation_NoDup (Permutation_sym Hperm) Hnd). }
  assert (Hincl : forall k, In k free -> In k (sorted (all_vars eqs))).
  { intros k Hk. apply (Permutation_in _ Hperm). apply in_app_iff. now right. }
  destruct (@for_each_collect _ _ _ _ _ _ Hloop) as (ss & -> & Hall).
  cbn [app] in *.
  pose proof (Forall2_length Hall) as Hcount.
  rewrite free_var_values_count in Hcount.
  assert (Hspec : forall i, i < 5 ->
    (forall j, j < length free ->
       dict_get (nth i ss []) (nth j free EmptyString) =
         Some (nth j (nth i (free_var_values (length free)) []) (of_int 0))) /\
    (forall k, dict_mem (nth i ss []) k = true ->
       In k (sorted (all_vars eqs)))).
  { intros i Hi.
    pose proof (@Forall2_nth _ _ _ _ _ i [] [] Hall) as Hi'.
    rewrite free_var_values_count in Hi'. specialize (Hi' Hi).
    cbv beta in Hi'.
    apply (@example_solution_spec _ _ _ _ _ _ _ Hi');
      [assumption | | assumption].
    apply free_var_values_length. apply nth_In.
    now rewrite free_var_values_count. }
  split; [now symmetry|]. split.
  - intros i j Hi Hj. now apply (proj1 (Hspec i Hi)).
  - intros example k Hex Hk.
    destruct (In_nth _ _ [] Hex) as (i & Hi & <-).
    assert (Hi5 : i < 5) by (rewrite Hcount; exact Hi).
    apply (proj2 (Hspec i Hi5) k Hk).
Qed.

(** X9 on [2x + 4y = 6], [x + 2y = 3]. *)
Lemma example_solutions_shape_witness :
  exists basic free examples,
    solve_parsed dependent_system =
      Ok (InfiniteSolutions basic free examples) /\
    length examples = 5 /\
    (forall i j, i < 5 -> j < length free ->
       dict_get (nth i examples []) (nth j free EmptyString) =
         Some (nth j (nth i (free_var_values (length free)) [])
                 (of_int 0))) /\
    (forall example k, In example examples -> dict_mem example k = true ->
       In k (sorted (all_vars dependent_system))).
Proof.
  do 3 eexists. split; [vm_compute; reflexivity|].
  eapply (@example_solutions_shape float Binary64.float_number
            dependent_system).
  vm_compute. reflexivity.
Defined.

(** * Parsing

    ** Python strings

    A [string] stands for the [str] with the same code points; its
    characters are code points below 256. *)

(** [c.isalpha()] for a code point below 256. *)
Definition char_isalpha (c : ascii) : bool :=
  let n := N_of_ascii c in
  ((65 <=? n) && (n <=? 90) || (97 <=? n) && (n <=? 122) ||
   (n =? 170) || (n =? 181) || (n =? 186) ||
   (192 <=? n) && (n <=? 214) || (216 <=? n) && (n <=? 246) ||
   (248 <=? n))%N.

(** [c.isspace()] for a code point below 256. *)
Definition char_isspace (c : ascii) : bool :=
  let n := N_of_ascii c in
  ((9 <=? n) && (n <=? 13) || (28 <=? n) && (n <=? 32) ||
   (n =? 133) || (n =? 160))%N.

Fixpoint str_forallb (p : ascii -> bool) (s : string) : bool :=
  match s with
  | EmptyString => true
  | String c s' => p c && str_forallb p s'
  end.

(** [s.isalpha()]: every character is a letter and there is one. *)
Definition str_isalpha (s : string) : bool :=
  match s with
  | EmptyString => false
  | _ => str_forallb char_isalpha s
  end.

(** [s.split(sep)] for a separator of one character. *)
Fixpoint str_split (sep : ascii) (s : string) : list string :=
  match s with
  | EmptyString => [EmptyString]
  | String c s' =>
      if Ascii.eqb c sep then EmptyString :: str_split sep s'
      else
        match str_split sep s' with
        | p :: ps => String c p :: ps
        | [] => [String c EmptyString]
        end
  end.

(** [s.replace(old, new)] for [old] of one character. *)
Fixpoint str_replace (old : ascii) (new : string) (s : string) : string :=
  match s with
  | EmptyString => EmptyString
  | String c s' =>
      if Ascii.eqb c old then String.append new (str_replace old new s')
      else String c (str_replace old new s')
  end.

Fixpoint str_lstrip (s : string) : string :=
  match s with
  | EmptyString => EmptyString
  | String c s' => if char_isspace c then str_lstrip s' else s
  end.

Fixpoint str_rstrip (s : string) : string :=
  match s with
  | EmptyString => EmptyString
  | String c s' =>
      match str_rstrip s' with
      | EmptyString => if char_isspace c then EmptyString
                       else String c EmptyString
      | r => String c r
      end
  end.

(** [s.strip()]. *)
Definition str_strip (s : string) : string := str_rstrip (str_lstrip s).

(** [s[:k]] and [s[k:]] for [0 <= k]. *)
Fixpoint str_take (k : nat) (s : string) : string :=
  match k, s with
  | S k', String c s' => String c (str_take k' s')
  | _, _ => EmptyString
  end.

Fixpoint str_drop (k : nat) (s : string) : string :=
  match k, s with
  | S k', String _ s' => str_drop k' s'
  | _, _ => s
  end.

(** Lines 58-62: the index of the first letter, [0] when there is none. *)
Fixpoint first_alpha (part : string) : option nat :=
  match part with
  | EmptyString => None
  | String c s' =>
      if char_isalpha c then Some 0 else option_map S (first_alpha s')
  end.

(** Lines 45-49: the operator of a part, and the part without its sign. *)
Definition split_sign (part : string) : Operator * string :=
  match part with
  | String c rest => if Ascii.eqb c "-"%char then (SUB, rest) else (ADD, part)
  | EmptyString => (ADD, part)
  end.

Section Parser.
Context {F : Type} `{Number F}.

(** [float] on a [str]: the value, or [None] where it raises
    [ValueError]. *)
Variable float_of_str : string -> option F.

Definition py_float (s : string) : result F :=
  match float_of_str s with
  | Some x => Ok x
  | None => Raise ValueError
  end.

(** Lines 44-73: one part of the left-hand side. *)
Definition parse_term (part : string) : result (Term F) :=
  let '(operator, part) := split_sign part in
  if str_isalpha part then Ok (mkTerm (of_int 1) part operator)
  else
    let var_start :=
      match first_alpha part with
      | Some i => i
      | None => 0
      end in
    if var_start =? 0 then Ok (mkTerm (of_int 1) part operator)
    else
      coefficient <- py_float (str_take var_start part) ;;
      Ok (mkTerm coefficient (str_drop var_start part) operator).

(** Lines 35-38: the parts of the left-hand side. *)
Definition left_parts (left_side : string) : list string :=
  let left_side :=
    str_replace " "%char EmptyString
      (str_replace "-"%char "+-"%string left_side) in
  filter (fun p => negb (String.eqb p EmptyString))
    (str_split "+"%char left_side).

(** [parse_question]: unpacking the two sides raises [ValueError] unless
    the text has exactly one ["="]. *)
Definition parse_question (text : string) : result (equation F) :=
  match str_split "="%char text with
  | [left_side; right_side] =>
      rhs <- py_float (str_strip right_side) ;;
      terms <- for_each (left_parts left_side)
                 (fun part terms => t <- parse_term part ;; Ok (terms ++ [t]))
                 [] ;;
      Ok (terms, rhs)
  | _ => Raise ValueError
  end.

(** [solve_equations_manual] (lines 151-206): every equation is parsed,
    then the system is solved. *)
Definition solve_equations_manual (eq : list string) : result (outcome F) :=
  parsed_equations <-
    for_each eq
      (fun e parsed => p <- parse_question e ;; Ok (parsed ++ [p])) [] ;;
  solve_parsed parsed_equations.

End Parser.

(** [float] on the literals of the examples below: an optional sign and one
    to fifteen decimal digits, which binary64 holds exactly.  The examples
    use no other literal. *)
Fixpoint digits_value (s : string) (acc : Z) : option Z :=
  match s with
  | EmptyString => Some acc
  | String c s' =>
      let n := Z.of_N (N_of_ascii c) in
      if ((48 <=? n) && (n <=? 57))%Z
      then digits_value s' (10 * acc + (n - 48))%Z
      else None
  end.

Definition float_of_digits (s : string) : option float :=
  let unsigned (t : string) : option float :=
    if (1 <=? String.length t) && (String.length t <=? 15) then
      match digits_value t 0 with
      | Some z => Some (PrimFloat.of_uint63 (Uint63.of_Z z))
      | None => None
      end
    else None in
  match s with
  | String "-"%char t => option_map PrimFloat.opp (unsigned t)
  | String "+"%char t => unsigned t
  | _ => unsigned s
  end.

(** ** Splitting and replacing *)

(** [c in s]. *)
Fixpoint str_mem (c : ascii) (s : string) : bool :=
  match s with
  | EmptyString => false
  | String d s' => Ascii.eqb d c || str_mem c s'
  end.

(** [s.count(c)]. *)
Fixpoint count_char (c : ascii) (s : string) : nat :=
  match s with
  | EmptyString => 0
  | String d s' => (if Ascii.eqb d c then 1 else 0) + count_char c s'
  end.

Lemma append_nil_r (s : string) : String.append s EmptyString = s.
Proof. induction s as [|c s IH]; simpl; [reflexivity | now rewrite IH]. Qed.

Lemma append_assoc (a b c : string) :
  String.append (String.append a b) c = String.append a (String.append b c).
Proof. induction a as [|x a IH]; simpl; [reflexivity | now rewrite IH]. Qed.

Lemma str_split_nonempty (sep : ascii) (s : string) : str_split sep s <> [].
Proof.
  destruct s as [|c s]; simpl; [discriminate|].
  destruct (Ascii.eqb c sep); [discriminate|].
  destruct (str_split sep s); discriminate.
Qed.

(** A split has one piece more than there are separators. *)
Lemma length_str_split (sep : ascii) (s : string) :
  length (str_split sep s) = S (count_char sep s).
Proof.
  induction s as [|c s IH]; simpl; [reflexivity|].
  destruct (Ascii.eqb c sep); simpl; [now rewrite IH|].
  destruct (str_split sep s) as [|p ps] eqn:Hs; simpl in *; [lia|]. exact IH.
Qed.

Lemma count_char_mem (c : ascii) (s : string) :
  str_mem c s = false <-> count_char c s = 0.
Proof.
  induction s as [|d s IH]; simpl; [tauto|].
  destruct (Ascii.eqb d c); simpl; [split; [discriminate | lia]|exact IH].
Qed.

Lemma count_char_app (c : ascii) (a b : string) :
  count_char c (String.append a b) = count_char c a + count_char c b.
Proof. induction a as [|d a IH]; simpl; [reflexivity | rewrite IH; lia]. Qed.

Lemma str_mem_app (c : ascii) (a b : string) :
  str_mem c (String.append a b) = str_mem c a || str_mem c b.
Proof.
  induction a as [|d a IH]; simpl; [reflexivity|].
  now rewrite IH, orb_assoc.
Qed.

Lemma str_split_none (sep : ascii) (s : string) :
  str_mem sep s = false -> str_split sep s = [s].
Proof.
  induction s as [|c s IH]; simpl; [reflexivity|]. intros Hmem.
  apply orb_false_iff in Hmem. destruct Hmem as [Hc Hs].
  now rewrite Hc, (IH Hs).
Qed.

(** The piece before the first separator. *)
Lemma str_split_app (sep : ascii) (a b : string) :
  str_mem sep a = false ->
  str_split sep (String.append a (String sep b)) = a :: str_split sep b.
Proof.
  induction a as [|c a IH]; simpl; intros Hmem.
  - now rewrite Ascii.eqb_refl.
  - apply orb_false_iff in Hmem. destruct Hmem as [Hc Ha].
    now rewrite Hc, (IH Ha).
Qed.

(** A text without separator put before another joins its first piece. *)
Lemma str_split_prefix (sep : ascii) (a b : string) :
  str_mem sep a = false ->
  str_split sep (String.append a b) =
    match str_split sep b with
    | p :: ps => String.append a p :: ps
    | [] => [a]
    end.
Proof.
  induction a as [|c a IH]; simpl; intros Hmem.
  - destruct (str_split sep b) as [|p ps] eqn:Hb; [|reflexivity].
    now apply str_split_nonempty in Hb.
  - apply orb_false_iff in Hmem. destruct Hmem as [Hc Ha].
    rewrite Hc, (IH Ha). destruct (str_split sep b); reflexivity.
Qed.

Lemma str_replace_app (old : ascii) (new a b : string) :
  str_replace old new (String.append a b) =
    String.append (str_replace old new a) (str_replace old new b).
Proof.
  induction a as [|c a IH]; simpl; [reflexivity|].
  destruct (Ascii.eqb c old); rewrite IH; [now rewrite append_assoc|].
  reflexivity.
Qed.

Lemma str_replace_none (old : ascii) (new s : string) :
  str_mem old s = false -> str_replace old new s = s.
Proof.
  induction s as [|c s IH]; simpl; [reflexivity|]. intros Hmem.
  apply orb_false_iff in Hmem. destruct Hmem as [Hc Hs].
  now rewrite Hc, (IH Hs).
Qed.

(** Removing a character leaves the others where they are. *)
Lemma count_char_removed (c old : ascii) (s : string) :
  c <> old ->
  count_char c (str_replace old EmptyString s) = count_char c s.
Proof.
  intros Hne. induction s as [|d s IH]; simpl; [reflexivity|].
  destruct (Ascii.eqb_spec d old) as [->|Hd]; simpl.
  - destruct (Ascii.eqb_spec old c); [congruence | exact IH].
  - now rewrite IH.
Qed.

(** Spaces go last: it makes no difference whether they were there when
    the signs were rewritten. *)
Lemma left_spaces_twice (s : string) :
  str_replace " "%char EmptyString
    (str_replace "-"%char "+-"%string
       (str_replace " "%char EmptyString s)) =
  str_replace " "%char EmptyString (str_replace "-"%char "+-"%string s).
Proof.
  induction s as [|c s IH]; [reflexivity|].
  cbn [str_replace].
  destruct (Ascii.eqb_spec c " "%char) as [->|Hsp].
  - cbn [Ascii.eqb Bool.eqb andb str_replace String.append]. exact IH.
  - cbn [str_replace]. destruct (Ascii.eqb_spec c "-"%char) as [->|Hm].
    + cbn [String.append str_replace Ascii.eqb Bool.eqb andb].
      now rewrite IH.
    + cbn [str_replace]. destruct (Ascii.eqb_spec c " "%char); [congruence|].
      now rewrite IH.
Qed.

Section ParserFacts.
Context {F : Type} `{Number F}.
Variable float_of_str : string -> option F.

Lemma left_parts_spaces (s : string) :
  left_parts (str_replace " "%char EmptyString s) = left_parts s.
Proof. unfold left_parts. now rewrite left_spaces_twice. Qed.

Lemma parse_question_equals (text : string) :
  count_char "="%char text <> 1 ->
  parse_question float_of_str text = Raise ValueError.
Proof.
  intros Hcount. unfold parse_question.
  pose proof (length_str_split "="%char text) as Hlen.
  destruct (str_split "="%char text) as [|a [|b [|c l]]]; try reflexivity.
  simpl in Hlen. lia.
Qed.

(** What [parse_question] does once the two sides are apart. *)
Definition parse_sides (left_side right_side : string)
  : result (equation F) :=
  rhs <- py_float float_of_str (str_strip right_side) ;;
  terms <- for_each (left_parts left_side)
             (fun part terms =>
                t <- parse_term float_of_str part ;; Ok (terms ++ [t]))
             [] ;;
  Ok (terms, rhs).

Lemma parse_question_sides (left_side right_side : string) :
  str_mem "="%char left_side = false ->
  str_mem "="%char right_side = false ->
  parse_question float_of_str
    (String.append left_side (String "="%char right_side)) =
  parse_sides left_side right_side.
Proof.
  intros Hl Hr. unfold parse_question.
  now rewrite (str_split_app _ _ _ Hl), (str_split_none _ _ Hr).
Qed.

Lemma parse_question_spaces (left_side right_side : string) :
  parse_question float_of_str
    (String.append left_side (String "="%char right_side)) =
  parse_question float_of_str
    (String.append (str_replace " "%char EmptyString left_side)
       (String "="%char right_side)).
Proof.
  destruct (str_mem "="%char left_side) eqn:Hl.
  - rewrite !parse_question_equals; [reflexivity | |].
    + rewrite count_char_app, count_char_removed by discriminate.
      cbn [count_char Ascii.eqb Bool.eqb andb].
      destruct (count_char "="%char left_side) eqn:Hc; [|lia].
      apply count_char_mem in Hc. congruence.
    + rewrite count_char_app. cbn [count_char Ascii.eqb Bool.eqb andb].
      destruct (count_char "="%char left_side) eqn:Hc; [|lia].
      apply count_char_mem in Hc. congruence.
  - assert (Hl' : str_mem "="%char
                    (str_replace " "%char EmptyString left_side) = false).
    { apply count_char_mem. rewrite count_char_removed by discriminate.
      now apply count_char_mem. }
    unfold parse_question.
    rewrite (str_split_app _ _ _ Hl), (str_split_app _ _ _ Hl').
    destruct (str_split "="%char right_side) as [|r [|r' l]];
      try reflexivity.
    now rewrite left_parts_spaces.
Qed.

End ParserFacts.

(** X10.  [parse_question] raises [ValueError] on every text that
    does not hold exactly one ["="]: the two sides cannot be unpacked. *)
Theorem parse_question_needs_one_equals {F : Type} `{Number F}
  (float_of_str : string -> option F) (text : string) :
  count_char "="%char text <> 1 ->
  parse_question float_of_str text = Raise ValueError.
Proof. apply parse_question_equals. Qed.

(** X10 on [x + y] and on [x = y = 1]. *)
Lemma parse_question_needs_one_equals_witness :
  parse_question float_of_digits "x + y"%string = Raise ValueError /\
  parse_question float_of_digits "x = y = 1"%string = Raise ValueError.
Proof.
  split.
  - apply (@parse_question_needs_one_equals float Binary64.float_number
             float_of_digits "x + y"%string). vm_compute. lia.
  - apply (@parse_question_needs_one_equals float Binary64.float_number
             float_of_digits "x = y = 1"%string). vm_compute. lia.
Defined.

(** X11.  Spaces on the left-hand side are not read, wherever they
    stand, inside a number or a name as well as around the signs: an
    equation parses as the equation without them does. *)
Theorem parse_question_ignores_spaces {F : Type} `{Number F}
  (float_of_str : string -> option F) (left_side right_side : string) :
  parse_question float_of_str
    (String.append left_side (String "="%char right_side)) =
  parse_question float_of_str
    (String.append (str_replace " "%char EmptyString left_side)
       (String "="%char right_side)).
Proof. apply parse_question_spaces. Qed.

(** ** Equations in standard form *)

(** A term as it is written: its sign, the text of its coefficient (none
    for a coefficient of one) and its name. *)
Record item : Type := mkItem {
  item_operator : Operator;
  item_coefficient : string;
  item_variable : string
}.

(** None of the characters the parser cuts at. *)
Definition plain_char (c : ascii) : bool :=
  negb (Ascii.eqb c "+"%char || Ascii.eqb c "-"%char ||
        Ascii.eqb c " "%char || Ascii.eqb c "="%char).

Definition plain (s : string) : bool := str_forallb plain_char s.

Definition starts_with_letter (s : string) : bool :=
  match s with
  | String c _ => char_isalpha c
  | EmptyString => false
  end.

(** The coefficient holds no letter, the name starts with one, and neither
    holds a sign, a space or an equals sign. *)
Definition well_formed (it : item) : bool :=
  plain (item_coefficient it) &&
  str_forallb (fun c => negb (char_isalpha c)) (item_coefficient it) &&
  plain (item_variable it) && starts_with_letter (item_variable it).

(** The term with its sign in front. *)
Definition written (it : item) : string :=
  String.append
    (match item_operator it with ADD => "+"%string | SUB => "-"%string end)
    (String.append (item_coefficient it) (item_variable it)).

Definition written_all (items : list item) : string :=
  fold_right (fun it s => String.append (written it) s) EmptyString items.

(** The left-hand side as one writes it: a leading plus sign is left
    out. *)
Definition standard_form (items : list item) : string :=
  match written_all items with
  | String c s => if Ascii.eqb c "+"%char then s else String c s
  | EmptyString => EmptyString
  end.

(** The part of the left-hand side that the loop of line 40 meets for a
    term. *)
Definition part_of (it : item) : string :=
  String.append
    (match item_operator it with ADD => EmptyString | SUB => "-"%string end)
    (String.append (item_coefficient it) (item_variable it)).

Definition joined (items : list item) : string :=
  fold_right (fun it s => String "+"%char (String.append (part_of it) s))
    EmptyString items.

Lemma for_each_map {A B St : Type} (g : A -> B) (body : B -> St -> result St)
  (xs : list A) (s : St) :
  for_each (map g xs) body s = for_each xs (fun x => body (g x)) s.
Proof.
  revert s. induction xs as [|x xs IH]; intros s; simpl; [reflexivity|].
  destruct (body (g x) s); simpl; [apply IH | reflexivity].
Qed.

Lemma for_each_ext {A St : Type} (body body' : A -> St -> result St)
  (xs : list A) (s : St) :
  (forall x t, In x xs -> body x t = body' x t) ->
  for_each xs body s = for_each xs body' s.
Proof.
  revert s. induction xs as [|x xs IH]; intros s Hext; simpl; [reflexivity|].
  rewrite (Hext x s) by now left.
  destruct (body' x s); simpl; [|reflexivity].
  apply IH. intros y t Hy. apply Hext. now right.
Qed.

Lemma plain_char_spec (c : ascii) :
  plain_char c = true ->
  Ascii.eqb c "+"%char = false /\ Ascii.eqb c "-"%char = false /\
  Ascii.eqb c " "%char = false /\ Ascii.eqb c "="%char = false.
Proof.
  unfold plain_char. rewrite negb_true_iff, !orb_false_iff. tauto.
Qed.

Lemma plain_mem (s : string) :
  plain s = true ->
  str_mem "+"%char s = false /\ str_mem "-"%char s = false /\
  str_mem " "%char s = false /\ str_mem "="%char s = false.
Proof.
  induction s as [|c s IH]; simpl; [tauto|]. intros Hp.
  apply andb_true_iff in Hp. destruct Hp as [Hc Hs].
  destruct (@plain_char_spec _ Hc) as (H1 & H2 & H3 & H4).
  destruct (IH Hs) as (I1 & I2 & I3 & I4).
  now rewrite H1, H2, H3, H4, I1, I2, I3, I4.
Qed.

Lemma plain_app (a b : string) :
  plain a = true -> plain b = true -> plain (String.append a b) = true.
Proof.
  unfold plain. induction a as [|c a IH]; simpl; [auto|]. intros Ha Hb.
  apply andb_true_iff in Ha. destruct Ha as [Hc Ha].
  now rewrite Hc, IH.
Qed.

Lemma well_formed_spec (it : item) :
  well_formed it = true ->
  plain (item_coefficient it) = true /\
  str_forallb (fun c => negb (char_isalpha c)) (item_coefficient it) = true /\
  plain (item_variable it) = true /\
  starts_with_letter (item_variable it) = true.
Proof. unfold well_formed. rewrite !andb_true_iff. tauto. Qed.

Lemma well_formed_body (it : item) :
  well_formed it = true ->
  plain (String.append (item_coefficient it) (item_variable it)) = true.
Proof.
  intros Hwf. destruct (@well_formed_spec _ Hwf) as (Hc & _ & Hv & _).
  now apply plain_app.
Qed.

(** What the two replacements of line 35 make of a written term. *)
Lemma written_replaced (it : item) :
  well_formed it = true ->
  str_replace " "%char EmptyString
    (str_replace "-"%char "+-"%string (written it)) =
  String "+"%char (part_of it).
Proof.
  intros Hwf. pose proof (@well_formed_body _ Hwf) as Hbody.
  destruct (@plain_mem _ Hbody) as (_ & Hminus & Hspace & _).
  unfold written, part_of.
  destruct (item_operator it);
    cbn [String.append str_replace Ascii.eqb Bool.eqb andb];
    rewrite (@str_replace_none "-"%char "+-"%string _ Hminus),
      (@str_replace_none " "%char EmptyString _ Hspace); reflexivity.
Qed.

Lemma written_all_replaced (items : list item) :
  Forall (fun it => well_formed it = true) items ->
  str_replace " "%char EmptyString
    (str_replace "-"%char "+-"%string (written_all items)) =
  joined items.
Proof.
  induction 1 as [|it items Hwf _ IH]; [reflexivity|].
  cbn [written_all joined fold_right].
  fold (written_all items).
  rewrite (str_replace_app "-"%char "+-"%string (written it)
             (written_all items)).
  rewrite (str_replace_app " "%char EmptyString
             (str_replace "-"%char "+-"%string (written it))).
  rewrite (@written_replaced _ Hwf), IH. reflexivity.
Qed.

Lemma part_of_no_plus (it : item) :
  well_formed it = true -> str_mem "+"%char (part_of it) = false.
Proof.
  intros Hwf. pose proof (@well_formed_body _ Hwf) as Hbody.
  destruct (@plain_mem _ Hbody) as (Hplus & _).
  unfold part_of. destruct (item_operator it); cbn [String.append str_mem];
    [assumption|]. now rewrite Hplus.
Qed.

Lemma part_of_nonempty (it : item) :
  well_formed it = true -> String.eqb (part_of it) EmptyString = false.
Proof.
  intros Hwf. destruct (@well_formed_spec _ Hwf) as (_ & _ & _ & Hv).
  unfold part_of. destruct (item_operator it); cbn [String.append];
    [|reflexivity].
  destruct (item_coefficient it); [|reflexivity]. cbn [String.append].
  destruct (item_variable it); [discriminate | reflexivity].
Qed.

Lemma joined_split (items : list item) :
  Forall (fun it => well_formed it = true) items ->
  str_split "+"%char (joined items) = EmptyString :: map part_of items.
Proof.
  induction 1 as [|it items Hwf _ IH]; [reflexivity|].
  cbn [joined fold_right str_split Ascii.eqb Bool.eqb andb map].
  fold (joined items).
  rewrite (@str_split_prefix _ _ _ (@part_of_no_plus _ Hwf)), IH.
  now rewrite append_nil_r.
Qed.

Lemma parts_kept (items : list item) :
  Forall (fun it => well_formed it = true) items ->
  filter (fun p => negb (String.eqb p EmptyString)) (map part_of items) =
    map part_of items.
Proof.
  induction 1 as [|it items Hwf _ IH]; [reflexivity|].
  cbn [map filter]. now rewrite (@part_of_nonempty _ Hwf), IH.
Qed.

(** The parts of a left-hand side in standard form are its terms. *)
Lemma left_parts_standard (items : list item) :
  Forall (fun it => well_formed it = true) items ->
  left_parts (standard_form items) = map part_of items.
Proof.
  intros Hall. destruct Hall as [|it items Hwf Hall]; [reflexivity|].
  unfold left_parts, standard_form.
  destruct (item_operator it) eqn:Hop.
  - assert (Hshape : written_all (it :: items) =
              String "+"%char
                (String.append
                   (String.append (item_coefficient it) (item_variable it))
                   (written_all items))).
    { cbn [written_all fold_right]. unfold written. rewrite Hop.
      reflexivity. }
    rewrite Hshape. cbn [Ascii.eqb Bool.eqb andb].
    pose proof (@well_formed_body _ Hwf) as Hbody.
    destruct (@plain_mem _ Hbody) as (Hplus & Hminus & Hspace & _).
    rewrite (str_replace_app "-"%char "+-"%string
               (String.append (item_coefficient it) (item_variable it))
               (written_all items)).
    rewrite (@str_replace_none "-"%char "+-"%string _ Hminus).
    rewrite (str_replace_app " "%char EmptyString
               (String.append (item_coefficient it) (item_variable it))).
    rewrite (@str_replace_none " "%char EmptyString _ Hspace),
      (@written_all_replaced _ Hall).
    rewrite (@str_split_prefix _ _ _ Hplus), (@joined_split _ Hall).
    rewrite append_nil_r. cbn [filter map].
    assert (Hpart : part_of it =
              String.append (item_coefficient it) (item_variable it)).
    { unfold part_of. now rewrite Hop. }
    rewrite <- Hpart, (@part_of_nonempty _ Hwf). cbn [negb].
    now rewrite (@parts_kept _ Hall).
  - assert (Hshape : written_all (it :: items) =
              String "-"%char
                (String.append
                   (String.append (item_coefficient it) (item_variable it))
                   (written_all items))).
    { cbn [written_all fold_right]. unfold written. rewrite Hop.
      reflexivity. }
    rewrite Hshape. cbn [Ascii.eqb Bool.eqb andb]. rewrite <- Hshape.
    rewrite (@written_all_replaced _ (Forall_cons _ Hwf Hall)).
    rewrite (@joined_split _ (Forall_cons _ Hwf Hall)).
    cbn [filter String.eqb negb].
    now rewrite (@parts_kept _ (Forall_cons _ Hwf Hall)).
Qed.

Lemma str_mem_written_all (items : list item) :
  Forall (fun it => well_formed it = true) items ->
  str_mem "="%char (written_all items) = false.
Proof.
  induction 1 as [|it items Hwf _ IH]; [reflexivity|].
  cbn [written_all fold_right]. fold (written_all items).
  rewrite str_mem_app, IH, orb_false_r.
  pose proof (@well_formed_body _ Hwf) as Hbody.
  destruct (@plain_mem _ Hbody) as (_ & _ & _ & Heq).
  unfold written. rewrite str_mem_app, Heq, orb_false_r.
  now destruct (item_operator it).
Qed.

Lemma str_mem_standard_form (items : list item) :
  Forall (fun it => well_formed it = true) items ->
  str_mem "="%char (standard_form items) = false.
Proof.
  intros Hall. pose proof (@str_mem_written_all _ Hall) as Hmem.
  unfold standard_form. destruct (written_all items) as [|c s];
    [reflexivity|].
  cbn [str_mem] in Hmem. apply orb_false_iff in Hmem.
  destruct Hmem as [Hc Hs].
  destruct (Ascii.eqb c "+"%char); [exact Hs|].
  cbn [str_mem]. now rewrite Hc, Hs.
Qed.

(** The term that a written term stands for: a coefficient of one when none
    is written, [float] of its text otherwise. *)
Definition item_term {F : Type} `{Number F}
  (float_of_str : string -> option F) (it : item) : result (Term F) :=
  match item_coefficient it with
  | EmptyString => Ok (mkTerm (of_int 1) (item_variable it) (item_operator it))
  | text =>
      coefficient <- py_float float_of_str text ;;
      Ok (mkTerm coefficient (item_variable it) (item_operator it))
  end.

Lemma first_char_not_minus (s : string) :
  str_mem "-"%char s = false -> split_sign s = (ADD, s).
Proof.
  destruct s as [|c s]; [reflexivity|]. cbn [str_mem split_sign].
  intros Hmem. apply orb_false_iff in Hmem. destruct Hmem as [Hc _].
  now rewrite Hc.
Qed.

Lemma first_alpha_app (a b : string) :
  str_forallb (fun c => negb (char_isalpha c)) a = true ->
  starts_with_letter b = true ->
  first_alpha (String.append a b) = Some (String.length a).
Proof.
  intros Ha Hb. induction a as [|c a IH]; cbn [String.append String.length].
  - destruct b as [|d b]; [discriminate|]. cbn [first_alpha].
    cbn [starts_with_letter] in Hb. now rewrite Hb.
  - cbn [str_forallb] in Ha. apply andb_true_iff in Ha.
    destruct Ha as [Hc Ha]. apply negb_true_iff in Hc.
    cbn [first_alpha]. now rewrite Hc, (IH Ha).
Qed.

Lemma first_alpha_none (s : string) :
  str_forallb (fun c => negb (char_isalpha c)) s = true ->
  first_alpha s = None.
Proof.
  induction s as [|c s IH]; [reflexivity|]. cbn [str_forallb first_alpha].
  intros Hs. apply andb_true_iff in Hs. destruct Hs as [Hc Hs].
  apply negb_true_iff in Hc. now rewrite Hc, (IH Hs).
Qed.

Lemma str_take_app (a b : string) :
  str_take (String.length a) (String.append a b) = a.
Proof.
  induction a as [|c a IH]; cbn [String.length String.append str_take].
  - now destruct b.
  - now rewrite IH.
Qed.

Lemma str_drop_app (a b : string) :
  str_drop (String.length a) (String.append a b) = b.
Proof.
  induction a as [|c a IH]; cbn [String.length String.append str_drop];
    [reflexivity | exact IH].
Qed.

Lemma for_each_collect_raise {A B : Type} (g : A -> result B) (xs : list A) :
  forall acc e,
  for_each xs (fun x acc => s <- g x ;; Ok (acc ++ [s])) acc = Raise e ->
  exists x, In x xs /\ g x = Raise e.
Proof.
  induction xs as [|x xs IH]; intros acc e Hrun; [discriminate|].
  rewrite for_each_cons in Hrun. destruct (g x) as [s|e'] eqn:Hg.
  - cbn [bind] in Hrun. destruct (IH _ _ Hrun) as (y & Hy & Hgy).
    exists y. split; [now right | assumption].
  - cbn [bind] in Hrun. injection Hrun as <-. exists x.
    split; [now left | assumption].
Qed.

Section TermFacts.
Context {F : Type} `{Number F}.
Variable float_of_str : string -> option F.

Lemma py_float_raises (s : string) (e : exn) :
  py_float float_of_str s = Raise e -> e = ValueError.
Proof. unfold py_float. destruct (float_of_str s); congruence. Qed.

Lemma parse_term_raises (part : string) (e : exn) :
  parse_term float_of_str part = Raise e -> e = ValueError.
Proof.
  unfold parse_term. destruct (split_sign part) as [op p].
  destruct (str_isalpha p); [discriminate|].
  destruct (_ =? 0); [discriminate|].
  destruct (py_float float_of_str _) as [x|e'] eqn:Hf; cbn [bind];
    [discriminate|].
  intros [= <-]. exact (py_float_raises _ Hf).
Qed.

Lemma parse_question_raises (text : string) (e : exn) :
  parse_question float_of_str text = Raise e -> e = ValueError.
Proof.
  unfold parse_question.
  destruct (str_split "="%char text) as [|a [|b [|c l]]]; try congruence.
  destruct (py_float float_of_str (str_strip b)) as [rhs|e'] eqn:Hf;
    cbn [bind].
  2:{ intros [= <-]. exact (py_float_raises _ Hf). }
  destruct (for_each (left_parts a) _ []) as [ts|e'] eqn:Hts; cbn [bind];
    [discriminate|].
  intros [= <-].
  destruct (@for_each_collect_raise _ _ _ _ _ _ Hts) as (part & _ & Hpart).
  exact (parse_term_raises _ Hpart).
Qed.

(** The loop body of lines 40-73 on the part of a written term. *)
Lemma parse_term_part (it : item) :
  well_formed it = true ->
  parse_term float_of_str (part_of it) = item_term float_of_str it.
Proof.
  intros Hwf. destruct (@well_formed_spec _ Hwf) as (Hc & Hdigits & Hv & Hletter).
  pose proof (@well_formed_body _ Hwf) as Hbody.
  destruct (@plain_mem _ Hbody) as (_ & Hminus & _).
  assert (Hsign : split_sign (part_of it) =
            (item_operator it,
             String.append (item_coefficient it) (item_variable it))).
  { unfold part_of. destruct (item_operator it); cbn [String.append].
    - now apply first_char_not_minus.
    - reflexivity. }
  unfold parse_term, item_term. rewrite Hsign.
  destruct (item_coefficient it) as [|d coef] eqn:Hcoef.
  - cbn [String.append].
    destruct (str_isalpha (item_variable it)); [reflexivity|].
    destruct (item_variable it) as [|c v]; [discriminate|].
    cbn [starts_with_letter] in Hletter. cbn [first_alpha].
    now rewrite Hletter.
  - assert (Hnot : str_isalpha
                     (String.append (String d coef) (item_variable it))
                   = false).
    { cbn [String.append str_isalpha str_forallb].
      cbn [str_forallb] in Hdigits. apply andb_true_iff in Hdigits.
      destruct Hdigits as [Hd _]. apply negb_true_iff in Hd.
      now rewrite Hd. }
    rewrite Hnot, (first_alpha_app _ _ Hdigits Hletter).
    cbn [String.length Nat.eqb].
    change (S (String.length coef)) with (String.length (String d coef)).
    now rewrite str_take_app, str_drop_app.
Qed.

Lemma parse_sides_standard (items : list item) (right_side : string) :
  Forall (fun it => well_formed it = true) items ->
  parse_sides float_of_str (standard_form items) right_side =
    (rhs <- py_float float_of_str (str_strip right_side) ;;
     terms <- for_each items
                (fun it terms =>
                   t <- item_term float_of_str it ;; Ok (terms ++ [t]))
                [] ;;
     Ok (terms, rhs)).
Proof.
  intros Hall. unfold parse_sides.
  rewrite (@left_parts_standard _ Hall), for_each_map.
  rewrite (for_each_ext
             (fun it terms =>
                t <- parse_term float_of_str (part_of it) ;; Ok (terms ++ [t]))
             (fun it terms =>
                t <- item_term float_of_str it ;; Ok (terms ++ [t]))).
  - reflexivity.
  - intros it ts Hin. rewrite Forall_forall in Hall.
    now rewrite (parse_term_part _ (Hall it Hin)).
Qed.

Lemma left_parts_letterless (part : string) :
  part <> EmptyString -> plain part = true -> left_parts part = [part].
Proof.
  intros Hne Hplain. destruct (@plain_mem _ Hplain) as (Hplus & Hminus & Hspace & _).
  unfold left_parts.
  rewrite (@str_replace_none "-"%char "+-"%string _ Hminus),
    (@str_replace_none " "%char EmptyString _ Hspace),
    (@str_split_none _ _ Hplus).
  cbn [filter]. destruct (String.eqb_spec part EmptyString); [contradiction|].
  reflexivity.
Qed.

Lemma parse_term_letterless (part : string) :
  part <> EmptyString -> plain part = true ->
  str_forallb (fun c => negb (char_isalpha c)) part = true ->
  parse_term float_of_str part = Ok (mkTerm (of_int 1) part ADD).
Proof.
  intros Hne Hplain Hdigits.
  destruct (@plain_mem _ Hplain) as (_ & Hminus & _).
  unfold parse_term. rewrite (first_char_not_minus _ Hminus).
  rewrite (first_alpha_none _ Hdigits).
  destruct part as [|c part]; [contradiction|].
  cbn [str_isalpha str_forallb]. cbn [str_forallb] in Hdigits.
  apply andb_true_iff in Hdigits. destruct Hdigits as [Hc _].
  apply negb_true_iff in Hc. now rewrite Hc.
Qed.

End TermFacts.

(** X12.  An equation in standard form, its terms written one after
    the other as sign, coefficient and name, parses into exactly these
    terms, in order: the sign gives the operator, a term without written
    coefficient has coefficient [1.0], any other has [float] of the text
    before its first letter, and everything from the first letter on is the
    name, digits included.  The right-hand side is [float] of the text
    after the equals sign, stripped. *)
Theorem parse_question_standard_form {F : Type} `{Number F}
  (float_of_str : string -> option F) (items : list item)
  (right_side : string) :
  Forall (fun it => well_formed it = true) items ->
  str_mem "="%char right_side = false ->
  parse_question float_of_str
    (String.append (standard_form items) (String "="%char right_side)) =
    (rhs <- py_float float_of_str (str_strip right_side) ;;
     terms <- for_each items
                (fun it terms =>
                   t <- item_term float_of_str it ;; Ok (terms ++ [t]))
                [] ;;
     Ok (terms, rhs)).
Proof.
  intros Hall Hright.
  rewrite (parse_question_sides float_of_str _ _
             (@str_mem_standard_form _ Hall) Hright).
  now apply parse_sides_standard.
Qed.

(** X12 on [2x-3y2+z= 7]. *)
Lemma parse_question_standard_form_witness :
  parse_question float_of_digits
    (String.append
       (standard_form
          [mkItem ADD "2"%string "x"%string;
           mkItem SUB "3"%string "y2"%string;
           mkItem ADD EmptyString "z"%string])
       (String "="%char " 7"%string)) =
    (rhs <- py_float float_of_digits (str_strip " 7"%string) ;;
     terms <- for_each
                [mkItem ADD "2"%string "x"%string;
                 mkItem SUB "3"%string "y2"%string;
                 mkItem ADD EmptyString "z"%string]
                (fun it terms =>
                   t <- item_term float_of_digits it ;; Ok (terms ++ [t]))
                [] ;;
     Ok (terms, rhs)).
Proof.
  apply (@parse_question_standard_form float Binary64.float_number
           float_of_digits).
  - repeat constructor.
  - reflexivity.
Defined.

(** X13.  A left-hand side without any letter, such as the [3] of
    [3 = 3], is not read as a number: it becomes one term of coefficient
    [1.0] whose variable is named by that text, and [float] is never applied
    to it. *)
Theorem parse_question_letterless_side {F : Type} `{Number F}
  (float_of_str : string -> option F) (part right_side : string) :
  part <> EmptyString -> plain part = true ->
  str_forallb (fun c => negb (char_isalpha c)) part = true ->
  str_mem "="%char right_side = false ->
  parse_question float_of_str
    (String.append part (String "="%char right_side)) =
    (rhs <- py_float float_of_str (str_strip right_side) ;;
     Ok ([mkTerm (of_int 1) part ADD], rhs)).
Proof.
  intros Hne Hplain Hdigits Hright.
  destruct (@plain_mem _ Hplain) as (_ & _ & _ & Heq).
  rewrite (parse_question_sides float_of_str _ _ Heq Hright).
  unfold parse_sides. rewrite (left_parts_letterless Hne Hplain).
  rewrite for_each_cons, (parse_term_letterless float_of_str Hne Hplain Hdigits).
  reflexivity.
Qed.

(** X13 on [3.5 = 3]. *)
Lemma parse_question_letterless_side_witness :
  parse_question float_of_digits
    (String.append "3.5"%string (String "="%char " 3"%string)) =
    (rhs <- py_float float_of_digits (str_strip " 3"%string) ;;
     Ok ([mkTerm (of_int 1) "3.5"%string ADD], rhs)).
Proof.
  apply (@parse_question_letterless_side float Binary64.float_number
           float_of_digits "3.5"%string " 3"%string).
  - discriminate.
  - reflexivity.
  - reflexivity.
  - reflexivity.
Defined.

(** ** The errors of [solve_equations_manual] *)

Lemma solve_parsed_empty {F : Type} `{Number F} :
  solve_parsed (@nil (equation F)) = Raise IndexError.
Proof. reflexivity. Qed.

Lemma solve_parsed_returns {F : Type} `{Number F} (eqs : list (equation F)) :
  eqs <> [] -> exists out, solve_parsed eqs = Ok out.
Proof.
  intros Hne. unfold solve_parsed.
  destruct (solve_with_order_ok Hne (covers_sorted_all_vars eqs))
    as (R & rA & rAB & out & _ & _ & _ & _ & _ & Hsolve & _).
  now exists out.
Qed.

(** X14.  What [solve_equations_manual] can raise.  It raises
    [ValueError] exactly when one of the equations fails to parse, and
    parsing raises nothing else; it raises [IndexError] exactly on the empty
    list ([matrix[0]] in [gauss_jordan]); on every other input it returns.
    It never raises [ZeroDivisionError]: every division is by an entry that
    has passed a tolerance test. *)
Theorem solve_equations_manual_errors {F : Type} `{Number F}
  (float_of_str : string -> option F) (equations : list string) :
  match solve_equations_manual float_of_str equations with
  | Ok _ =>
      equations <> [] /\
      forall e, In e equations ->
        exists p, parse_question float_of_str e = Ok p
  | Raise ValueError =>
      exists e,
        In e equations /\ parse_question float_of_str e = Raise ValueError
  | Raise IndexError =>
      equations = []
  | Raise ZeroDivisionError => False
  end.
Proof.
  unfold solve_equations_manual.
  destruct (for_each equations _ []) as [parsed|e] eqn:Hparse; cbn [bind].
  - destruct (@for_each_collect _ _ _ _ _ _ Hparse) as (ss & Hss & Hall).
    cbn [app] in Hss. subst ss.
    assert (Hevery : forall e, In e equations ->
              exists p, parse_question float_of_str e = Ok p).
    { intros e He. destruct (In_nth _ _ EmptyString He) as (i & Hi & <-).
      exists (nth i parsed ([], of_int 0)).
      exact (@Forall2_nth _ _ _ _ _ i EmptyString ([], of_int 0) Hall Hi). }
    destruct equations as [|e0 equations].
    + inversion Hall; subst. rewrite solve_parsed_empty. reflexivity.
    + assert (Hne : parsed <> []) by (inversion Hall; discriminate).
      destruct (solve_parsed_returns Hne) as (out & ->).
      split; [discriminate | assumption].
  - destruct (@for_each_collect_raise _ _ _ _ _ _ Hparse) as (x & Hx & Hraise).
    pose proof (parse_question_raises _ _ Hraise) as ->.
    exists x. auto.
Qed.

(** * The matrix builder *)

Section Builder.
Context {F : Type} `{Number F}.

(** A column whose variable no term names keeps the [0] that line 173 put
    there. *)
Lemma build_row_absent (var_order : list string) (terms : list (Term F))
  (row : list F) (c : nat) :
  build_row var_order terms = Ok row ->
  (forall t, In t terms -> variable t <> nth c var_order EmptyString) ->
  c < length var_order ->
  nth c row (of_int 0) = of_int 0.
Proof.
  unfold build_row. intros Hrun Habsent Hc.
  apply (for_each_post
           (fun r : list F => nth c r (of_int 0) = of_int 0) _ _ _ Hrun).
  - now apply nth_repeat_lt.
  - intros t r r' Ht Hr Hbody.
    apply bind_ok in Hbody. destruct Hbody as (idx & Hidx & Hbody).
    apply index_nth in Hidx. destruct Hidx as [_ Hidx].
    cbv zeta in Hbody. apply bind_ok in Hbody.
    destruct Hbody as (a & _ & Hset). unfold list_set in Hset.
    destruct (idx <? length r); [|discriminate]. injection Hset as <-.
    rewrite nth_replace_nth_neq; [assumption|].
    intros ->. apply (Habsent t Ht). now symmetry.
Qed.

End Builder.

(** X15.  The matrix builder returns on every system: [A] has one row
    an equation and one column a variable, [B] holds the right-hand sides
    as they were parsed, and the entry of a column whose variable does not
    occur in the equation of its row is the [0] the row started from. *)
Theorem matrix_builder_shape {F : Type} `{Number F}
  (eqs : list (equation F)) :
  exists A,
    build_matrix (sorted (all_vars eqs)) eqs = Ok (A, map snd eqs) /\
    rect A (length eqs) (length (sorted (all_vars eqs))) /\
    forall r c,
      r < length eqs -> c < length (sorted (all_vars eqs)) ->
      (forall t, In t (fst (nth r eqs ([], of_int 0))) ->
         variable t <> nth c (sorted (all_vars eqs)) EmptyString) ->
      entry (of_int 0) A r c = of_int 0.
Proof.
  destruct (build_matrix_ok (covers_sorted_all_vars eqs))
    as (A & HA & Hrect & Hrows).
  exists A. split; [assumption|]. split; [assumption|].
  intros r c Hr Hc Habsent.
  pose proof (@Forall2_nth _ _ _ _ _ r ([], of_int 0) [] Hrows Hr) as Hrow.
  cbv beta in Hrow. unfold entry.
  exact (@build_row_absent _ _ _ _ _ _ Hrow Habsent Hc).
Qed.

(** * The branch of the unique solution *)

Lemma unique_branch {F : Type} `{Number F} (eqs : list (equation F)) :
  classified_unique eqs = true ->
  exists R A,
    build_matrix (sorted (all_vars eqs)) eqs = Ok (A, map snd eqs) /\
    rect A (length eqs) (length (sorted (all_vars eqs))) /\
    Forall2
      (fun e row => build_row (sorted (all_vars eqs)) (fst e) = Ok row)
      eqs A /\
    gauss_jordan (augment A (map snd eqs)) = Ok R /\
    reduced_system (sorted (all_vars eqs)) eqs = Ok R /\
    length (sorted (all_vars eqs)) <= length eqs /\
    0 < length eqs /\
    solve_parsed eqs =
      Ok (UniqueSolution
            (dict_of (combine (sorted (all_vars eqs))
                        (map (fun row => last row (of_int 0)) R)))) /\
    forall k, k < length (sorted (all_vars eqs)) ->
      dict_get
        (dict_of (combine (sorted (all_vars eqs))
                    (map (fun row => last row (of_int 0)) R)))
        (nth k (sorted (all_vars eqs)) EmptyString) =
      Some (entry (of_int 0) R k (length (sorted (all_vars eqs)))).
Proof.
  intros Hclass.
  assert (Hne : eqs <> []).
  { intros ->. cbv in Hclass. discriminate. }
  pose proof (covers_sorted_all_vars eqs) as Hcov.
  pose proof (sorted_all_vars_nodup eqs) as Hnd.
  unfold classified_unique, solve_parsed in Hclass. unfold solve_parsed.
  set (vo := sorted (all_vars eqs)) in *. clearbody vo.
  destruct (solve_with_order_branches Hne Hcov)
    as (R & rA & rAB & HR & Hrect & HrA & HrAB & Hsolve).
  rewrite Hsolve in Hclass |- *.
  destruct (negb (rA =? rAB)); [discriminate|].
  destruct (Nat.ltb_spec rA (length vo)) as [Hlt|Hge].
  { destruct (@generate_infinite_solutions_ok _ _ (map (@removelast F) R) R
                vo (length eqs)) as (b & f & ex & Hgen);
      [now apply removelast_rect | assumption |].
    rewrite Hgen in Hclass. discriminate. }
  assert (Hrank : rA <= length eqs).
  { apply (@check_rank_le_rows _ _ (map (@removelast F) R) (length eqs)
             (length vo) rA); [|assumption].
    now apply removelast_rect. }
  destruct (build_matrix_ok Hcov) as (A & HA & HArect & Hbuilt).
  pose proof HR as HR'. unfold reduced_system in HR'.
  rewrite HA, bind_Ok in HR'.
  exists R, A. repeat (split; [first [assumption | lia]|]).
  split; [destruct eqs; [congruence | simpl; lia]|].
  split; [reflexivity|].
  intros k Hk.
  rewrite (@dict_of_combine _ (of_int 0) vo _ k Hnd Hk)
    by (rewrite length_map; destruct Hrect as [-> _]; lia).
  f_equal. apply (@last_column_entry _ _ R (length eqs)); [assumption|lia].
Qed.

(** * Runs that do not round

    A float that is a number stands for a rational; an operation of the
    program is exact when the rational of its result is what the operation
    gives on the rationals of its operands. *)

Module Exact.

Import QArith_base Qcanon.

Local Open Scope Qc_scope.

(** The rational a float stands for; infinities and NaN stand for
    nothing, and are given [0]. *)
Definition value (x : float) : Qc :=
  match Prim2SF x with
  | S754_finite s m e =>
      Q2Qc (inject_Z (if s then Z.neg m else Z.pos m) * Qpower (2 # 1) e)
  | _ => Q2Qc 0
  end.

Definition Qc_eqb (x y : Qc) : bool := Qeq_bool (this x) (this y).

Lemma Qc_eqb_eq (x y : Qc) : Qc_eqb x y = true -> x = y.
Proof.
  unfold Qc_eqb. intros H. apply Qeq_bool_iff in H. now apply Qc_is_canon.
Qed.

(** [a / p] is a number, and exact. *)
Definition exact_quot (a p : float) : bool :=
  is_finite (fquot a p) && Qc_eqb (value (fquot a p) * value p) (value a).

(** [a - f * b] is a number, and exact. *)
Definition exact_sub_mul (a f b : float) : bool :=
  is_finite (fsub a (fmul f b)) &&
  Qc_eqb (value (fsub a (fmul f b))) (value a - value f * value b).

(** [a + sign * c] is a number, and exact. *)
Definition exact_add_mul (a : float) (sign : Z) (c : float) : bool :=
  is_finite (fadd a (fmul (of_int sign) c)) &&
  Qc_eqb (value (fadd a (fmul (of_int sign) c)))
    (value a + Q2Qc (inject_Z sign) * value c).

Lemma exact_quot_spec (a p : float) :
  exact_quot a p = true -> value (fquot a p) * value p = value a.
Proof.
  unfold exact_quot. rewrite andb_true_iff. intros [_ H].
  now apply Qc_eqb_eq.
Qed.

Lemma exact_sub_mul_spec (a f b : float) :
  exact_sub_mul a f b = true ->
  value (fsub a (fmul f b)) = value a - value f * value b.
Proof.
  unfold exact_sub_mul. rewrite andb_true_iff. intros [_ H].
  now apply Qc_eqb_eq.
Qed.

Lemma exact_add_mul_spec (a : float) (sign : Z) (c : float) :
  exact_add_mul a sign c = true ->
  value (fadd a (fmul (of_int sign) c)) =
    value a + Q2Qc (inject_Z sign) * value c.
Proof.
  unfold exact_add_mul. rewrite andb_true_iff. intros [_ H].
  now apply Qc_eqb_eq.
Qed.

(** ** Sums over the columns *)

(** The sum over the columns [c < n] of [e c] times [x c]. *)
Fixpoint row_sum (x e : nat -> Qc) (n : nat) : Qc :=
  match n with
  | O => Q2Qc 0
  | S k => row_sum x e k + e k * x k
  end.

Lemma row_sum_ext (x e e' : nat -> Qc) (n : nat) :
  (forall c, (c < n)%nat -> e c = e' c) -> row_sum x e n = row_sum x e' n.
Proof.
  induction n as [|n IH]; intros He; simpl; [reflexivity|].
  rewrite IH by (intros c Hc; apply He; lia). now rewrite He by lia.
Qed.

Lemma row_sum_sub (x a b : nat -> Qc) (f : Qc) (n : nat) :
  row_sum x (fun c => a c - f * b c) n =
    row_sum x a n - f * row_sum x b n.
Proof.
  induction n as [|n IH]; simpl; [ring|]. rewrite IH. ring.
Qed.

Lemma row_sum_scaled (x a q : nat -> Qc) (p : Qc) (n : nat) :
  (forall c, (c < n)%nat -> q c * p = a c) ->
  row_sum x q n * p = row_sum x a n.
Proof.
  induction n as [|n IH]; intros Hq; simpl; [ring|].
  rewrite <- IH by (intros c Hc; apply Hq; lia).
  rewrite <- (Hq n) by lia. ring.
Qed.

Lemma row_sum_update (x e : nat -> Qc) (b : Qc) (idx n : nat) :
  (idx < n)%nat ->
  row_sum x (fun c => if (c =? idx)%nat then e c + b else e c) n =
    row_sum x e n + b * x idx.
Proof.
  induction n as [|n IH]; intros Hidx; [lia|]. simpl.
  destruct (Nat.eqb_spec n idx) as [->|Hne].
  - rewrite (row_sum_ext x _ e).
    + ring.
    + intros c Hc. destruct (Nat.eqb_spec c idx); [lia | reflexivity].
  - rewrite IH by lia. ring.
Qed.

Lemma row_sum_zero (x : nat -> Qc) (n : nat) :
  row_sum x (fun _ => Q2Qc 0) n = Q2Qc 0.
Proof. induction n as [|n IH]; simpl; [reflexivity|]. rewrite IH. ring. Qed.

Lemma row_sum_delta (x : nat -> Qc) (r n : nat) :
  row_sum x (fun c => if (r =? c)%nat then Q2Qc 1 else Q2Qc 0) n =
    if (r <? n)%nat then x r else Q2Qc 0.
Proof.
  induction n as [|n IH]; simpl; [reflexivity|]. rewrite IH.
  destruct (Nat.eqb_spec r n) as [->|Hne].
  - destruct (Nat.ltb_spec n n); [lia|].
    destruct (Nat.ltb_spec n (S n)); [|lia]. ring.
  - destruct (Nat.ltb_spec r n), (Nat.ltb_spec r (S n)); try lia; ring.
Qed.

(** ** The checks *)

Local Abbreviation ent := (@entry float (of_int 0)).

(** The builder's loop over the terms of an equation (lines 174-177), from
    the row [row] on: every coefficient is a number and every addition is
    exact. *)
Fixpoint exact_terms (var_order : list string) (terms : list (Term float))
  (row : list float) : bool :=
  match terms with
  | [] => true
  | term :: terms' =>
      match index var_order (variable term) with
      | Ok idx =>
          let sign := match operator term with ADD => 1%Z | SUB => (-1)%Z end in
          let a := nth idx row (of_int 0) in
          is_finite (coefficient term) &&
          exact_add_mul a sign (coefficient term) &&
          exact_terms var_order terms'
            (replace_nth row idx
               (fadd a (fmul (of_int sign) (coefficient term))))
      | Raise _ => false
      end
  end.

(** The builder on a system: every right-hand side is a number, and every
    row is built exactly. *)
Definition exact_builder (var_order : list string)
  (eqs : list (equation float)) : bool :=
  forallb
    (fun e =>
       is_finite (snd e) &&
       exact_terms var_order (fst e)
         (repeat (of_int 0) (length var_order)))
    eqs.

(** One turn of the loop of [gauss_jordan] on [t]: when the pivot is not
    skipped, every division of line 101 and every update of line 108 is
    exact. *)
Definition exact_step (rows cols i : nat) (t : matrix float) : bool :=
  match find_pivot t i rows with
  | Ok p =>
      match (if (p =? i)%nat then Ok t else swap_rows t i p) with
      | Ok m1 =>
          if fltb (fabs (ent m1 i i)) tol then true
          else
            forallb (fun c => exact_quot (ent m1 i c) (ent m1 i i))
              (seq 0 cols) &&
            match scale_row m1 i cols with
            | Ok m2 =>
                forallb
                  (fun r =>
                     (r =? i)%nat || negb (fltb tol (fabs (ent m2 r i))) ||
                     forallb
                       (fun c =>
                          exact_sub_mul (ent m2 r c) (ent m2 r i) (ent m2 i c))
                       (seq 0 cols))
                  (seq 0 rows)
            | Raise _ => false
            end
      | Raise _ => false
      end
  | Raise _ => false
  end.

(** The solver on a system rounds nowhere: not in the builder, and not in
    the reduction of the augmented matrix. *)
Definition rounding_free (eqs : list (equation float)) : bool :=
  exact_builder (sorted (all_vars eqs)) eqs &&
  match build_matrix (sorted (all_vars eqs)) eqs with
  | Ok (A, B) => run_passes exact_step (augment A B)
  | Raise _ => false
  end.

(** The reduced matrix is the identity over rows of zeros, beside a column
    of numbers: entry [(r, c)] equals [1] when [r = c] and [0] otherwise,
    the constant of a row of the identity is a number, and the constant of
    every row past the variables is zero. *)
Definition is_unit_form (R : matrix float) (rows n : nat) : bool :=
  forallb
    (fun r =>
       forallb
         (fun c =>
            PrimFloat.eqb (ent R r c)
              (if (r =? c)%nat then of_int 1 else of_int 0))
         (seq 0 n) &&
       (if (r <? n)%nat then is_finite (ent R r n) else is_zero (ent R r n)))
    (seq 0 rows).

(** The system reduces to unit form. *)
Definition reduces_to_unit_form (eqs : list (equation float)) : bool :=
  match reduced_system (sorted (all_vars eqs)) eqs with
  | Ok R => is_unit_form R (length eqs) (length (sorted (all_vars eqs)))
  | Raise _ => false
  end.

(** ** What an equation says of an assignment, exactly *)

(** A term under an assignment of rationals to the variables: sign times
    coefficient times assigned value. *)
Definition exact_term_value (x : string -> Qc) (t : Term float) : Qc :=
  Q2Qc (inject_Z match operator t with ADD => 1%Z | SUB => (-1)%Z end) *
  value (coefficient t) * x (variable t).

(** The left-hand side of an equation under an assignment. *)
Definition exact_lhs (x : string -> Qc) (terms : list (Term float)) : Qc :=
  fold_left (fun acc t => acc + exact_term_value x t) terms (Q2Qc 0).

(** The assignment a solution stands for, read as the verification scripts
    read a solution. *)
Definition values_of (solution : dict float) (var : string) : Qc :=
  value (assigned solution var).

(** The assignment [x] satisfies row [r] of the augmented matrix [m], whose
    constants are in column [n]. *)
Definition holds (x : nat -> Qc) (n : nat) (m : matrix float) (r : nat)
  : Prop :=
  row_sum x (fun c => value (ent m r c)) n = value (ent m r n).

(** ** The reduction makes no solution *)

(** A turn of [gauss_jordan] that rounds nowhere makes no solution: what
    satisfies every row after it satisfied every row before it. *)
Lemma step_backward (x : nat -> Qc) (rows n i : nat) (t t' : matrix float) :
  rect t rows (n + 1) -> (i < rows)%nat -> (i < n + 1)%nat ->
  gauss_jordan_step rows (n + 1) i t = Ok t' ->
  exact_step rows (n + 1) i t = true ->
  (forall r, (r < rows)%nat -> holds x n t' r) ->
  forall r, (r < rows)%nat -> holds x n t r.
Proof.
  intros Ht Hi Hic Hrun Hex Hall.
  destruct (gauss_jordan_step_trace Ht Hi Hic)
    as (p & m1 & Hp & Hpr & Hsw & Hm1 & He1 & Hcases).
  unfold exact_step in Hex. rewrite Hp, Hsw in Hex.
  assert (H1 : forall r, (r < rows)%nat -> holds x n m1 r).
  { destruct Hcases as [[Hlow Hrun']|(Hhigh & m2 & t2 & Hsc & Hm2 & He2 & _ &
                                       _ & He' & Hrun')].
    { assert (t' = m1) by congruence. now subst t'. }
    assert (t2 = t') by congruence. subst t2.
    rewrite Hhigh, Hsc in Hex. apply andb_true_iff in Hex.
    destruct Hex as [Hquot Helim].
    rewrite forallb_forall in Hquot, Helim.
    assert (H2 : forall r, (r < rows)%nat -> holds x n m2 r).
    { assert (H2i : holds x n m2 i).
      { specialize (Hall i Hi). unfold holds in *.
        rewrite (row_sum_ext x _ (fun c => value (ent m2 i c))) in Hall.
        - rewrite He' in Hall. rewrite Nat.eqb_refl in Hall.
          now rewrite andb_false_r in Hall.
        - intros c _. rewrite He'. rewrite Nat.eqb_refl.
          now rewrite andb_false_r. }
      intros r Hr. destruct (Nat.eq_dec r i) as [->|Hri]; [assumption|].
      specialize (Hall r Hr). unfold holds in *.
      destruct (fltb tol (fabs (ent m2 r i))) eqn:Hab.
      - assert (Hexact : forall c, (c < n + 1)%nat ->
                  value (ent t' r c) =
                    value (ent m2 r c) - value (ent m2 r i) * value (ent m2 i c)).
        { intros c Hc. rewrite He', Hab.
          destruct (Nat.ltb_spec r rows); [|lia].
          destruct (Nat.eqb_spec r i); [congruence|].
          destruct (Nat.ltb_spec c (n + 1)); [|lia]. cbn [andb negb].
          apply exact_sub_mul_spec.
          specialize (Helim r ltac:(apply in_seq; lia)).
          destruct (Nat.eqb_spec r i); [congruence|].
          rewrite Hab in Helim. cbn [orb negb] in Helim.
          rewrite forallb_forall in Helim. apply Helim. apply in_seq. lia. }
        rewrite (row_sum_ext x _
                   (fun c => value (ent m2 r c) -
                             value (ent m2 r i) * value (ent m2 i c)))
          in Hall by (intros c Hc; apply Hexact; lia).
        rewrite row_sum_sub, H2i, (Hexact n ltac:(lia)) in Hall.
        replace (row_sum x (fun c => value (ent m2 r c)) n) with
          (row_sum x (fun c => value (ent m2 r c)) n -
           value (ent m2 r i) * value (ent m2 i n) +
           value (ent m2 r i) * value (ent m2 i n)) by ring.
        rewrite Hall. ring.
      - rewrite (row_sum_ext x _ (fun c => value (ent m2 r c))) in Hall.
        + rewrite He', Hab in Hall. now rewrite andb_false_r in Hall.
        + intros c _. rewrite He', Hab. now rewrite andb_false_r. }
    assert (Hscaled : forall c, (c < n + 1)%nat ->
              value (ent m2 i c) * value (ent m1 i i) = value (ent m1 i c)).
    { intros c Hc. rewrite He2, Nat.eqb_refl.
      destruct (Nat.ltb_spec c (n + 1)); [|lia]. cbn [andb].
      apply exact_quot_spec. apply Hquot. apply in_seq. lia. }
    intros r Hr. specialize (H2 r Hr). unfold holds in *.
    destruct (Nat.eq_dec r i) as [->|Hri].
    - rewrite <- (@row_sum_scaled x (fun c => value (ent m1 i c))
                    (fun c => value (ent m2 i c)) (value (ent m1 i i)) n)
        by (intros c Hc; apply Hscaled; lia).
      rewrite H2. apply Hscaled. lia.
    - rewrite (row_sum_ext x _ (fun c => value (ent m1 r c))) in H2.
      + rewrite He2 in H2. destruct (Nat.eqb_spec r i); [congruence|].
        exact H2.
      + intros c _. rewrite He2. destruct (Nat.eqb_spec r i); [congruence|].
        reflexivity. }
  intros r Hr.
  set (r' := if (r =? i)%nat then p else if (r =? p)%nat then i else r).
  assert (Hr' : (r' < rows)%nat).
  { subst r'. destruct (r =? i)%nat; [lia|]. destruct (r =? p)%nat; lia. }
  specialize (H1 r' Hr'). unfold holds in *.
  assert (Hrow : forall c, ent m1 r' c = ent t r c).
  { intros c. rewrite He1. subst r'. f_equal. clear.
    destruct (Nat.eqb_spec r i) as [Hri|Hri].
    - subst r. destruct (Nat.eqb_spec p i) as [Hpi|Hpi]; [now subst p|].
      now rewrite Nat.eqb_refl.
    - destruct (Nat.eqb_spec r p) as [Hrp|Hrp].
      + subst r. now rewrite Nat.eqb_refl.
      + destruct (Nat.eqb_spec r i); [congruence|].
        destruct (Nat.eqb_spec r p); [congruence | reflexivity]. }
  rewrite (row_sum_ext x _ (fun c => value (ent t r c))) in H1
    by (intros; now rewrite Hrow).
  now rewrite Hrow in H1.
Qed.

Lemma steps_backward (x : nat -> Qc) (rows n : nat) (steps : list nat) :
  (forall i, In i steps -> (i < rows)%nat /\ (i < n + 1)%nat) ->
  forall t t' : matrix float,
  rect t rows (n + 1) ->
  for_each steps (gauss_jordan_step rows (n + 1)) t = Ok t' ->
  steps_pass (exact_step rows (n + 1)) rows (n + 1) steps t = true ->
  (forall r, (r < rows)%nat -> holds x n t' r) ->
  forall r, (r < rows)%nat -> holds x n t r.
Proof.
  induction steps as [|i steps IH]; intros Hsteps t t' Ht Hrun Hex Hall.
  - simpl in Hrun. injection Hrun as <-. assumption.
  - rewrite for_each_cons in Hrun. cbn [steps_pass] in Hex.
    apply andb_true_iff in Hex. destruct Hex as [Hex1 Hex].
    destruct (Hsteps i (or_introl eq_refl)) as [Hi Hin].
    destruct (@gauss_jordan_step_ok _ _ t rows (n + 1) i Ht Hi Hin)
      as (t1 & Hstep & Ht1 & _).
    rewrite Hstep in Hex. rewrite Hstep, bind_Ok in Hrun.
    apply (@step_backward x rows n i t t1 Ht Hi Hin Hstep Hex1).
    apply (IH (fun j Hj => Hsteps j (or_intror Hj)) t1 t' Ht1 Hrun Hex Hall).
Qed.

(** A run of [gauss_jordan] that rounds nowhere makes no solution. *)
Lemma gauss_jordan_backward (x : nat -> Qc) (rows n : nat)
  (m m' : matrix float) :
  rect m rows (n + 1) -> (0 < rows)%nat ->
  gauss_jordan m = Ok m' ->
  run_passes exact_step m = true ->
  (forall r, (r < rows)%nat -> holds x n m' r) ->
  forall r, (r < rows)%nat -> holds x n m r.
Proof.
  intros Hm Hrows Hrun Hex. unfold gauss_jordan in Hrun.
  unfold run_passes in Hex.
  rewrite (len_first_ok Hm Hrows) in Hex.
  rewrite (len_first_ok Hm Hrows), bind_Ok in Hrun.
  replace (length m) with rows in Hrun, Hex by (destruct Hm; congruence).
  refine (@steps_backward x rows n _ _ m m' Hm Hrun Hex).
  intros i Hi. apply in_range in Hi. lia.
Qed.

(** ** The reduction loses no solution *)

(** A float that is a number and not zero stands for a rational that is
    not zero. *)
Lemma value_nonzero (x : float) :
  is_finite x = true -> is_zero x = false -> value x <> Q2Qc 0.
Proof.
  intros Hf Hz. destruct (finite_nonzero Hf Hz) as (s & m & e & Hx).
  unfold value. rewrite Hx. intros Heq. apply Q2Qc_eq_iff in Heq.
  apply Qmult_integral in Heq. destruct Heq as [Heq|Heq].
  - destruct s; discriminate.
  - revert Heq. apply Qpower.Qpower_not_0. discriminate.
Qed.

(** The pivot of a turn that divides exactly is a number. *)
Lemma exact_pivot (p : float) :
  fltb (fabs p) tol = false -> exact_quot p p = true ->
  value p <> Q2Qc 0.
Proof.
  intros Hhigh Hex. unfold exact_quot in Hex.
  apply andb_true_iff in Hex. destruct Hex as [Hfin _].
  pose proof (not_below_tol_nonzero _ Hhigh) as Hnz.
  apply value_nonzero; [|assumption].
  apply is_finite_spec in Hfin. apply is_finite_spec.
  change (fquot p p) with (p / p)%float in Hfin.
  rewrite FloatAxioms.div_spec in Hfin.
  destruct (Prim2SF p) as [s|s| |s m e]; eauto;
    destruct Hfin as [[s' Hs]|(s' & m' & e' & Hs)]; discriminate.
Qed.

(** A turn of [gauss_jordan] that rounds nowhere loses no solution. *)
Lemma step_forward (x : nat -> Qc) (rows n i : nat) (t t' : matrix float) :
  rect t rows (n + 1) -> (i < rows)%nat -> (i < n + 1)%nat ->
  gauss_jordan_step rows (n + 1) i t = Ok t' ->
  exact_step rows (n + 1) i t = true ->
  (forall r, (r < rows)%nat -> holds x n t r) ->
  forall r, (r < rows)%nat -> holds x n t' r.
Proof.
  intros Ht Hi Hic Hrun Hex Hall.
  destruct (gauss_jordan_step_trace Ht Hi Hic)
    as (p & m1 & Hp & Hpr & Hsw & Hm1 & He1 & Hcases).
  unfold exact_step in Hex. rewrite Hp, Hsw in Hex.
  assert (H1 : forall r, (r < rows)%nat -> holds x n m1 r).
  { intros r Hr.
    set (r' := if (r =? i)%nat then p else if (r =? p)%nat then i else r).
    assert (Hr' : (r' < rows)%nat).
    { subst r'. destruct (r =? i)%nat; [lia|]. destruct (r =? p)%nat; lia. }
    specialize (Hall r' Hr'). unfold holds in *.
    rewrite (row_sum_ext x _ (fun c => value (ent t r' c)))
      by (intros; now rewrite He1).
    now rewrite He1. }
  destruct Hcases as [[Hlow Hrun']|(Hhigh & m2 & t2 & Hsc & Hm2 & He2 & _ &
                                     _ & He' & Hrun')].
  { assert (t' = m1) by congruence. now subst t'. }
  assert (t2 = t') by congruence. subst t2.
  rewrite Hhigh, Hsc in Hex. apply andb_true_iff in Hex.
  destruct Hex as [Hquot Helim].
  rewrite forallb_forall in Hquot, Helim.
  assert (Hpivot : value (ent m1 i i) <> Q2Qc 0).
  { apply exact_pivot; [assumption|]. apply Hquot. apply in_seq. lia. }
  assert (Hscaled : forall c, (c < n + 1)%nat ->
            value (ent m2 i c) * value (ent m1 i i) = value (ent m1 i c)).
  { intros c Hc. rewrite He2, Nat.eqb_refl.
    destruct (Nat.ltb_spec c (n + 1)); [|lia]. cbn [andb].
    apply exact_quot_spec. apply Hquot. apply in_seq. lia. }
  assert (H2 : forall r, (r < rows)%nat -> holds x n m2 r).
  { intros r Hr. specialize (H1 r Hr). unfold holds in *.
    destruct (Nat.eq_dec r i) as [->|Hri].
    - assert (Hd : value (ent m1 i i) *
                   (row_sum x (fun c => value (ent m2 i c)) n -
                    value (ent m2 i n)) = Q2Qc 0).
      { rewrite <- (@row_sum_scaled x (fun c => value (ent m1 i c))
                      (fun c => value (ent m2 i c)) (value (ent m1 i i)) n)
          in H1 by (intros c Hc; apply Hscaled; lia).
        rewrite <- (Hscaled n ltac:(lia)) in H1.
        replace (value (ent m1 i i) *
                 (row_sum x (fun c => value (ent m2 i c)) n -
                  value (ent m2 i n)))
          with (row_sum x (fun c => value (ent m2 i c)) n *
                  value (ent m1 i i) -
                value (ent m2 i n) * value (ent m1 i i)) by ring.
        rewrite H1. ring. }
      apply (Qcmult_integral_l _ _ Hpivot) in Hd.
      replace (row_sum x (fun c => value (ent m2 i c)) n) with
        (row_sum x (fun c => value (ent m2 i c)) n - value (ent m2 i n) +
         value (ent m2 i n)) by ring.
      rewrite Hd. ring.
    - rewrite (row_sum_ext x _ (fun c => value (ent m1 r c))).
      + rewrite He2. destruct (Nat.eqb_spec r i); [congruence|]. exact H1.
      + intros c _. rewrite He2. destruct (Nat.eqb_spec r i); [congruence|].
        reflexivity. }
  intros r Hr. pose proof (H2 r Hr) as H2r. pose proof (H2 i Hi) as H2i.
  unfold holds in *.
  destruct (Nat.eq_dec r i) as [->|Hri].
  { rewrite (row_sum_ext x _ (fun c => value (ent m2 i c))).
    - rewrite He', Nat.eqb_refl. now rewrite andb_false_r.
    - intros c _. rewrite He', Nat.eqb_refl. now rewrite andb_false_r. }
  destruct (fltb tol (fabs (ent m2 r i))) eqn:Hab.
  - assert (Hexact : forall c, (c < n + 1)%nat ->
              value (ent t' r c) =
                value (ent m2 r c) - value (ent m2 r i) * value (ent m2 i c)).
    { intros c Hc. rewrite He', Hab.
      destruct (Nat.ltb_spec r rows); [|lia].
      destruct (Nat.eqb_spec r i); [congruence|].
      destruct (Nat.ltb_spec c (n + 1)); [|lia]. cbn [andb negb].
      apply exact_sub_mul_spec.
      specialize (Helim r ltac:(apply in_seq; lia)).
      destruct (Nat.eqb_spec r i); [congruence|].
      rewrite Hab in Helim. cbn [orb negb] in Helim.
      rewrite forallb_forall in Helim. apply Helim. apply in_seq. lia. }
    rewrite (row_sum_ext x _
               (fun c => value (ent m2 r c) -
                         value (ent m2 r i) * value (ent m2 i c)))
      by (intros c Hc; apply Hexact; lia).
    rewrite row_sum_sub, H2r, H2i, (Hexact n ltac:(lia)). reflexivity.
  - rewrite (row_sum_ext x _ (fun c => value (ent m2 r c))).
    + rewrite He', Hab. now rewrite andb_false_r.
    + intros c _. rewrite He', Hab. now rewrite andb_false_r.
Qed.

Lemma steps_forward (x : nat -> Qc) (rows n : nat) (steps : list nat) :
  (forall i, In i steps -> (i < rows)%nat /\ (i < n + 1)%nat) ->
  forall t t' : matrix float,
  rect t rows (n + 1) ->
  for_each steps (gauss_jordan_step rows (n + 1)) t = Ok t' ->
  steps_pass (exact_step rows (n + 1)) rows (n + 1) steps t = true ->
  (forall r, (r < rows)%nat -> holds x n t r) ->
  forall r, (r < rows)%nat -> holds x n t' r.
Proof.
  induction steps as [|i steps IH]; intros Hsteps t t' Ht Hrun Hex Hall.
  - simpl in Hrun. injection Hrun as <-. assumption.
  - rewrite for_each_cons in Hrun. cbn [steps_pass] in Hex.
    apply andb_true_iff in Hex. destruct Hex as [Hex1 Hex].
    destruct (Hsteps i (or_introl eq_refl)) as [Hi Hin].
    destruct (@gauss_jordan_step_ok _ _ t rows (n + 1) i Ht Hi Hin)
      as (t1 & Hstep & Ht1 & _).
    rewrite Hstep in Hex. rewrite Hstep, bind_Ok in Hrun.
    apply (IH (fun j Hj => Hsteps j (or_intror Hj)) t1 t' Ht1 Hrun Hex).
    apply (@step_forward x rows n i t t1 Ht Hi Hin Hstep Hex1 Hall).
Qed.

(** A run of [gauss_jordan] that rounds nowhere loses no solution. *)
Lemma gauss_jordan_forward (x : nat -> Qc) (rows n : nat)
  (m m' : matrix float) :
  rect m rows (n + 1) -> (0 < rows)%nat ->
  gauss_jordan m = Ok m' ->
  run_passes exact_step m = true ->
  (forall r, (r < rows)%nat -> holds x n m r) ->
  forall r, (r < rows)%nat -> holds x n m' r.
Proof.
  intros Hm Hrows Hrun Hex. unfold gauss_jordan in Hrun.
  unfold run_passes in Hex.
  rewrite (len_first_ok Hm Hrows) in Hex.
  rewrite (len_first_ok Hm Hrows), bind_Ok in Hrun.
  replace (length m) with rows in Hrun, Hex by (destruct Hm; congruence).
  refine (@steps_forward x rows n _ _ m m' Hm Hrun Hex).
  intros i Hi. apply in_range in Hi. lia.
Qed.

(** ** The builder's rows *)

(** The value an assignment gives to the variable of column [c]. *)
Definition column_value (x : string -> Qc) (var_order : list string)
  (c : nat) : Qc :=
  x (nth c var_order EmptyString).

(** A row built without rounding, summed against an assignment, is the
    left-hand side of its equation. *)
Lemma build_row_value (x : string -> Qc) (var_order : list string)
  (terms : list (Term float)) :
  forall (row0 row : list float),
  length row0 = length var_order ->
  for_each terms
    (fun term row =>
       idx <- index var_order (variable term) ;;
       let sign := match operator term with ADD => 1%Z | SUB => (-1)%Z end in
       a <- list_get row idx ;;
       list_set row idx (fadd a (fmul (of_int sign) (coefficient term))))
    row0 = Ok row ->
  exact_terms var_order terms row0 = true ->
  row_sum (column_value x var_order)
    (fun c => value (nth c row (of_int 0))) (length var_order) =
  fold_left (fun acc t => acc + exact_term_value x t) terms
    (row_sum (column_value x var_order)
       (fun c => value (nth c row0 (of_int 0))) (length var_order)).
Proof.
  induction terms as [|t terms IH]; intros row0 row Hlen Hrun Hex.
  - simpl in Hrun. injection Hrun as <-. reflexivity.
  - rewrite for_each_cons in Hrun. apply bind_ok in Hrun.
    destruct Hrun as (row1 & Hstep & Hrest).
    apply bind_ok in Hstep. destruct Hstep as (idx & Hidx & Hstep).
    cbn [exact_terms] in Hex. rewrite Hidx in Hex. cbv zeta in Hex.
    apply andb_true_iff in Hex. destruct Hex as [Hex Hexrest].
    apply andb_true_iff in Hex. destruct Hex as [_ Hadd].
    apply exact_add_mul_spec in Hadd.
    apply index_nth in Hidx. destruct Hidx as [Hlt Hvar].
    cbv zeta in Hstep.
    rewrite (list_get_ok row0 (of_int 0)), bind_Ok in Hstep by lia.
    rewrite list_set_ok in Hstep by lia. injection Hstep as <-.
    pose proof Hlen as Hlen1.
    rewrite <- (length_replace_nth row0 idx
                  (fadd (nth idx row0 (of_int 0))
                     (fmul (of_int
                        match operator t with
                        | ADD => 1%Z
                        | SUB => (-1)%Z
                        end) (coefficient t)))) in Hlen1.
    rewrite (IH _ row Hlen1 Hrest Hexrest).
    simpl fold_left. f_equal.
    rewrite (row_sum_ext _ _
               (fun c => if (c =? idx)%nat
                         then value (nth c row0 (of_int 0)) +
                              Q2Qc (inject_Z
                                 match operator t with
                                 | ADD => 1%Z
                                 | SUB => (-1)%Z
                                 end) * value (coefficient t)
                         else value (nth c row0 (of_int 0)))).
    + rewrite row_sum_update by assumption.
      unfold exact_term_value, column_value. rewrite Hvar. reflexivity.
    + intros c Hc. destruct (Nat.eqb_spec c idx) as [->|Hne].
      * rewrite nth_replace_nth_eq by lia. exact Hadd.
      * rewrite nth_replace_nth_neq by congruence. reflexivity.
Qed.

Lemma value_zero : value (of_int 0) = Q2Qc 0.
Proof. reflexivity. Qed.

Lemma build_row_lhs (x : string -> Qc) (var_order : list string)
  (terms : list (Term float)) (row : list float) :
  build_row var_order terms = Ok row ->
  exact_terms var_order terms (repeat (of_int 0) (length var_order)) = true ->
  row_sum (column_value x var_order)
    (fun c => value (nth c row (of_int 0))) (length var_order) =
  exact_lhs x terms.
Proof.
  intros Hrow Hex. unfold build_row in Hrow.
  rewrite (@build_row_value x var_order terms _ _
             (repeat_length _ _) Hrow Hex).
  unfold exact_lhs. f_equal.
  rewrite (row_sum_ext _ _ (fun _ => Q2Qc 0)).
  - apply row_sum_zero.
  - intros c Hc. rewrite nth_repeat_lt by assumption. apply value_zero.
Qed.

(** ** Unit form *)

(** Floats that compare equal stand for the same rational. *)
Lemma value_eqb (a b : float) : PrimFloat.eqb a b = true -> value a = value b.
Proof.
  rewrite FloatAxioms.eqb_spec. unfold value, SFeqb.
  destruct (Prim2SF a) as [sa|sa| |sa ma ea], (Prim2SF b) as [sb|sb| |sb mb eb];
    simpl; try discriminate; try reflexivity;
    try (destruct sa; discriminate); try (destruct sb; discriminate).
  destruct sa, sb; try discriminate;
    destruct (Z.compare_spec ea eb) as [->| |]; try discriminate;
    change (Pos.compare_cont Eq ma mb) with (Pos.compare ma mb);
    destruct (Pos.compare_spec ma mb) as [->| |]; try discriminate;
    reflexivity.
Qed.

Lemma value_one : value (of_int 1) = Q2Qc 1.
Proof. apply Qc_is_canon. reflexivity. Qed.

Lemma is_unit_form_spec (R : matrix float) (rows n : nat) :
  is_unit_form R rows n = true ->
  forall r, (r < rows)%nat ->
    (forall c, (c < n)%nat ->
       value (ent R r c) = if (r =? c)%nat then Q2Qc 1 else Q2Qc 0) /\
    ((r < n)%nat -> is_finite (ent R r n) = true) /\
    ((n <= r)%nat -> value (ent R r n) = Q2Qc 0).
Proof.
  unfold is_unit_form. rewrite forallb_forall. intros Hall r Hr.
  specialize (Hall r). rewrite andb_true_iff, forallb_forall in Hall.
  destruct Hall as [Hcols Hlast]; [apply in_seq; lia|]. split; [|split].
  - intros c Hc. rewrite (@value_eqb _ _ (Hcols c ltac:(apply in_seq; lia))).
    destruct (r =? c)%nat; [apply value_one | apply value_zero].
  - intros Hn. destruct (Nat.ltb_spec r n); [assumption | lia].
  - intros Hn. destruct (Nat.ltb_spec r n); [lia|].
    rewrite (@value_eqb (ent R r n) (of_int 0)); [apply value_zero|].
    exact Hlast.
Qed.


End Exact.

Import Exact.

(** ** C2: the unique solution of a run that does not round *)



(** Rounding alone takes a result past [1e-9].  The equation [49x = 1e18]
    is classified as having a unique solution and reduces to unit form;
    the division of [1e18] by [49] rounds, and [49] times the value returned
    is [1e18 + 128]. *)
Definition rounded_system : list (equation float) :=
  [([mkTerm 49%float "x"%string ADD], 1e18%float)].

Lemma rounded_solution_misses_equation :
  classified_unique rounded_system = true /\
  reduces_to_unit_form rounded_system = true /\
  rounding_free rounded_system = false /\
  solve_parsed rounded_system =
    Ok (UniqueSolution [("x"%string, 20408163265306124%float)]) /\
  lhs_value [("x"%string, 20408163265306124%float)]
    [mkTerm 49%float "x"%string ADD] = 1000000000000000128%float /\
  satisfies_all_within eps9 [("x"%string, 20408163265306124%float)]
    rounded_system = false.
Proof. vm_compute. repeat split. Qed.

(** ** [gauss_jordan] keeps the solution set *)

(** X7.  A run of [gauss_jordan] that rounds nowhere neither loses nor
    makes a solution: an assignment of rationals to the columns satisfies
    every row of the augmented matrix before the reduction exactly when it
    satisfies every row after it.  (Row exchange, division of a row by a
    pivot that is not zero, and subtraction of a multiple of another row are
    all the loop does.) *)
Theorem gauss_jordan_same_solutions (m : matrix float) (rows n : nat) :
  rect m rows (n + 1) -> 0 < rows ->
  run_passes exact_step m = true ->
  exists m',
    gauss_jordan m = Ok m' /\
    forall x : nat -> Qcanon.Qc,
      (forall r, r < rows -> holds x n m r) <->
      (forall r, r < rows -> holds x n m' r).
Proof.
  intros Hm Hrows Hex.
  destruct (gauss_jordan_ok Hm Hrows) as (m' & Hrun & _).
  exists m'. split; [assumption|]. intros x. split.
  - apply (@gauss_jordan_forward x rows n m m' Hm Hrows Hrun Hex).
  - apply (@gauss_jordan_backward x rows n m m' Hm Hrows Hrun Hex).
Qed.

(** X7 on the augmented matrix of [2x + 3y = 7], [x - y = 1]. *)
Lemma gauss_jordan_same_solutions_witness :
  exists m',
    gauss_jordan [[2; 3; 7]; [1; -1; 1]]%float = Ok m' /\
    forall x : nat -> Qcanon.Qc,
      (forall r, r < 2 -> holds x 2 [[2; 3; 7]; [1; -1; 1]]%float r) <->
      (forall r, r < 2 -> holds x 2 m' r).
Proof.
  apply (@gauss_jordan_same_solutions [[2; 3; 7]; [1; -1; 1]]%float 2 2).
  - split; [reflexivity|]. repeat constructor.
  - lia.
  - vm_compute. reflexivity.
Defined.

(** ** The rows of the builder *)

(** X16.  When the builder rounds nowhere, every row of [A] evaluates, at
    any assignment of rationals to the variables, to the left-hand side of
    its equation as the terms give it (sign times coefficient times value,
    summed): terms that name the same variable have been added up in one
    entry. *)
Theorem matrix_builder_rows_evaluate (eqs : list (equation float)) :
  exact_builder (sorted (all_vars eqs)) eqs = true ->
  exists A,
    build_matrix (sorted (all_vars eqs)) eqs = Ok (A, map snd eqs) /\
    forall (x : string -> Qcanon.Qc) (r : nat),
      r < length eqs ->
      row_sum (column_value x (sorted (all_vars eqs)))
        (fun c => value (entry (of_int 0) A r c))
        (length (sorted (all_vars eqs))) =
      exact_lhs x (fst (nth r eqs ([], of_int 0))).
Proof.
  intros Hex. unfold exact_builder in Hex. rewrite forallb_forall in Hex.
  destruct (build_matrix_ok (covers_sorted_all_vars eqs))
    as (A & HA & _ & Hrows).
  exists A. split; [assumption|]. intros x r Hr.
  pose proof (@Forall2_nth _ _ _ _ _ r ([], of_int 0) [] Hrows Hr) as Hrow.
  cbv beta in Hrow.
  specialize (Hex (nth r eqs ([], of_int 0)) (nth_In _ _ Hr)).
  apply andb_true_iff in Hex. destruct Hex as [_ Hterms].
  exact (@build_row_lhs x _ _ _ Hrow Hterms).
Qed.

(** The equation [x + 2y + x = 4]. *)
Definition repeated_variable_system : list (equation float) :=
  [([mkTerm 1%float "x"%string ADD; mkTerm 2%float "y"%string ADD;
     mkTerm 1%float "x"%string ADD], 4%float)].

(** X16 on [x + 2y + x = 4]: the row is [2, 2]. *)
Lemma matrix_builder_rows_evaluate_witness :
  exists A,
    build_matrix (sorted (all_vars repeated_variable_system))
      repeated_variable_system =
      Ok (A, map snd repeated_variable_system) /\
    forall (x : string -> Qcanon.Qc) (r : nat),
      r < length repeated_variable_system ->
      row_sum (column_value x (sorted (all_vars repeated_variable_system)))
        (fun c => value (entry (of_int 0) A r c))
        (length (sorted (all_vars repeated_variable_system))) =
      exact_lhs x (fst (nth r repeated_variable_system ([], of_int 0))).
Proof.
  apply (@matrix_builder_rows_evaluate repeated_variable_system).
  vm_compute. reflexivity.
Defined.

(** ** The unique solution is the only one *)

(** X17.  When the solver classifies a system as having a unique solution,
    [gauss_jordan] has brought its augmented matrix to unit form and no
    operation has rounded, the returned mapping is the only solution:
    whatever assignment of rationals satisfies every equation gives every
    variable the value the mapping gives it. *)
Theorem unique_solution_is_the_only_one (eqs : list (equation float)) :
  classified_unique eqs = true ->
  reduces_to_unit_form eqs = true ->
  rounding_free eqs = true ->
  exists solution,
    solve_parsed eqs = Ok (UniqueSolution solution) /\
    forall other : string -> Qcanon.Qc,
      (forall e, In e eqs -> exact_lhs other (fst e) = value (snd e)) ->
      forall v, In v (sorted (all_vars eqs)) ->
        other v = values_of solution v.
Proof.
  intros Hclass Hunit Hfree.
  destruct (unique_branch eqs Hclass)
    as (R & A & HA & [HAlen HAall] & Hbuilt & Hrun & HR & Hrows & Hpos &
        Hsolve & Hget).
  unfold reduces_to_unit_form in Hunit. rewrite HR in Hunit.
  unfold rounding_free in Hfree. rewrite HA in Hfree.
  apply andb_true_iff in Hfree. destruct Hfree as [Hbuilder Hreducer].
  unfold exact_builder in Hbuilder. rewrite forallb_forall in Hbuilder.
  set (vo := sorted (all_vars eqs)) in *.
  eexists. split; [exact Hsolve|]. intros other Hsat v Hv.
  destruct (In_nth _ _ EmptyString Hv) as (k & Hk & <-).
  unfold values_of, assigned. rewrite (Hget k Hk).
  assert (HABrect : rect (augment A (map snd eqs)) (length eqs)
                      (length vo + 1)).
  { apply augment_rect; [split; assumption | apply length_map]. }
  assert (Horig : forall r, r < length eqs ->
            holds (column_value other vo) (length vo)
              (augment A (map snd eqs)) r).
  { intros r Hr. unfold holds.
    rewrite (@augment_last _ _ A (map snd eqs) (length vo) r HAall);
      [| rewrite length_map; symmetry; exact HAlen | rewrite HAlen; exact Hr].
    change (of_int 0) with (snd (([], of_int 0) : equation float)) at 2.
    rewrite map_nth.
    rewrite <- (Hsat (nth r eqs ([], of_int 0))) by now apply nth_In.
    rewrite <- (@build_row_lhs other vo _ (nth r A [])).
    - apply row_sum_ext. intros c Hc. f_equal. symmetry.
      change (nth c (nth r A []) (of_int 0)) with (entry (of_int 0) A r c).
      apply (@augment_entry _ _ A (map snd eqs) (length vo) HAall);
        [now rewrite length_map | assumption].
    - apply (Forall2_nth _ _ Hbuilt Hr).
    - specialize (Hbuilder (nth r eqs ([], of_int 0)) (nth_In _ _ Hr)).
      apply andb_true_iff in Hbuilder. apply Hbuilder. }
  pose proof (@gauss_jordan_forward (column_value other vo)
                (length eqs) (length vo) _ R HABrect Hpos Hrun Hreducer
                Horig k ltac:(lia)) as Hk'.
  unfold holds in Hk'.
  destruct (@is_unit_form_spec R (length eqs) (length vo) Hunit k
              ltac:(lia)) as (Hcols & _ & _).
  rewrite (@row_sum_ext (column_value other vo) _ _ (length vo) Hcols)
    in Hk'.
  rewrite row_sum_delta in Hk'.
  destruct (Nat.ltb_spec k (length vo)); [|lia]. exact Hk'.
Qed.

(** X17 on [2x + 3y = 7], [x - y = 1]. *)
Lemma unique_solution_is_the_only_one_witness :
  exists solution,
    solve_parsed two_by_two_system = Ok (UniqueSolution solution) /\
    forall other : string -> Qcanon.Qc,
      (forall e, In e two_by_two_system ->
         exact_lhs other (fst e) = value (snd e)) ->
      forall v, In v (sorted (all_vars two_by_two_system)) ->
        other v = values_of solution v.
Proof.
  apply (@unique_solution_is_the_only_one two_by_two_system);
    vm_compute; reflexivity.
Defined.

(** * Homogeneous systems *)

Lemma removelast_entry {F : Type} `{Number F} (m : matrix F)
  (rows n : nat) :
  rect m rows (n + 1) ->
  agree n (entry (of_int 0) (map (@removelast F) m)) (entry (of_int 0) m).
Proof.
  intros [Hlen Hall] r c Hc. unfold entry.
  destruct (Nat.ltb_spec r (length m)) as [Hr|Hr].
  - change (@nil F) with (removelast (@nil F)) at 1. rewrite map_nth.
    rewrite Forall_forall in Hall.
    pose proof (Hall _ (nth_In m [] Hr)) as Hrow.
    destruct (nth r m []) as [|x row] using rev_ind;
      [simpl in Hrow; lia|].
    rewrite removelast_last. rewrite length_app in Hrow. simpl in Hrow.
    now rewrite app_nth1 by lia.
  - rewrite (nth_overflow (map (@removelast F) m))
      by (rewrite length_map; lia).
    now rewrite (nth_overflow m) by lia.
Qed.

(** The loop of [gauss_jordan] keeps what each of its turns keeps. *)
Lemma gauss_jordan_invariant {F : Type} `{Number F} (P : matrix F -> Prop)
  (rows cols : nat) (m m' : matrix F) :
  rect m rows cols -> 0 < rows ->
  (forall i t t', i < rows -> i < cols -> rect t rows cols ->
     step_relation rows cols i t t' -> P t -> P t') ->
  gauss_jordan m = Ok m' -> P m -> P m'.
Proof.
  intros Hm Hrows Hstep Hrun H0. unfold gauss_jordan in Hrun.
  rewrite (len_first_ok Hm Hrows), bind_Ok in Hrun.
  replace (length m) with rows in Hrun by (destruct Hm; congruence).
  assert (Hboth : rect m' rows cols /\ P m').
  { apply (for_each_post (fun t => rect t rows cols /\ P t) _ _ _ Hrun);
      [now split|].
    intros i t t' Hi [Ht HP] Hbody. apply in_range in Hi.
    destruct (@gauss_jordan_step_ok _ _ t rows cols i Ht)
      as (t1 & Ht1 & Hrect1 & Hrel); [lia | lia |].
    rewrite Ht1 in Hbody. injection Hbody as <-.
    split; [assumption|]. apply (Hstep i t t1); try assumption; lia. }
  apply Hboth.
Qed.

Section Homogeneous.
Context {F : Type} `{Number F}.

(** A property of entries that division by a pivot and subtraction of a
    multiple keep, and that nothing above the tolerance has. *)
Variable void : F -> Prop.
Hypothesis void_quot : forall x p, void x -> void (fquot x p).
Hypothesis void_sub_mul :
  forall x f y, void x -> void y -> void (fsub x (fmul f y)).
Hypothesis void_within_tolerance :
  forall x, void x -> fltb tol (fabs x) = false.

Local Abbreviation ent := (entry (of_int 0)).

(** A turn of [gauss_jordan] keeps a void column void. *)
Lemma step_keeps_void_column (rows n i : nat) (m m' : matrix F) :
  i < rows ->
  step_relation rows (n + 1) i m m' ->
  (forall r, r < rows -> void (ent m r n)) ->
  forall r, r < rows -> void (ent m' r n).
Proof.
  intros Hi (p & m1 & Hp & Hm1 & He1 & Hcases) Hall.
  assert (H1 : forall r, r < rows -> void (ent m1 r n)).
  { intros r Hr. rewrite He1. apply Hall. index_cases. }
  destruct Hcases as [[_ ->]|(Hhigh & m2 & Hm2 & He2 & He')]; [assumption|].
  assert (H2 : forall r, r < rows -> void (ent m2 r n)).
  { intros r Hr. rewrite He2.
    destruct ((r =? i) && (n <? n + 1)) eqn:Hc; [|now apply H1].
    apply void_quot. now apply H1. }
  intros r Hr. rewrite He'.
  destruct (_ && _); [|now apply H2].
  apply void_sub_mul; now apply H2.
Qed.

(** A turn of [check_rank] keeps a void column void. *)
Lemma rank_step_keeps_void_column (rows cols col n rank : nat)
  (e : nat -> nat -> F) :
  (forall r, r < rows -> void (e r n)) ->
  forall r, r < rows ->
    void (fst (rank_step_entries rows cols col (e, rank)) r n).
Proof.
  intros Hall r Hr. unfold rank_step_entries.
  destruct (first_index _ rank (rows - rank)) as [p|] eqn:Hf; cbn [fst];
    [|now apply Hall].
  apply first_index_some in Hf. destruct Hf as (Hp & _).
  assert (Hswap : forall r', r' < rows -> void (e (swap_index rank p r') n)).
  { intros r' Hr'. apply Hall. unfold swap_index. index_cases. }
  destruct (_ && _); [|now apply Hswap].
  apply void_sub_mul; apply Hswap; lia.
Qed.

Lemma rank_columns_keep_void_column (rows cols n : nat) (cs : list nat) :
  forall (e : nat -> nat -> F) (rank : nat),
  (forall r, r < rows -> void (e r n)) ->
  forall r, r < rows ->
    void (fst (rank_columns rows cols cs (e, rank)) r n).
Proof.
  induction cs as [|col cs IH]; intros e rank Hall r Hr; [now apply Hall|].
  rewrite rank_columns_cons.
  pose proof (@rank_step_keeps_void_column rows cols col n rank e Hall)
    as Hstep.
  destruct (rank_step_entries rows cols col (e, rank)) as [e1 r1].
  cbn [fst] in Hstep. now apply IH.
Qed.

(** A void last column adds nothing to the rank. *)
Lemma rank_with_void_column (R : matrix F) (rows n rA rAB : nat) :
  rect R rows (n + 1) -> 0 < rows ->
  (forall r, r < rows -> void (ent R r n)) ->
  check_rank (map (@removelast F) R) = Ok rA ->
  check_rank R = Ok rAB ->
  rA = rAB.
Proof.
  intros HR Hrows Hcol HrA HrAB.
  pose proof (@removelast_rect _ R rows n HR) as Hcoef.
  rewrite (check_rank_ok Hcoef) in HrA. rewrite (check_rank_ok HR) in HrAB.
  injection HrA as <-. injection HrAB as <-.
  destruct (Nat.ltb_spec 0 rows); [|lia].
  destruct (Nat.ltb_spec 0 (n + 1)); [|lia]. cbn [andb].
  assert (HA : (if 0 <? n
                then snd (rank_columns rows n (seq 0 n)
                            (ent (map (@removelast F) R), 0))
                else 0) =
               snd (rank_columns rows n (seq 0 n)
                      (ent (map (@removelast F) R), 0))).
  { destruct (Nat.ltb_spec 0 n) as [|Hn]; [reflexivity|].
    replace n with 0 by lia. reflexivity. }
  rewrite HA. replace (n + 1) with (S n) at 2 by lia.
  rewrite seq_S, rank_columns_app, Nat.add_0_l.
  destruct (@rank_columns_agree _ _ rows n (n + 1) n (seq 0 n)
              (fun c Hc => proj2 (proj1 (in_seq _ _ _) Hc)) (le_n _)
              ltac:(lia) (ent (map (@removelast F) R)) (ent R) 0
              (removelast_entry HR)) as [Hsnd _].
  rewrite Hsnd.
  pose proof (@rank_columns_keep_void_column rows (n + 1) n (seq 0 n)
                (ent R) 0 Hcol) as Hkeep.
  destruct (rank_columns rows (n + 1) (seq 0 n) (ent R, 0)) as [e1 r1].
  cbn [fst snd] in *. rewrite rank_columns_cons.
  unfold rank_step_entries. rewrite first_index_all_false; [reflexivity|].
  intros j Hj. apply void_within_tolerance. apply Hkeep. lia.
Qed.

End Homogeneous.

(** On the floats of the program the entries that stay as they are through
    both eliminations are the zeros and the NaN: those whose magnitude is
    not positive. *)
Definition void (x : float) : Prop := fltb (of_int 0) (fabs x) = false.

Lemma void_spec (x : float) :
  void x <-> (exists s, Prim2SF x = S754_zero s) \/ Prim2SF x = S754_nan.
Proof.
  unfold void.
  change (fltb (of_int 0) (fabs x)) with
    (PrimFloat.ltb 0%float (PrimFloat.abs x)).
  rewrite ltb_spec, abs_spec. change (Prim2SF 0%float) with (S754_zero false).
  destruct (Prim2SF x) as [s|s| |s m e]; simpl; split;
    try discriminate; eauto;
    intros [[s' Hs]|Hs]; discriminate.
Qed.

Lemma void_quot (x p : float) : void x -> void (fquot x p).
Proof.
  rewrite !void_spec. change (fquot x p) with (x / p)%float.
  rewrite div_spec.
  intros [[s ->]| ->]; destruct (Prim2SF p) as [sp|sp| |sp mp ep]; simpl;
    eauto.
Qed.

Lemma void_sub_mul (x f y : float) :
  void x -> void y -> void (fsub x (fmul f y)).
Proof.
  rewrite !void_spec. change (fsub x (fmul f y)) with (x - f * y)%float.
  rewrite sub_spec, mul_spec.
  intros [[sx ->]| ->] [[sy ->]| ->];
    destruct (Prim2SF f) as [sf|sf| |sf mf ef]; simpl;
    try destruct sx; try destruct sy; try destruct sf; simpl; eauto.
Qed.

Lemma void_within_tolerance (x : float) :
  void x -> fltb tol (fabs x) = false.
Proof.
  rewrite void_spec.
  change (fltb tol (fabs x)) with
    (PrimFloat.ltb tolerance (PrimFloat.abs x)).
  rewrite ltb_spec, abs_spec.
  intros [[s ->]| ->]; reflexivity.
Qed.

Lemma zero_void (x : float) : is_zero x = true -> void x.
Proof.
  intros Hx. apply void_spec. left. now apply is_zero_spec.
Qed.

(** X18.  A system whose right-hand sides are all zero is never reported
    to have no solution.  The last column of the augmented matrix starts
    as zeros; division by a pivot and subtraction of a multiple of a row
    leave each of its entries a zero or a NaN, through [gauss_jordan] and
    through [check_rank], and neither exceeds the tolerance, so the two
    ranks agree. *)
Theorem homogeneous_never_inconsistent (eqs : list (equation float)) :
  eqs <> [] -> (forall e, In e eqs -> is_zero (snd e) = true) ->
  exists out, solve_parsed eqs = Ok out /\ kind_of out <> KNoSolution.
Proof.
  intros Hne Hrhs. unfold solve_parsed.
  pose proof (covers_sorted_all_vars eqs) as Hcov.
  set (vo := sorted (all_vars eqs)) in *. clearbody vo.
  destruct (solve_with_order_ok Hne Hcov)
    as (R & rA & rAB & out & HR & Hrect & HrA & HrAB & Hle & Hsolve &
        Hno & Hinf & Huniq).
  exists out. split; [assumption|].
  assert (Hrows : 0 < length eqs) by (destruct eqs; [congruence | simpl; lia]).
  unfold reduced_system in HR.
  destruct (build_matrix_ok Hcov) as (A & HA & [HAlen HAall] & _).
  rewrite HA, bind_Ok in HR.
  assert (HAB : rect (augment A (map snd eqs)) (length eqs) (length vo + 1)).
  { apply augment_rect; [split; assumption | apply length_map]. }
  assert (Hcol : forall r, r < length eqs ->
            void (entry (of_int 0) R r (length vo))).
  { apply (@gauss_jordan_invariant _ _
             (fun t => forall r, r < length eqs ->
                void (entry (of_int 0) t r (length vo)))
             (length eqs) (length vo + 1) _ R HAB Hrows); [|exact HR|].
    - intros i t t' Hi _ _ Hrel.
      exact (@step_keeps_void_column _ _ void void_quot void_sub_mul
               (length eqs) (length vo) i t t' Hi Hrel).
    - intros r Hr.
      rewrite (@augment_last _ _ A (map snd eqs) (length vo) r HAall);
        [| rewrite length_map; symmetry; exact HAlen
         | rewrite HAlen; exact Hr].
      change (of_int 0) with (snd (([], of_int 0) : equation float)) at 1.
      rewrite map_nth. apply zero_void. apply Hrhs. now apply nth_In. }
  pose proof (@rank_with_void_column _ _ void void_sub_mul
                void_within_tolerance R (length eqs)
                (length vo) rA rAB Hrect Hrows Hcol HrA HrAB) as Heq.
  destruct (Nat.eq_dec rA (length vo)) as [Hfull|Hless].
  - rewrite (Huniq Heq Hfull). discriminate.
  - rewrite (Hinf Heq ltac:(lia)). discriminate.
Qed.

(** The homogeneous system [x + 2y = 0], [2x + 4y = 0]. *)
Definition homogeneous_system : list (equation float) :=
  [([mkTerm 1%float "x"%string ADD; mkTerm 2%float "y"%string ADD], 0%float);
   ([mkTerm 2%float "x"%string ADD; mkTerm 4%float "y"%string ADD], 0%float)].

(** X18 on [x + 2y = 0], [2x + 4y = 0]. *)
Lemma homogeneous_never_inconsistent_witness :
  exists out,
    solve_parsed homogeneous_system = Ok out /\ kind_of out <> KNoSolution.
Proof.
  apply (@homogeneous_never_inconsistent homogeneous_system).
  - discriminate.
  - intros e [<-|[<-|[]]]; reflexivity.
Defined.
